(** * ATS process kernels, couplers and field evaluators

    A shallow embedding of the parts of the ATS sources that the
    specification's testable properties speak about:

    - [EnergyBase]: [IsAdmissible], [ModifyCorrection] and the two blocks
      of [ModifyPredictor]; [EnergyBaseBC]: [UpdateBoundaryConditions_];
      [EnergyBasePredictor]: [ModifyPredictor];
    - [WaterTableColumns]: [WaterTableColumnsEvaluator::HasFieldChanged];
    - [MPCSubsurface]: [setup], [update_precon], [precon];
    - [OverlandConductivitySubgrid]: [EnsureCompatibility], [EvaluateField_];
    - [RichardsEnergy], [LiquidIceEnergy]: [EvaluateField_] and
      [EvaluateFieldPartialDerivative_];
    - [FATES]: [FATES_PK::AdvanceStep].

    C++ [double] is Rocq's primitive binary64 [float]; an
    [Epetra_MultiVector] view of the owned entries of one component is a
    [list float]; a [CompositeVector] is the list of its named components
    in the order of its name iterator.  Calls into Amanzi, Epetra, Teuchos
    and the Fortran FATES library are section variables. *)

From Stdlib Require Import ZArith List Bool Lia Floats Uint63.
From stdpp Require Import gmap strings list.

Set Warnings "-inexact-float,-clear-no-such-hyp,-register-all".

(** ** Doubles *)

Module Double.

Local Open Scope float_scope.

(** [std::min(a, b)] is [(b < a) ? b : a]; [std::max(a, b)] is
    [(a < b) ? b : a]. *)
Definition fmin (a b : float) : float := if b <? a then b else a.
Definition fmax (a b : float) : float := if a <? b then b else a.

Definition not_nan (x : float) : Prop := Prim2SF x <> S754_nan.

(** The conversion of a (small) C++ [int] to [double]. *)
Definition double_of_int (z : Z) : float :=
  if (z <? 0)%Z then - of_uint63 (Uint63.of_Z (- z)) else of_uint63 (Uint63.of_Z z).

(** Case analysis over the comparison of two specification floats. *)
Ltac sf_cases :=
  repeat match goal with
  | s : bool |- _ => destruct s
  | |- context [Z.compare ?a ?b] => destruct (Z.compare_spec a b)
  | H : context [Z.compare ?a ?b] |- _ => destruct (Z.compare_spec a b)
  | |- context [Pos.compare_cont Eq ?a ?b] =>
      change (Pos.compare_cont Eq a b) with (Pos.compare a b);
      destruct (Pos.compare_spec a b)
  | H : context [Pos.compare_cont Eq ?a ?b] |- _ =>
      change (Pos.compare_cont Eq a b) with (Pos.compare a b) in H;
      destruct (Pos.compare_spec a b)
  end; simpl in *; try congruence; try lia.

Lemma SFltb_trans a b c :
  SFltb a b = true -> SFltb b c = true -> SFltb a c = true.
Proof.
  unfold SFltb; destruct a, b, c; simpl; try congruence; sf_cases.
Qed.

Lemma SFltb_below v m t :
  v <> S754_nan -> m <> S754_nan ->
  SFltb v m = false -> SFltb v t = true -> SFltb m t = true.
Proof.
  unfold SFltb; destruct v, m, t; simpl; try congruence; sf_cases.
Qed.

Lemma SFltb_above v m t :
  v <> S754_nan -> m <> S754_nan ->
  SFltb m v = false -> SFltb t v = true -> SFltb t m = true.
Proof.
  unfold SFltb; destruct v, m, t; simpl; try congruence; sf_cases.
Qed.

Lemma SFltb_irrefl a : SFltb a a = false.
Proof. unfold SFltb; destruct a; simpl; try congruence; sf_cases. Qed.

Lemma ltb_not_nan_l a b : (a <? b) = true -> not_nan a.
Proof.
  rewrite FloatAxioms.ltb_spec; unfold not_nan, SFltb.
  destruct (Prim2SF a), (Prim2SF b); simpl; congruence.
Qed.

Lemma ltb_not_nan_r a b : (a <? b) = true -> not_nan b.
Proof.
  rewrite FloatAxioms.ltb_spec; unfold not_nan, SFltb.
  destruct (Prim2SF a), (Prim2SF b); simpl; congruence.
Qed.

Lemma ltb_trans a b c : (a <? b) = true -> (b <? c) = true -> (a <? c) = true.
Proof. rewrite !FloatAxioms.ltb_spec; apply SFltb_trans. Qed.

Lemma ltb_irrefl a : (a <? a) = false.
Proof. rewrite FloatAxioms.ltb_spec; apply SFltb_irrefl. Qed.

(** [m <= v < t] gives [m < t] as soon as neither [v] nor [m] is a NaN. *)
Lemma ltb_below v m t :
  not_nan m -> (v <? m) = false -> (v <? t) = true -> (m <? t) = true.
Proof.
  intros Hm Hvm Hvt. pose proof (ltb_not_nan_l _ _ Hvt) as Hv.
  revert Hvm Hvt. rewrite !FloatAxioms.ltb_spec. now apply SFltb_below.
Qed.

Lemma ltb_above v m t :
  not_nan m -> (m <? v) = false -> (t <? v) = true -> (t <? m) = true.
Proof.
  intros Hm Hvm Hvt. pose proof (ltb_not_nan_r _ _ Hvt) as Hv.
  revert Hvm Hvt. rewrite !FloatAxioms.ltb_spec. now apply SFltb_above.
Qed.

Lemma not_nan_literal x : (x =? x) = true -> not_nan x.
Proof.
  rewrite FloatAxioms.eqb_spec; unfold not_nan, SFeqb.
  destruct (Prim2SF x); simpl; congruence.
Qed.

Lemma fmin_not_nan a b : not_nan a -> not_nan (fmin a b).
Proof.
  unfold fmin; destruct (b <? a) eqn:E; [|easy].
  intros _; exact (ltb_not_nan_l _ _ E).
Qed.

Lemma fmax_not_nan a b : not_nan a -> not_nan (fmax a b).
Proof.
  unfold fmax; destruct (a <? b) eqn:E; [|easy].
  intros _; exact (ltb_not_nan_r _ _ E).
Qed.

(** Below a threshold: the smaller of two is below iff one of them is.
    Only the running value [a] has to be a number: a NaN [b] compares
    false with everything and is skipped on both sides. *)
Lemma fmin_ltb a b t :
  not_nan a -> (fmin a b <? t) = (a <? t) || (b <? t).
Proof.
  intros Ha. unfold fmin. destruct (b <? a) eqn:E.
  - destruct (b <? t) eqn:Eb; [now rewrite orb_true_r|].
    rewrite orb_false_r. destruct (a <? t) eqn:Ea; [|easy].
    now rewrite (ltb_trans _ _ _ E Ea) in Eb.
  - destruct (a <? t) eqn:Ea; [easy|]. simpl.
    destruct (b <? t) eqn:Eb; [|easy].
    now rewrite (ltb_below _ _ _ Ha E Eb) in Ea.
Qed.

Lemma fmax_gtb a b t :
  not_nan a -> (t <? fmax a b) = (t <? a) || (t <? b).
Proof.
  intros Ha. unfold fmax. destruct (a <? b) eqn:E.
  - destruct (t <? b) eqn:Eb; [now rewrite orb_true_r|].
    rewrite orb_false_r. destruct (t <? a) eqn:Ea; [|easy].
    now rewrite (ltb_trans _ _ _ Ea E) in Eb.
  - destruct (t <? a) eqn:Ea; [easy|]. simpl.
    destruct (t <? b) eqn:Eb; [|easy].
    now rewrite (ltb_above _ _ _ Ha E Eb) in Ea.
Qed.

End Double.

(** ** Composite vectors *)

Module Vec.

(** The owned entries of vector 0 of one component. *)
Abbreviation Epetra_MultiVector := (list float).

(** The components of a [CompositeVector], in name-iterator order. *)
Abbreviation CompositeVector := (list (string * list float)).

Fixpoint ViewComponent (v : CompositeVector) (name : string)
  : option Epetra_MultiVector :=
  match v with
  | [] => None
  | (n, data) :: rest =>
      if String.eqb n name then Some data else ViewComponent rest name
  end.

Definition HasComponent (v : CompositeVector) (name : string) : bool :=
  match ViewComponent v name with Some _ => true | None => false end.

(** Writing through a mutable view: the entries of component [name]
    become [data]; the other components are untouched. *)
Fixpoint SetComponent (v : CompositeVector) (name : string)
  (data : Epetra_MultiVector) : CompositeVector :=
  match v with
  | [] => []
  | (n, d) :: rest =>
      if String.eqb n name then (n, data) :: rest
      else (n, d) :: SetComponent rest name data
  end.

Lemma ViewComponent_SetComponent_eq v name data :
  is_Some (ViewComponent v name) ->
  ViewComponent (SetComponent v name data) name = Some data.
Proof.
  induction v as [|[n d] rest IH]; simpl; intros [x Hx]; [discriminate|].
  destruct (String.eqb n name) eqn:E; simpl; rewrite E; [reflexivity|].
  apply IH; eauto.
Qed.

Lemma ViewComponent_SetComponent_ne v name name' data :
  name <> name' ->
  ViewComponent (SetComponent v name data) name' = ViewComponent v name'.
Proof.
  intros Hne. induction v as [|[n d] rest IH]; simpl; [reflexivity|].
  destruct (String.eqb n name) eqn:E; simpl.
  - apply String.eqb_eq in E; subst n.
    destruct (String.eqb name name') eqn:E'; [|reflexivity].
    apply String.eqb_eq in E'; contradiction.
  - now rewrite IH.
Qed.

Lemma SetComponent_same v name data :
  ViewComponent v name = Some data -> SetComponent v name data = v.
Proof.
  induction v as [|[n d] rest IH]; simpl; [reflexivity|].
  destruct (String.eqb n name); intros H.
  - now injection H as ->.
  - now rewrite IH.
Qed.

Lemma SetComponent_twice v name d1 d2 :
  SetComponent (SetComponent v name d1) name d2 = SetComponent v name d2.
Proof.
  induction v as [|[n d] rest IH]; simpl; [reflexivity|].
  destruct (String.eqb n name) eqn:E; simpl; rewrite E; [reflexivity|].
  now rewrite IH.
Qed.

End Vec.

(** ** EnergyBase *)

Module EnergyBase.
Import Double Vec.
Local Open Scope float_scope.

(** *** [EnergyBase::IsAdmissible] *)

(** [minT_c], [min_c], [maxT_c], [max_c] (and their face twins). *)
Record Extrema := { minT : float; min_id : Z; maxT : float; max_id : Z }.

Definition Extrema0 : Extrema :=
  {| minT := 1e6; min_id := (-1)%Z; maxT := -1e6; max_id := (-1)%Z |}.

(** The loop [for (c = 0; c != temp.MyLength(); ++c)] over one component. *)
Fixpoint extrema_loop (temp : Epetra_MultiVector) (c : Z) (e : Extrema)
  : Extrema :=
  match temp with
  | [] => e
  | x :: rest =>
      let e1 :=
        if x <? minT e
        then {| minT := x; min_id := c; maxT := maxT e; max_id := max_id e |}
        else e in
      let e2 :=
        if maxT e1 <? x
        then {| minT := minT e1; min_id := min_id e1; maxT := x; max_id := c |}
        else e1 in
      extrema_loop rest (c + 1)%Z e2
  end.

(** The rank-local [(minT, maxT)] before the reductions; [None] when the
    vector has no "cell" component to view. *)
Definition local_extrema (temp : CompositeVector) : option (float * float) :=
  match ViewComponent temp "cell" with
  | None => None
  | Some temp_c =>
      let ec := extrema_loop temp_c 0%Z Extrema0 in
      match ViewComponent temp "face" with
      | Some temp_f =>
          let ef := extrema_loop temp_f 0%Z Extrema0 in
          Some (fmin (minT ec) (minT ef), fmax (maxT ec) (maxT ef))
      | None => Some (minT ec, maxT ec)
      end
  end.

(** [Comm::MinAll] and [Comm::MaxAll] of one double per rank. *)
Definition MinAll (mine : float) (others : list float) : float :=
  fold_left fmin others mine.
Definition MaxAll (mine : float) (others : list float) : float :=
  fold_left fmax others mine.

(** [up] is the trial state on the calling rank, [peers] the states the
    other ranks of the communicator pass to the same collective call. *)
Definition IsAdmissible (up : CompositeVector) (peers : list CompositeVector)
  : option bool :=
  match local_extrema up, mapM local_extrema peers with
  | Some (minT_l, maxT_l), Some others =>
      let maxT := MaxAll maxT_l (map snd others) in
      let minT := MinAll minT_l (map fst others) in
      if (minT <? 200.0) || (330.0 <? maxT) then Some false else Some true
  | _, _ => None
  end.

(** Every owned cell and face temperature of one rank, and of all ranks. *)
Definition owned_values (temp : CompositeVector) : list float :=
  default [] (ViewComponent temp "cell") ++
  default [] (ViewComponent temp "face").

Definition global_values (up : CompositeVector)
  (peers : list CompositeVector) : list float :=
  concat (map owned_values (up :: peers)).

(** [m] is the least (resp. greatest) number among [vals]. *)
Definition is_global_min (m : float) (vals : list float) : Prop :=
  m ∈ vals ∧ not_nan m ∧ ∀ x, x ∈ vals → (x <? m) = false.
Definition is_global_max (m : float) (vals : list float) : Prop :=
  m ∈ vals ∧ not_nan m ∧ ∀ x, x ∈ vals → (m <? x) = false.

(** Some value lies outside the bounds of the constitutive models. *)
Definition out_of_bounds (vals : list float) : bool :=
  existsb (fun x => x <? 200.0) vals || existsb (fun x => 330.0 <? x) vals.

(** *** The process kernel's configuration, mesh and operators *)

(** Amanzi's [Operators::OPERATOR_BC_*] markers this kernel writes. *)
Inductive OperatorBC :=
  | OPERATOR_BC_NONE
  | OPERATOR_BC_DIRICHLET
  | OPERATOR_BC_NEUMANN.

#[global] Instance OperatorBC_eq_dec : EqDecision OperatorBC.
Proof. solve_decision. Defined.

Inductive ModifyCorrectionResult :=
  | CORRECTION_NOT_MODIFIED
  | CORRECTION_MODIFIED.

(** What the member functions below read from the kernel: its options,
    its mesh, its boundary-condition tables (as [UpdateBoundaryConditions_]
    leaves them) and the diffusion operator.  [scattered_cells] are the
    copies of cells owned by other ranks that [ScatterMasterToGhosted]
    delivers; [UpdateConsistentFaces u f] is the value that
    [PDE_Diffusion::UpdateConsistentFaces] derives for the owned face [f]
    of the vector [u] it is given (it writes the face component only). *)
Record PK := {
  modify_predictor_for_freezing_ : bool;
  modify_predictor_with_consistent_faces_ : bool;
  T_limit_ : float;
  face_get_cells : nat -> list nat;
  getBoundaryFaceFace : nat -> nat;
  getFaceOnBoundaryInternalCell : nat -> nat;
  face_area : nat -> float;
  bc_markers : nat -> OperatorBC;
  bc_values : nat -> float;
  bc_adv_model : nat -> OperatorBC;
  matrices_shadow00 : nat -> float;
  scattered_cells : Epetra_MultiVector;
  UpdateConsistentFaces : CompositeVector -> nat -> float
}.

(** *** [EnergyBase::ModifyPredictor] *)

(** One iteration of the freezing loops: the new entry and the flag. *)
Definition freeze_value (x0 x : float) (modified : bool) : float * bool :=
  if (273.15 <? x0) && (x <? 273.15) then (273.15 - 0.00001, true)
  else if (x0 <? 273.15) && (273.15 <? x) then (273.15 + 0.00001, true)
  else (x, modified).

(** [for (c = 0; c != u0.MyLength(); ++c)]: [None] when [u] is shorter
    than [u0] (the loop would index past its end). *)
Fixpoint freeze_loop (u0 u : Epetra_MultiVector) (modified : bool)
  : option (Epetra_MultiVector * bool) :=
  match u0, u with
  | [], _ => Some (u, modified)
  | _ :: _, [] => None
  | x0 :: u0', x :: u' =>
      let '(y, m) := freeze_value x0 x modified in
      match freeze_loop u0' u' m with
      | Some (ys, m') => Some (y :: ys, m')
      | None => None
      end
  end.

Definition freeze_component (name : string) (u0 u : CompositeVector)
  (modified : bool) : option (CompositeVector * bool) :=
  match ViewComponent u0 name, ViewComponent u name with
  | Some u0_c, Some u_c =>
      match freeze_loop u0_c u_c modified with
      | Some (u_c', m) => Some (SetComponent u name u_c', m)
      | None => None
      end
  | _, _ => None
  end.

(** [face_value / ncells] for face [f], read from the ghosted cell view. *)
Definition face_average (pk : PK) (u_c : Epetra_MultiVector) (f : nat)
  : option float :=
  let cells := face_get_cells pk f in
  match mapM (fun c => u_c !! c) cells with
  | Some vals =>
      Some (fold_left PrimFloat.add vals 0.0
            / double_of_int (Z.of_nat (length cells)))
  | None => None
  end.

(** [EnergyBase::CalculateConsistentFaces]. *)
Definition CalculateConsistentFaces (pk : PK) (u : CompositeVector)
  : option CompositeVector :=
  match ViewComponent u "cell", ViewComponent u "face" with
  | Some owned_c, Some u_f =>
      let u_c := owned_c ++ scattered_cells pk in
      let f_owned := length u_f in
      match mapM (face_average pk u_c) (seq 0 f_owned) with
      | Some averaged =>
          let u1 := SetComponent u "face" averaged in
          Some (SetComponent u1 "face"
                  (map (UpdateConsistentFaces pk u1) (seq 0 f_owned)))
      | None => None
      end
  | _, _ => None
  end.

(** The block guarded by [modify_predictor_for_freezing_]; [modified]
    starts out [false]. *)
Definition freeze_stage (pk : PK) (u0 u : CompositeVector)
  : option (CompositeVector * bool) :=
  if modify_predictor_for_freezing_ pk then
    match freeze_component "cell" u0 u false with
    | Some (u1, m) =>
        if HasComponent u0 "boundary_face"
        then freeze_component "boundary_face" u0 u1 m
        else Some (u1, m)
    | None => None
    end
  else Some (u, false).

(** The part of [ModifyPredictor] that follows the update of the
    boundary conditions: the block guarded by
    [modify_predictor_for_freezing_] and the one guarded by
    [modify_predictor_with_consistent_faces_], on [u] as
    [UpdateBoundaryConditions_] has left it.  The result is
    [(modified, u)] with [u] as the call leaves it.  The whole call is
    [EnergyBasePredictor.ModifyPredictor]. *)
Definition predictor_modification (pk : PK) (h : float)
  (u0 u : CompositeVector)
  : option (bool * CompositeVector) :=
  match freeze_stage pk u0 u with
  | Some (u1, modified) =>
      if modify_predictor_with_consistent_faces_ pk then
        match CalculateConsistentFaces pk u1 with
        | Some u2 => Some (true, u2)
        | None => None
        end
      else Some (modified, u1)
  | None => None
  end.

(** An entry one of the freezing loops moves to the threshold. *)
Definition snapped (x0 x : float) : bool :=
  (273.15 <? x0) && (x <? 273.15) || (x0 <? 273.15) && (273.15 <? x).

(** *** [EnergyBase::ModifyCorrection] *)

(** The body of the loop over boundary faces: the new [dT_bf[bf]]. *)
Definition boundary_face_correction (pk : PK)
  (T_c T_bf dT_c : Epetra_MultiVector) (bf : nat) (dT_bf_old : float)
  : option float :=
  let f := getBoundaryFaceFace pk bf in
  if bool_decide (bc_markers pk f = OPERATOR_BC_NEUMANN)
     && bool_decide (bc_adv_model pk f = OPERATOR_BC_DIRICHLET) then
    let c := getFaceOnBoundaryInternalCell pk f in
    match T_c !! c, dT_c !! c, T_bf !! bf with
    | Some Tc, Some dTc, Some Tbf =>
        let Acc := matrices_shadow00 pk f in
        let T_bf_val :=
          (Acc * (Tc - dTc) - bc_values pk f * face_area pk f) / Acc in
        Some (Tbf - T_bf_val)
    | _, _, _ => None
    end
  else Some dT_bf_old.

(** The update of the diffusive flux correction: [du] with its
    "boundary_face" entries rebuilt from the cell corrections. *)
Definition reconstruct_boundary_faces (pk : PK) (u du : CompositeVector)
  : option CompositeVector :=
  if HasComponent u "boundary_face" then
    match ViewComponent u "boundary_face", ViewComponent u "cell",
          ViewComponent du "cell", ViewComponent du "boundary_face" with
    | Some T_bf, Some T_c, Some dT_c, Some dT_bf =>
        match mapM (fun bf =>
                      match dT_bf !! bf with
                      | Some old => boundary_face_correction pk T_c T_bf dT_c bf old
                      | None => None
                      end) (seq 0 (length T_bf)) with
        | Some rebuilt =>
            Some (SetComponent du "boundary_face"
                    (rebuilt ++ drop (length T_bf) dT_bf))
        | None => None
        end
    | _, _, _, _ => None
    end
  else Some du.

(** [((x > 0) - (x < 0)) * T_limit_] when [|x| > T_limit_]. *)
Definition clip_value (T_limit x : float) : float * bool :=
  if T_limit <? abs x then
    (double_of_int
       ((if (0 <? x)%float then 1 else 0) - (if (x <? 0)%float then 1 else 0))%Z
     * T_limit, true)
  else (x, false).

Fixpoint clip_loop (T_limit : float) (du_c : Epetra_MultiVector)
  (my_limited : nat) : Epetra_MultiVector * nat :=
  match du_c with
  | [] => ([], my_limited)
  | x :: rest =>
      let '(y, limited) := clip_value T_limit x in
      let '(ys, n) :=
        clip_loop T_limit rest (if limited then S my_limited else my_limited) in
      (y :: ys, n)
  end.

(** The loop over the components of [du]. *)
Fixpoint clip_components (T_limit : float) (du : CompositeVector)
  (my_limited : nat) : CompositeVector * nat :=
  match du with
  | [] => ([], my_limited)
  | (name, du_c) :: rest =>
      let '(du_c', n) := clip_loop T_limit du_c my_limited in
      let '(rest', n') := clip_components T_limit rest n in
      ((name, du_c') :: rest', n')
  end.

(** [Comm::SumAll] of one counter per rank. *)
Definition SumAll (mine : nat) (others : list nat) : nat :=
  fold_left Nat.add others mine.

(** [others_limited] are the counters [my_limited] of the other ranks.
    The result is the returned code with [du] as the call leaves it. *)
Definition ModifyCorrection (pk : PK) (others_limited : list nat)
  (h : float) (res u du : CompositeVector)
  : option (ModifyCorrectionResult * CompositeVector) :=
  match reconstruct_boundary_faces pk u du with
  | Some du1 =>
      let '(du2, n_limited) :=
        if 0 <? T_limit_ pk then
          let '(du2, my_limited) := clip_components (T_limit_ pk) du1 0%nat in
          (du2, SumAll my_limited others_limited)
        else (du1, 0%nat) in
      if (0 <? n_limited)%nat then Some (CORRECTION_MODIFIED, du2)
      else Some (CORRECTION_NOT_MODIFIED, du2)
  | None => None
  end.

(** The entries of all components of a vector. *)
Definition entries (v : CompositeVector) : list float :=
  concat (map snd v).

(** An entry the limiter clips, and how many a vector has. *)
Definition exceeds (T_limit x : float) : bool := T_limit <? abs x.

Definition n_exceeding (T_limit : float) (v : CompositeVector) : nat :=
  length (List.filter (exceeds T_limit) (entries v)).


(** *** Sample data *)

(** Two ranks of a distributed temperature: the least value, 200 K, is
    on the calling rank and the greatest, 330 K, on its peer;
    [rank1_cold] holds a value one unit below the lower bound. *)
Definition rank0 : CompositeVector :=
  [("cell"%string, [250.0; 200.0]); ("face"%string, [300.0])].
Definition rank1 : CompositeVector := [("cell"%string, [330.0; 273.15])].
Definition rank1_cold : CompositeVector := [("cell"%string, [330.0; 199.0])].

(** A kernel on a mesh of two cells in a row: face [0] lies between
    cells [0] and [1], every other face touches cell [1] only. *)
Definition pk_line (freezing faces : bool) (T_limit : float) : PK := {|
  modify_predictor_for_freezing_ := freezing;
  modify_predictor_with_consistent_faces_ := faces;
  T_limit_ := T_limit;
  face_get_cells := fun f => match f with O => [0; 1]%nat | _ => [1%nat] end;
  getBoundaryFaceFace := fun bf => bf;
  getFaceOnBoundaryInternalCell := fun f => f;
  face_area := fun _ => 1.0;
  bc_markers := fun _ => OPERATOR_BC_NEUMANN;
  bc_values := fun _ => 0.0;
  bc_adv_model := fun _ => OPERATOR_BC_DIRICHLET;
  matrices_shadow00 := fun _ => 1.0;
  scattered_cells := [];
  UpdateConsistentFaces :=
    fun u f => default 0.0 (default [] (ViewComponent u "face") !! f)
|}.

Definition u_old : CompositeVector :=
  [("cell"%string, [280.0; 260.0]); ("face"%string, [270.0; 270.0])].
Definition u_pred : CompositeVector :=
  [("cell"%string, [270.0; 280.0]); ("face"%string, [275.0; 275.0])].
Definition u_snapped : CompositeVector :=
  [("cell"%string, [273.15 - 0.00001; 273.15 + 0.00001]);
   ("face"%string, [275.0; 275.0])].
Definition u_faces : CompositeVector :=
  [("cell"%string, [270.0; 280.0]); ("face"%string, [275.0; 280.0])].

(** A correction on one cell with one boundary face, before and after
    the boundary-face reconstruction; a correction above a 2 K limit. *)
Definition T_bc : CompositeVector :=
  [("cell"%string, [1.0]); ("boundary_face"%string, [3.0])].
Definition du_zero : CompositeVector :=
  [("cell"%string, [0.0]); ("boundary_face"%string, [0.0])].
Definition du_rebuilt : CompositeVector :=
  [("cell"%string, [0.0]); ("boundary_face"%string, [2.0])].
Definition du_large : CompositeVector := [("cell"%string, [5.0; -7.0; 1.0])].

(** Shapes on which the loops stay in range. *)
Definition covers (u0 u : CompositeVector) (name : string) : Prop :=
  exists a b, ViewComponent u0 name = Some a /\ ViewComponent u name = Some b /\
    (length a <= length b)%nat.

Definition faces_in_range (pk : PK) (u : CompositeVector) : Prop :=
  exists u_c u_f, ViewComponent u "cell" = Some u_c /\
    ViewComponent u "face" = Some u_f /\
    forall f c, (f < length u_f)%nat -> c ∈ face_get_cells pk f ->
      (c < length u_c + length (scattered_cells pk))%nat.

Definition well_shaped (pk : PK) (u0 u : CompositeVector) : Prop :=
  (modify_predictor_for_freezing_ pk = true ->
     covers u0 u "cell" /\
     (HasComponent u0 "boundary_face" = true -> covers u0 u "boundary_face")) /\
  (modify_predictor_with_consistent_faces_ pk = true -> faces_in_range pk u).

(** *** Properties of [IsAdmissible] *)

Lemma extrema_loop_spec temp : forall c e,
  not_nan (minT e) -> not_nan (maxT e) ->
  let r := extrema_loop temp c e in
  not_nan (minT r) /\ not_nan (maxT r) /\
  (forall t, (minT r <? t) = (minT e <? t) || existsb (fun x => x <? t) temp) /\
  (forall t, (t <? maxT r) = (t <? maxT e) || existsb (fun x => t <? x) temp).
Proof.
  induction temp as [|x rest IH]; intros c e Hmin Hmax; simpl.
  - repeat split; trivial; intros t; now rewrite orb_false_r.
  - set (e1 := if x <? minT e then _ else e).
    set (e2 := if maxT e1 <? x then _ else e1).
    assert (Hmin2 : minT e2 = fmin (minT e) x).
    { unfold e2, e1, fmin. destruct (x <? minT e); simpl;
        now destruct (_ <? x). }
    assert (Hmax2 : maxT e2 = fmax (maxT e) x).
    { unfold e2, e1, fmax. destruct (x <? minT e); simpl;
        now destruct (maxT e <? x). }
    destruct (IH (c + 1)%Z e2) as (N1 & N2 & L & U).
    + rewrite Hmin2. now apply fmin_not_nan.
    + rewrite Hmax2. now apply fmax_not_nan.
    + repeat split; trivial; intros t.
      * rewrite L, Hmin2, fmin_ltb by trivial. now rewrite orb_assoc.
      * rewrite U, Hmax2, fmax_gtb by trivial. now rewrite orb_assoc.
Qed.

Lemma not_nan_1e6 : not_nan 1e6.
Proof. now apply not_nan_literal. Qed.
Lemma not_nan_m1e6 : not_nan (-1e6).
Proof. now apply not_nan_literal. Qed.

Lemma local_extrema_spec temp lo hi :
  local_extrema temp = Some (lo, hi) ->
  not_nan lo /\ not_nan hi /\
  (forall t, (1e6 <? t) = false ->
     (lo <? t) = existsb (fun x => x <? t) (owned_values temp)) /\
  (forall t, (t <? -1e6) = false ->
     (t <? hi) = existsb (fun x => t <? x) (owned_values temp)).
Proof.
  unfold local_extrema, owned_values.
  destruct (ViewComponent temp "cell") as [temp_c|]; [|discriminate].
  destruct (extrema_loop_spec temp_c 0%Z Extrema0 not_nan_1e6 not_nan_m1e6)
    as (Nc1 & Nc2 & Lc & Uc).
  destruct (ViewComponent temp "face") as [temp_f|]; intros [= <- <-]; simpl.
  - destruct (extrema_loop_spec temp_f 0%Z Extrema0 not_nan_1e6 not_nan_m1e6)
      as (Nf1 & Nf2 & Lf & Uf).
    split; [now apply fmin_not_nan|]. split; [now apply fmax_not_nan|].
    split; intros t Ht; rewrite existsb_app.
    + rewrite fmin_ltb, Lc, Lf by trivial. simpl. now rewrite Ht.
    + rewrite fmax_gtb, Uc, Uf by trivial. simpl. now rewrite Ht.
  - repeat split; trivial; intros t Ht; rewrite app_nil_r.
    + rewrite Lc. simpl. now rewrite Ht.
    + rewrite Uc. simpl. now rewrite Ht.
Qed.

Lemma MinAll_ltb others : forall mine t,
  not_nan mine ->
  (MinAll mine others <? t) = (mine <? t) || existsb (fun o => o <? t) others.
Proof.
  unfold MinAll. induction others as [|o os IH]; intros mine t Hm; simpl.
  - now rewrite orb_false_r.
  - rewrite IH by now apply fmin_not_nan.
    rewrite fmin_ltb by trivial. now rewrite orb_assoc.
Qed.

Lemma MaxAll_gtb others : forall mine t,
  not_nan mine ->
  (t <? MaxAll mine others) = (t <? mine) || existsb (fun o => t <? o) others.
Proof.
  unfold MaxAll. induction others as [|o os IH]; intros mine t Hm; simpl.
  - now rewrite orb_false_r.
  - rewrite IH by now apply fmax_not_nan.
    rewrite fmax_gtb by trivial. now rewrite orb_assoc.
Qed.

Lemma peers_extrema_spec peers : forall others,
  mapM local_extrema peers = Some others ->
  (forall t, (1e6 <? t) = false ->
     existsb (fun o => o <? t) (map fst others) =
     existsb (fun x => x <? t) (concat (map owned_values peers))) /\
  (forall t, (t <? -1e6) = false ->
     existsb (fun o => t <? o) (map snd others) =
     existsb (fun x => t <? x) (concat (map owned_values peers))).
Proof.
  induction peers as [|p ps IH]; intros others H.
  - injection H as <-. now split.
  - rewrite mapM_Some in H. destruct others as [|[lo hi] os]; inversion H; subst.
    match goal with Hx : local_extrema p = Some _ |- _ =>
      destruct (local_extrema_spec _ _ _ Hx) as (_ & _ & L & U) end.
    match goal with Hx : Forall2 _ ps os |- _ =>
      apply mapM_Some in Hx; destruct (IH _ Hx) as [IL IU] end.
    split; intros t Ht; simpl; rewrite existsb_app.
    + now rewrite L, IL.
    + now rewrite U, IU.
Qed.

Lemma has_cell_local_extrema temp :
  HasComponent temp "cell" = true -> is_Some (local_extrema temp).
Proof.
  unfold HasComponent, local_extrema.
  destruct (ViewComponent temp "cell"); [|discriminate].
  destruct (ViewComponent temp "face"); eauto.
Qed.

Lemma has_cell_peers peers :
  Forall (fun r => HasComponent r "cell" = true) peers ->
  is_Some (mapM local_extrema peers).
Proof.
  intros H. apply mapM_is_Some. eapply Forall_impl; [exact H|].
  intros r. apply has_cell_local_extrema.
Qed.

Lemma IsAdmissible_exists up peers :
  Forall (fun r => HasComponent r "cell" = true) (up :: peers) ->
  IsAdmissible up peers = Some (negb (out_of_bounds (global_values up peers))).
Proof.
  intros H. inversion H as [|? ? Hup Hpeers]; subst.
  destruct (has_cell_local_extrema _ Hup) as [[lo hi] Elo].
  destruct (has_cell_peers _ Hpeers) as [others Eo].
  unfold IsAdmissible. rewrite Elo, Eo.
  destruct (local_extrema_spec _ _ _ Elo) as (N1 & N2 & L & U).
  destruct (peers_extrema_spec _ _ Eo) as [PL PU].
  rewrite MinAll_ltb, MaxAll_gtb by trivial.
  rewrite L, U, PL, PU by reflexivity.
  unfold out_of_bounds, global_values. simpl. rewrite !existsb_app.
  now destruct (_ || _ || _).
Qed.

Lemma below_iff_min vals m t :
  is_global_min m vals -> existsb (fun x => x <? t) vals = (m <? t).
Proof.
  intros (Hin & Hnan & Hmin).
  destruct (m <? t) eqn:E.
  - apply existsb_exists. exists m. split; [now apply list_elem_of_In|assumption].
  - apply not_true_is_false. intros H. apply existsb_exists in H.
    destruct H as (x & Hx & Hxt). apply list_elem_of_In in Hx.
    now rewrite (ltb_below x m t Hnan (Hmin x Hx) Hxt) in E.
Qed.

Lemma above_iff_max vals m t :
  is_global_max m vals -> existsb (fun x => t <? x) vals = (t <? m).
Proof.
  intros (Hin & Hnan & Hmax).
  destruct (t <? m) eqn:E.
  - apply existsb_exists. exists m. split; [now apply list_elem_of_In|assumption].
  - apply not_true_is_false. intros H. apply existsb_exists in H.
    destruct H as (x & Hx & Hxt). apply list_elem_of_In in Hx.
    now rewrite (ltb_above x m t Hnan (Hmax x Hx) Hxt) in E.
Qed.

(** C1: [IsAdmissible] returns true iff the globally reduced extrema lie
    within the bounds: with [gmin] the least and [gmax] the greatest
    number among the owned cell and face values of all ranks, the call
    returns false iff [gmin < 200.0] or [gmax > 330.0].  The extrema are
    those of the whole communicator, not of the calling rank. *)
Theorem IsAdmissible_global_extrema up peers gmin gmax :
  Forall (fun r => HasComponent r "cell" = true) (up :: peers) ->
  is_global_min gmin (global_values up peers) ->
  is_global_max gmax (global_values up peers) ->
  IsAdmissible up peers = Some (negb ((gmin <? 200.0) || (330.0 <? gmax))).
Proof.
  intros Hcell Hmin Hmax. rewrite (IsAdmissible_exists _ _ Hcell).
  unfold out_of_bounds.
  now rewrite (below_iff_min _ _ _ Hmin), (above_iff_max _ _ _ Hmax).
Qed.

Lemma decide_global_min m vals :
  m ∈ vals -> (m =? m) = true -> forallb (fun x => negb (x <? m)) vals = true ->
  is_global_min m vals.
Proof.
  intros Hin Hn Hall. split; [assumption|]. split; [now apply not_nan_literal|].
  intros x Hx. rewrite forallb_forall in Hall.
  apply list_elem_of_In in Hx. apply Hall in Hx. now apply negb_true_iff.
Qed.

Lemma decide_global_max m vals :
  m ∈ vals -> (m =? m) = true -> forallb (fun x => negb (m <? x)) vals = true ->
  is_global_max m vals.
Proof.
  intros Hin Hn Hall. split; [assumption|]. split; [now apply not_nan_literal|].
  intros x Hx. rewrite forallb_forall in Hall.
  apply list_elem_of_In in Hx. apply Hall in Hx. now apply negb_true_iff.
Qed.

Lemma IsAdmissible_global_extrema_witness :
  IsAdmissible rank0 [rank1] = Some (negb ((200.0 <? 200.0) || (330.0 <? 330.0))).
Proof.
  apply (IsAdmissible_global_extrema rank0 [rank1] 200.0 330.0).
  - repeat constructor.
  - apply decide_global_min; [|reflexivity|reflexivity].
    vm_compute. repeat constructor.
  - apply decide_global_max; [|reflexivity|reflexivity].
    vm_compute. repeat constructor.
Defined.

(** A least value of exactly 200 K is admissible. *)
Example IsAdmissible_at_lower_bound :
  IsAdmissible rank0 [rank1] = Some true.
Proof. reflexivity. Qed.

(** A value of 199 K on the peer rejects the state although the calling
    rank's own extrema are within the bounds. *)
Example IsAdmissible_one_below_on_peer :
  local_extrema rank0 = Some (200.0, 300.0) /\
  IsAdmissible rank0 [rank1_cold] = Some false.
Proof. split; reflexivity. Qed.

(** A NaN compares false with everything: the loops skip it. *)
Example IsAdmissible_skips_nan :
  IsAdmissible [("cell"%string, [nan; nan])] [] = Some true.
Proof. reflexivity. Qed.

(** *** Properties of [ModifyPredictor] *)

Lemma freeze_value_fixed x0 x m :
  let '(y, m') := freeze_value x0 x m in
  m' = snapped x0 x || m /\
  forall m2, freeze_value x0 y m2 = (y, snapped x0 x || m2).
Proof.
  unfold freeze_value, snapped.
  destruct (273.15 <? x0) eqn:A, (x <? 273.15) eqn:B,
    (x0 <? 273.15) eqn:C, (273.15 <? x) eqn:D; simpl;
    (split; [reflexivity|intros m2]);
    rewrite ?A, ?B, ?C, ?D; reflexivity.
Qed.

Lemma freeze_loop_fixed u0 : forall u m ys m',
  freeze_loop u0 u m = Some (ys, m') ->
  exists s, m' = s || m /\ forall m2, freeze_loop u0 ys m2 = Some (ys, s || m2).
Proof.
  induction u0 as [|x0 u0' IH]; intros u m ys m' H.
  - destruct u; injection H as <- <-; exists false; split; try reflexivity;
      intros m2; reflexivity.
  - destruct u as [|x u']; [discriminate|]. simpl in H.
    pose proof (freeze_value_fixed x0 x m) as Hv.
    destruct (freeze_value x0 x m) as [y m1]. destruct Hv as [-> Hy].
    destruct (freeze_loop u0' u' _) as [[ys' m1']|] eqn:E; [|discriminate].
    injection H as <- <-.
    destruct (IH _ _ _ _ E) as (s & -> & Hs).
    exists (s || snapped x0 x). split; [now rewrite orb_assoc|].
    intros m2. simpl. rewrite Hy, Hs. now rewrite orb_assoc.
Qed.

Lemma freeze_component_fixed name u0 u m u1 m1 :
  freeze_component name u0 u m = Some (u1, m1) ->
  exists s, m1 = s || m /\
    ViewComponent u1 name <> None /\
    (forall n, n <> name -> ViewComponent u1 n = ViewComponent u n) /\
    forall v m2, ViewComponent v name = ViewComponent u1 name ->
      freeze_component name u0 v m2 = Some (v, s || m2).
Proof.
  unfold freeze_component.
  destruct (ViewComponent u0 name) as [u0_c|]; [|discriminate].
  destruct (ViewComponent u name) as [u_c|] eqn:Eu; [|discriminate].
  destruct (freeze_loop u0_c u_c m) as [[u_c' m']|] eqn:E; [|discriminate].
  intros [= <- <-]. destruct (freeze_loop_fixed _ _ _ _ _ E) as (s & -> & Hs).
  exists s. split; [reflexivity|].
  rewrite ViewComponent_SetComponent_eq by eauto.
  split; [discriminate|]. split.
  - intros n Hn. now apply ViewComponent_SetComponent_ne.
  - intros v m2 Hv. rewrite Hv, Hs. now rewrite SetComponent_same.
Qed.

Lemma freeze_stage_fixed pk u0 u u1 m :
  freeze_stage pk u0 u = Some (u1, m) ->
  (forall n, n <> "cell"%string -> n <> "boundary_face"%string ->
     ViewComponent u1 n = ViewComponent u n) /\
  forall v,
    ViewComponent v "cell" = ViewComponent u1 "cell" ->
    ViewComponent v "boundary_face" = ViewComponent u1 "boundary_face" ->
    freeze_stage pk u0 v = Some (v, m).
Proof.
  unfold freeze_stage. destruct (modify_predictor_for_freezing_ pk).
  2:{ intros [= <- <-]. split; [reflexivity|]. reflexivity. }
  destruct (freeze_component "cell" u0 u false) as [[uc mc]|] eqn:Ec;
    [|discriminate].
  destruct (freeze_component_fixed _ _ _ _ _ _ Ec) as (sc & -> & _ & Oc & Fc).
  destruct (HasComponent u0 "boundary_face").
  - intros Eb.
    destruct (freeze_component_fixed _ _ _ _ _ _ Eb) as (sb & -> & _ & Ob & Fb).
    split.
    + intros n H1 H2. rewrite Ob by trivial. now apply Oc.
    + intros v Hc Hbf. rewrite (Fc v false).
      * now apply Fb.
      * rewrite Hc. now apply Ob.
  - intros [= <- <-]. split.
    + intros n H1 _. now apply Oc.
    + intros v Hc _. now rewrite (Fc v false Hc).
Qed.

Lemma CalculateConsistentFaces_fixed pk u u2 :
  CalculateConsistentFaces pk u = Some u2 ->
  ViewComponent u2 "cell" = ViewComponent u "cell" /\
  ViewComponent u2 "boundary_face" = ViewComponent u "boundary_face" /\
  CalculateConsistentFaces pk u2 = Some u2.
Proof.
  unfold CalculateConsistentFaces.
  destruct (ViewComponent u "cell") as [owned_c|] eqn:Ec; [|discriminate].
  destruct (ViewComponent u "face") as [u_f|] eqn:Ef; [|discriminate].
  destruct (mapM _ (seq 0 (length u_f))) as [averaged|] eqn:Ea; [|discriminate].
  intros [= <-].
  rewrite !ViewComponent_SetComponent_ne by discriminate.
  split; [assumption|]. split; [reflexivity|].
  rewrite Ec. rewrite ViewComponent_SetComponent_eq.
  2:{ rewrite ViewComponent_SetComponent_eq by eauto. eauto. }
  rewrite length_map, length_seq, Ea.
  now rewrite !SetComponent_twice.
Qed.

(** The two blocks, run again on their own output, leave it as it is
    and give the same flag. *)
Lemma predictor_modification_twice pk h u0 u modified u' :
  predictor_modification pk h u0 u = Some (modified, u') ->
  predictor_modification pk h u0 u' = Some (modified, u').
Proof.
  unfold predictor_modification.
  destruct (freeze_stage pk u0 u) as [[u1 m]|] eqn:Ef; [|discriminate].
  destruct (freeze_stage_fixed _ _ _ _ _ Ef) as [_ Fix].
  destruct (modify_predictor_with_consistent_faces_ pk).
  - destruct (CalculateConsistentFaces pk u1) as [u2|] eqn:Ec; [|discriminate].
    intros [= <- <-].
    destruct (CalculateConsistentFaces_fixed _ _ _ Ec) as (Hc & Hb & Hfix).
    rewrite (Fix u2 Hc Hb). now rewrite Hfix.
  - intros [= <- <-]. now rewrite (Fix u1).
Qed.

Lemma freeze_loop_total u0 : forall u m,
  (length u0 <= length u)%nat ->
  exists ys m', freeze_loop u0 u m = Some (ys, m') /\ length ys = length u.
Proof.
  induction u0 as [|x0 u0' IH]; intros u m Hlen.
  - destruct u; simpl; eauto.
  - destruct u as [|x u']; simpl in *; [lia|].
    destruct (freeze_value x0 x m) as [y m1].
    destruct (IH u' m1) as (ys & m' & -> & Hl); [lia|].
    exists (y :: ys), m'. simpl. now rewrite Hl.
Qed.

Lemma freeze_component_total name u0 u m :
  covers u0 u name ->
  exists u1 m1, freeze_component name u0 u m = Some (u1, m1) /\
    (forall n, n <> name -> ViewComponent u1 n = ViewComponent u n) /\
    exists b b1, ViewComponent u name = Some b /\
      ViewComponent u1 name = Some b1 /\ length b1 = length b.
Proof.
  intros (a & b & Ha & Hb & Hlen). unfold freeze_component. rewrite Ha, Hb.
  destruct (freeze_loop_total a b m Hlen) as (ys & m' & -> & Hl).
  exists (SetComponent u name ys), m'. split; [reflexivity|]. split.
  - intros n Hn. now apply ViewComponent_SetComponent_ne.
  - exists b, ys. rewrite ViewComponent_SetComponent_eq by eauto. easy.
Qed.

Lemma face_average_total pk u_c f :
  (forall c, c ∈ face_get_cells pk f -> (c < length u_c)%nat) ->
  is_Some (face_average pk u_c f).
Proof.
  intros H. unfold face_average.
  assert (is_Some (mapM (fun c => u_c !! c) (face_get_cells pk f))) as [? ->];
    [|eauto].
  apply mapM_is_Some. apply Forall_forall. intros c Hc.
  apply lookup_lt_is_Some. now apply H.
Qed.

Lemma CalculateConsistentFaces_total pk u :
  faces_in_range pk u -> is_Some (CalculateConsistentFaces pk u).
Proof.
  intros (u_c & u_f & Hc & Hf & Hr). unfold CalculateConsistentFaces.
  rewrite Hc, Hf.
  assert (is_Some (mapM (face_average pk (u_c ++ scattered_cells pk))
                     (seq 0 (length u_f)))) as [avg ->]; [|eauto].
  apply mapM_is_Some. apply Forall_forall. intros f Hin.
  apply elem_of_seq in Hin. apply face_average_total. intros c Hcin.
  rewrite length_app. apply (Hr f); [lia|assumption].
Qed.

(** On well-shaped vectors the call returns. *)
Lemma predictor_modification_returns pk h u0 u :
  well_shaped pk u0 u -> is_Some (predictor_modification pk h u0 u).
Proof.
  intros [Hfreeze Hfaces]. unfold predictor_modification.
  assert (exists u1 m, freeze_stage pk u0 u = Some (u1, m) /\
            (faces_in_range pk u -> faces_in_range pk u1)) as (u1 & m & -> & Hkeep).
  { unfold freeze_stage. destruct (modify_predictor_for_freezing_ pk); [|eauto].
    destruct (Hfreeze eq_refl) as [Hc Hbf].
    destruct (freeze_component_total _ _ _ false Hc)
      as (uc & mc & -> & Oc & bc & bc1 & Ec & Ec1 & Lc).
    assert (Hrange : faces_in_range pk u -> faces_in_range pk uc).
    { intros (u_c & u_f & H1 & H2 & H3). exists bc1, u_f.
      rewrite (Oc "face"%string) by discriminate. repeat split; trivial.
      intros f c ? ?. rewrite Lc. rewrite Ec in H1. injection H1 as ->. eauto. }
    destruct (HasComponent u0 "boundary_face"); [|eauto].
    destruct (Hbf eq_refl) as (a & b & Ha & Hb & Hlen).
    destruct (freeze_component_total "boundary_face" u0 uc mc)
      as (ub & mb & -> & Ob & _).
    { exists a, b. rewrite (Oc "boundary_face"%string) by discriminate. easy. }
    exists ub, mb. split; [reflexivity|]. intros Hr.
    destruct (Hrange Hr) as (u_c & u_f & H1 & H2 & H3). exists u_c, u_f.
    now rewrite (Ob "cell"%string), (Ob "face"%string) by discriminate. }
  destruct (modify_predictor_with_consistent_faces_ pk); [|eauto].
  destruct (CalculateConsistentFaces_total pk u1) as [u2 ->]; eauto.
Qed.

(** *** Properties of [ModifyCorrection] *)

Lemma clip_loop_spec T du_c : forall n du_c' n',
  clip_loop T du_c n = (du_c', n') ->
  n' = (n + length (List.filter (exceeds T) du_c))%nat /\
  (n' = n -> du_c' = du_c).
Proof.
  induction du_c as [|x rest IH]; intros n du_c' n' H; simpl in H.
  - injection H as <- <-. split; [simpl; lia|reflexivity].
  - unfold clip_value in H. simpl. unfold exceeds at 1.
    destruct (T <? abs x) eqn:E;
      destruct (clip_loop T rest _) as [ys k] eqn:El;
      injection H as <- <-; destruct (IH _ _ _ El) as [-> Hsame].
    + simpl. split; lia.
    + split; [reflexivity|].
      intros Hn. now rewrite Hsame.
Qed.

Lemma clip_components_spec T du : forall n du' n',
  clip_components T du n = (du', n') ->
  n' = (n + n_exceeding T du)%nat /\ (n' = n -> du' = du).
Proof.
  unfold n_exceeding, entries.
  induction du as [|[name du_c] rest IH]; intros n du' n' H; simpl in H.
  - injection H as <- <-. split; [simpl; lia|reflexivity].
  - destruct (clip_loop T du_c n) as [du_c' k] eqn:El.
    destruct (clip_components T rest k) as [rest' k'] eqn:Er.
    injection H as <- <-.
    destruct (clip_loop_spec _ _ _ _ _ El) as [-> Hl].
    destruct (IH _ _ _ Er) as [-> Hr].
    simpl. rewrite List.filter_app, length_app. split; [lia|].
    intros Hn. rewrite Hl by lia. now rewrite Hr by lia.
Qed.

Lemma SumAll_spec others : forall mine, SumAll mine others = (mine + sum_list others)%nat.
Proof.
  unfold SumAll. induction others as [|o os IH]; intros mine; simpl; [lia|].
  rewrite IH. lia.
Qed.

(** C2, as amended: the call returns [CORRECTION_MODIFIED] exactly when
    the limit is on and an entry is clipped on this rank or another one;
    the reconstruction of the boundary-face corrections is not reported:
    with [CORRECTION_NOT_MODIFIED], [du] is the input with its
    boundary-face entries rebuilt. *)
Theorem ModifyCorrection_reports_clipping_only pk others h res u du r du' :
  ModifyCorrection pk others h res u du = Some (r, du') ->
  exists du1,
    reconstruct_boundary_faces pk u du = Some du1 /\
    (r = CORRECTION_MODIFIED <->
       (0 <? T_limit_ pk) = true /\
       (0 < n_exceeding (T_limit_ pk) du1 + sum_list others)%nat) /\
    (r = CORRECTION_NOT_MODIFIED -> du' = du1).
Proof.
  unfold ModifyCorrection.
  destruct (reconstruct_boundary_faces pk u du) as [du1|]; [|discriminate].
  intros H. exists du1. split; [reflexivity|].
  destruct (0 <? T_limit_ pk).
  - destruct (clip_components (T_limit_ pk) du1 0) as [du2 my_limited] eqn:Ec.
    destruct (clip_components_spec _ _ _ _ _ Ec) as [-> Hsame].
    rewrite SumAll_spec in H. simpl in *.
    destruct (Nat.ltb_spec 0 (n_exceeding (T_limit_ pk) du1 + sum_list others));
      injection H as <- <-.
    + split; [easy|discriminate].
    + split; [split; [discriminate|intros [_ ?]; lia]|].
      intros _. apply Hsame. lia.
  - simpl in H. injection H as <- <-.
    split; [split; [discriminate|intros [? _]; discriminate]|reflexivity].
Qed.

(** C2 as stated fails: the reconstruction alters [du] and the call
    returns [CORRECTION_NOT_MODIFIED]. *)
Lemma ModifyCorrection_silent_reconstruction :
  ModifyCorrection (pk_line false false (-1.0)) [] 1.0 [] T_bc du_zero
    = Some (CORRECTION_NOT_MODIFIED, du_rebuilt) /\
  du_rebuilt <> du_zero.
Proof.
  split; [reflexivity|].
  intros E.
  apply (f_equal (fun du => match ViewComponent du "boundary_face" with
                            | Some (x :: _) => x <? 1.0
                            | _ => false
                            end)) in E.
  vm_compute in E. discriminate.
Qed.

Lemma ModifyCorrection_reports_clipping_only_witness :
  exists du1,
    reconstruct_boundary_faces (pk_line false false 2.0)
      [("cell"%string, [270.0; 271.0; 272.0])] du_large = Some du1 /\
    (CORRECTION_MODIFIED = CORRECTION_MODIFIED <->
       (0 <? T_limit_ (pk_line false false 2.0)) = true /\
       (0 < n_exceeding (T_limit_ (pk_line false false 2.0)) du1 + sum_list [])%nat) /\
    (CORRECTION_MODIFIED = CORRECTION_NOT_MODIFIED ->
       [("cell"%string, [2.0; -2.0; 1.0])] = du1).
Proof.
  apply (ModifyCorrection_reports_clipping_only (pk_line false false 2.0) []
           1.0 [] [("cell"%string, [270.0; 271.0; 272.0])] du_large).
  reflexivity.
Defined.

(** The count is summed over the ranks: a clip on a peer is reported by
    a rank that changed nothing. *)
Example ModifyCorrection_peer_limited :
  ModifyCorrection (pk_line false false 2.0) [0; 3]%nat 1.0 []
    [("cell"%string, [270.0])] [("cell"%string, [1.0])]
  = Some (CORRECTION_MODIFIED, [("cell"%string, [1.0])]).
Proof. reflexivity. Qed.

End EnergyBase.

(** ** Exceptions *)

Module Exc.

(** What a call can end in besides returning: an [Errors::Message] thrown
    through [Exceptions::amanzi_throw], a failed [AMANZI_ASSERT], or an
    access the callee (State, Teuchos, Epetra) refuses: a missing field or
    component, an index past the end of a view, a null [RCP]. *)
Inductive Exn :=
  | Message (msg : string)
  | AssertionFailed
  | InvalidAccess.

Inductive Outcome (A : Type) :=
  | Return (a : A)
  | Raise (e : Exn).
Arguments Return {A} a.
Arguments Raise {A} e.

#[global] Instance Outcome_ret : MRet Outcome := fun A a => Return a.
#[global] Instance Outcome_bind : MBind Outcome :=
  fun A B f m => match m with Return a => f a | Raise e => Raise e end.
#[global] Instance Outcome_fmap : FMap Outcome :=
  fun A B f m => match m with Return a => Return (f a) | Raise e => Raise e end.

(** A refused access as an exception. *)
Definition access {A} (o : option A) : Outcome A :=
  match o with Some a => Return a | None => Raise InvalidAccess end.

End Exc.

(** ** Secondary-variable field evaluators *)

Module Evaluator.
Import Vec Exc.

Abbreviation Key := string.

(** The fields of the State that evaluators read, by key. *)
Abbreviation State := (gmap string (list (string * list float))).

(** The loop [for (comp = result->begin(); comp != result->end(); ++comp)]:
    [body comp ncomp] gives the new entries of component [comp], which
    has [ncomp = result->size(comp, false)] owned entries. *)
Fixpoint components_loop (body : string -> nat -> option (list float))
  (result : CompositeVector) : option CompositeVector :=
  match result with
  | [] => Some []
  | (comp, result_v) :: rest =>
      new_v ← body comp (length result_v);
      rest' ← components_loop body rest;
      Some ((comp, new_v) :: rest')
  end.

(** Entry [i] of component [comp] of the field [key]. *)
Definition value_at (S : State) (key : Key) (comp : string) (i : nat)
  : option float :=
  v ← S !! key; v_c ← ViewComponent v comp; v_c !! i.


(** The vector has component [comp] with at least [n] owned entries. *)
Definition has_view (v : CompositeVector) (comp : string) (n : nat) : Prop :=
  exists v_c, ViewComponent v comp = Some v_c /\ (n <= length v_c)%nat.

End Evaluator.

Module RichardsEnergy.
Import Vec Exc Evaluator.

Definition F8 : Type :=
  float -> float -> float -> float -> float -> float -> float -> float -> float.

(** [RichardsEnergyModel]: the energy and its partial derivatives as
    functions of (phi, phi0, sl, nl, ul, rho_r, ur, cv). *)
Record RichardsEnergyModel := {
  Energy : F8;
  DEnergyDPorosity : F8;
  DEnergyDBasePorosity : F8;
  DEnergyDSaturationLiquid : F8;
  DEnergyDMolarDensityLiquid : F8;
  DEnergyDInternalEnergyLiquid : F8;
  DEnergyDDensityRock : F8;
  DEnergyDInternalEnergyRock : F8;
  DEnergyDCellVolume : F8
}.

Record RichardsEnergyEvaluator := {
  my_key_ : Key;
  phi_key_ : Key;
  phi0_key_ : Key;
  sl_key_ : Key;
  nl_key_ : Key;
  ul_key_ : Key;
  rho_r_key_ : Key;
  ur_key_ : Key;
  cv_key_ : Key;
  model_ : RichardsEnergyModel
}.

(** The key set [InitializeFromPlist_] builds. *)
Definition dependencies_ (ev : RichardsEnergyEvaluator) : gset Key :=
  {[ phi_key_ ev; phi0_key_ ev; sl_key_ ev; nl_key_ ev; ul_key_ ev;
     rho_r_key_ ev; ur_key_ ev; cv_key_ ev ]}.

(** The eight fields [S->GetPtr<CompositeVector>(key)] returns. *)
Record Fields := {
  phi : list (string * list float);
  phi0 : list (string * list float);
  sl : list (string * list float);
  nl : list (string * list float);
  ul : list (string * list float);
  rho_r : list (string * list float);
  ur : list (string * list float);
  cv : list (string * list float)
}.

Definition GetFields (ev : RichardsEnergyEvaluator) (S : State)
  : option Fields :=
  phi ← S !! phi_key_ ev;
  phi0 ← S !! phi0_key_ ev;
  sl ← S !! sl_key_ ev;
  nl ← S !! nl_key_ ev;
  ul ← S !! ul_key_ ev;
  rho_r ← S !! rho_r_key_ ev;
  ur ← S !! ur_key_ ev;
  cv ← S !! cv_key_ ev;
  Some {| phi := phi; phi0 := phi0; sl := sl; nl := nl; ul := ul;
          rho_r := rho_r; ur := ur; cv := cv |}.

(** The body of one component: the eight views, then
    [result_v[0][i] = f(phi_v[0][i], ..., cv_v[0][i])] for [i < ncomp]. *)
Definition component_body (f : F8) (d : Fields) (comp : string) (ncomp : nat)
  : option (list float) :=
  phi_v ← ViewComponent (phi d) comp;
  phi0_v ← ViewComponent (phi0 d) comp;
  sl_v ← ViewComponent (sl d) comp;
  nl_v ← ViewComponent (nl d) comp;
  ul_v ← ViewComponent (ul d) comp;
  rho_r_v ← ViewComponent (rho_r d) comp;
  ur_v ← ViewComponent (ur d) comp;
  cv_v ← ViewComponent (cv d) comp;
  mapM (fun i =>
          a1 ← phi_v !! i; a2 ← phi0_v !! i; a3 ← sl_v !! i; a4 ← nl_v !! i;
          a5 ← ul_v !! i; a6 ← rho_r_v !! i; a7 ← ur_v !! i; a8 ← cv_v !! i;
          Some (f a1 a2 a3 a4 a5 a6 a7 a8))
       (seq 0 ncomp).

(** [None] stands for the exception of a refused access. *)
Definition EvaluateField_ (ev : RichardsEnergyEvaluator) (S : State)
  (result : CompositeVector) : option CompositeVector :=
  d ← GetFields ev S;
  components_loop (component_body (Energy (model_ ev)) d) result.

Definition fields_of (d : Fields) : list (list (string * list float)) :=
  [phi d; phi0 d; sl d; nl d; ul d; rho_r d; ur d; cv d].

(** Every dependency is in the State, with every component of [result]
    at least as long as [result] has it. *)
Definition fields_shaped (ev : RichardsEnergyEvaluator) (S : State)
  (result : CompositeVector) : Prop :=
  exists d, GetFields ev S = Some d /\
    forall v comp result_v, v ∈ fields_of d -> (comp, result_v) ∈ result ->
      has_view v comp (length result_v).

(** [result'] is [result] with entry [i] of every component replaced by
    [f] of the entries [i] of the same component of the dependencies. *)
Definition computed_pointwise (f : F8) (ev : RichardsEnergyEvaluator)
  (S : State) (result result' : CompositeVector) : Prop :=
  length result' = length result /\
  forall k comp result_v i,
    result !! k = Some (comp, result_v) -> (i < length result_v)%nat ->
    exists new_v a1 a2 a3 a4 a5 a6 a7 a8,
      result' !! k = Some (comp, new_v) /\
      length new_v = length result_v /\
      value_at S (phi_key_ ev) comp i = Some a1 /\
      value_at S (phi0_key_ ev) comp i = Some a2 /\
      value_at S (sl_key_ ev) comp i = Some a3 /\
      value_at S (nl_key_ ev) comp i = Some a4 /\
      value_at S (ul_key_ ev) comp i = Some a5 /\
      value_at S (rho_r_key_ ev) comp i = Some a6 /\
      value_at S (ur_key_ ev) comp i = Some a7 /\
      value_at S (cv_key_ ev) comp i = Some a8 /\
      new_v !! i = Some (f a1 a2 a3 a4 a5 a6 a7 a8).

End RichardsEnergy.

Module LiquidIceEnergy.
Import Vec Exc Evaluator.

Definition F11 : Type :=
  float -> float -> float -> float -> float -> float -> float -> float ->
  float -> float -> float -> float.

(** [LiquidIceEnergyModel]: the energy and its partial derivatives as
    functions of (phi, phi0, sl, nl, ul, si, ni, ui, rho_r, ur, cv). *)
Record LiquidIceEnergyModel := {
  Energy : F11;
  DEnergyDPorosity : F11;
  DEnergyDBasePorosity : F11;
  DEnergyDSaturationLiquid : F11;
  DEnergyDMolarDensityLiquid : F11;
  DEnergyDInternalEnergyLiquid : F11;
  DEnergyDSaturationIce : F11;
  DEnergyDMolarDensityIce : F11;
  DEnergyDInternalEnergyIce : F11;
  DEnergyDDensityRock : F11;
  DEnergyDInternalEnergyRock : F11;
  DEnergyDCellVolume : F11
}.

Record LiquidIceEnergyEvaluator := {
  my_key_ : Key;
  phi_key_ : Key;
  phi0_key_ : Key;
  sl_key_ : Key;
  nl_key_ : Key;
  ul_key_ : Key;
  si_key_ : Key;
  ni_key_ : Key;
  ui_key_ : Key;
  rho_r_key_ : Key;
  ur_key_ : Key;
  cv_key_ : Key;
  model_ : LiquidIceEnergyModel
}.

(** The key set [InitializeFromPlist_] builds. *)
Definition dependencies_ (ev : LiquidIceEnergyEvaluator) : gset Key :=
  {[ phi_key_ ev; phi0_key_ ev; sl_key_ ev; nl_key_ ev; ul_key_ ev;
     si_key_ ev; ni_key_ ev; ui_key_ ev; rho_r_key_ ev; ur_key_ ev;
     cv_key_ ev ]}.

Record Fields := {
  phi : list (string * list float);
  phi0 : list (string * list float);
  sl : list (string * list float);
  nl : list (string * list float);
  ul : list (string * list float);
  si : list (string * list float);
  ni : list (string * list float);
  ui : list (string * list float);
  rho_r : list (string * list float);
  ur : list (string * list float);
  cv : list (string * list float)
}.

Definition GetFields (ev : LiquidIceEnergyEvaluator) (S : State)
  : option Fields :=
  phi ← S !! phi_key_ ev;
  phi0 ← S !! phi0_key_ ev;
  sl ← S !! sl_key_ ev;
  nl ← S !! nl_key_ ev;
  ul ← S !! ul_key_ ev;
  si ← S !! si_key_ ev;
  ni ← S !! ni_key_ ev;
  ui ← S !! ui_key_ ev;
  rho_r ← S !! rho_r_key_ ev;
  ur ← S !! ur_key_ ev;
  cv ← S !! cv_key_ ev;
  Some {| phi := phi; phi0 := phi0; sl := sl; nl := nl; ul := ul;
          si := si; ni := ni; ui := ui; rho_r := rho_r; ur := ur; cv := cv |}.

Definition component_body (f : F11) (d : Fields) (comp : string) (ncomp : nat)
  : option (list float) :=
  phi_v ← ViewComponent (phi d) comp;
  phi0_v ← ViewComponent (phi0 d) comp;
  sl_v ← ViewComponent (sl d) comp;
  nl_v ← ViewComponent (nl d) comp;
  ul_v ← ViewComponent (ul d) comp;
  si_v ← ViewComponent (si d) comp;
  ni_v ← ViewComponent (ni d) comp;
  ui_v ← ViewComponent (ui d) comp;
  rho_r_v ← ViewComponent (rho_r d) comp;
  ur_v ← ViewComponent (ur d) comp;
  cv_v ← ViewComponent (cv d) comp;
  mapM (fun i =>
          a1 ← phi_v !! i; a2 ← phi0_v !! i; a3 ← sl_v !! i; a4 ← nl_v !! i;
          a5 ← ul_v !! i; a6 ← si_v !! i; a7 ← ni_v !! i; a8 ← ui_v !! i;
          a9 ← rho_r_v !! i; a10 ← ur_v !! i; a11 ← cv_v !! i;
          Some (f a1 a2 a3 a4 a5 a6 a7 a8 a9 a10 a11))
       (seq 0 ncomp).

Definition EvaluateField_ (ev : LiquidIceEnergyEvaluator) (S : State)
  (result : CompositeVector) : option CompositeVector :=
  d ← GetFields ev S;
  components_loop (component_body (Energy (model_ ev)) d) result.

(** The cascade over [wrt_key]; its last branch is [AMANZI_ASSERT(0)]. *)
Definition EvaluateFieldPartialDerivative_ (ev : LiquidIceEnergyEvaluator)
  (S : State) (wrt_key : Key) (result : CompositeVector)
  : Outcome CompositeVector :=
  match GetFields ev S with
  | None => Raise InvalidAccess
  | Some d =>
      let m := model_ ev in
      let loop f := access (components_loop (component_body f d) result) in
      if String.eqb wrt_key (phi_key_ ev) then loop (DEnergyDPorosity m)
      else if String.eqb wrt_key (phi0_key_ ev) then loop (DEnergyDBasePorosity m)
      else if String.eqb wrt_key (sl_key_ ev) then loop (DEnergyDSaturationLiquid m)
      else if String.eqb wrt_key (nl_key_ ev) then loop (DEnergyDMolarDensityLiquid m)
      else if String.eqb wrt_key (ul_key_ ev) then loop (DEnergyDInternalEnergyLiquid m)
      else if String.eqb wrt_key (si_key_ ev) then loop (DEnergyDSaturationIce m)
      else if String.eqb wrt_key (ni_key_ ev) then loop (DEnergyDMolarDensityIce m)
      else if String.eqb wrt_key (ui_key_ ev) then loop (DEnergyDInternalEnergyIce m)
      else if String.eqb wrt_key (rho_r_key_ ev) then loop (DEnergyDDensityRock m)
      else if String.eqb wrt_key (ur_key_ ev) then loop (DEnergyDInternalEnergyRock m)
      else if String.eqb wrt_key (cv_key_ ev) then loop (DEnergyDCellVolume m)
      else Raise AssertionFailed
  end.

(** The eleven direct dependencies, the key and the model's partial
    derivative that belong to each. *)
Inductive Dependency :=
  | porosity | base_porosity | saturation_liquid | molar_density_liquid
  | internal_energy_liquid | saturation_ice | molar_density_ice
  | internal_energy_ice | density_rock | internal_energy_rock | cell_volume.

Definition key_of (ev : LiquidIceEnergyEvaluator) (d : Dependency) : Key :=
  match d with
  | porosity => phi_key_ ev
  | base_porosity => phi0_key_ ev
  | saturation_liquid => sl_key_ ev
  | molar_density_liquid => nl_key_ ev
  | internal_energy_liquid => ul_key_ ev
  | saturation_ice => si_key_ ev
  | molar_density_ice => ni_key_ ev
  | internal_energy_ice => ui_key_ ev
  | density_rock => rho_r_key_ ev
  | internal_energy_rock => ur_key_ ev
  | cell_volume => cv_key_ ev
  end.

Definition partial_of (m : LiquidIceEnergyModel) (d : Dependency) : F11 :=
  match d with
  | porosity => DEnergyDPorosity m
  | base_porosity => DEnergyDBasePorosity m
  | saturation_liquid => DEnergyDSaturationLiquid m
  | molar_density_liquid => DEnergyDMolarDensityLiquid m
  | internal_energy_liquid => DEnergyDInternalEnergyLiquid m
  | saturation_ice => DEnergyDSaturationIce m
  | molar_density_ice => DEnergyDMolarDensityIce m
  | internal_energy_ice => DEnergyDInternalEnergyIce m
  | density_rock => DEnergyDDensityRock m
  | internal_energy_rock => DEnergyDInternalEnergyRock m
  | cell_volume => DEnergyDCellVolume m
  end.

Definition fields_of (d : Fields) : list (list (string * list float)) :=
  [phi d; phi0 d; sl d; nl d; ul d; si d; ni d; ui d; rho_r d; ur d; cv d].

Definition fields_shaped (ev : LiquidIceEnergyEvaluator) (S : State)
  (result : CompositeVector) : Prop :=
  exists d, GetFields ev S = Some d /\
    forall v comp result_v, v ∈ fields_of d -> (comp, result_v) ∈ result ->
      has_view v comp (length result_v).

Definition computed_pointwise (f : F11) (ev : LiquidIceEnergyEvaluator)
  (S : State) (result result' : CompositeVector) : Prop :=
  length result' = length result /\
  forall k comp result_v i,
    result !! k = Some (comp, result_v) -> (i < length result_v)%nat ->
    exists new_v a1 a2 a3 a4 a5 a6 a7 a8 a9 a10 a11,
      result' !! k = Some (comp, new_v) /\
      length new_v = length result_v /\
      value_at S (phi_key_ ev) comp i = Some a1 /\
      value_at S (phi0_key_ ev) comp i = Some a2 /\
      value_at S (sl_key_ ev) comp i = Some a3 /\
      value_at S (nl_key_ ev) comp i = Some a4 /\
      value_at S (ul_key_ ev) comp i = Some a5 /\
      value_at S (si_key_ ev) comp i = Some a6 /\
      value_at S (ni_key_ ev) comp i = Some a7 /\
      value_at S (ui_key_ ev) comp i = Some a8 /\
      value_at S (rho_r_key_ ev) comp i = Some a9 /\
      value_at S (ur_key_ ev) comp i = Some a10 /\
      value_at S (cv_key_ ev) comp i = Some a11 /\
      new_v !! i = Some (f a1 a2 a3 a4 a5 a6 a7 a8 a9 a10 a11).

End LiquidIceEnergy.


(** ** Properties of the energy evaluators *)

Module EnergyEvaluators.
Import Vec Exc Evaluator.
Local Open Scope float_scope.

(** *** Sample data *)

(** A model and an evaluator of each kind, and a State with two cells. *)
Definition richards_model : RichardsEnergy.RichardsEnergyModel :=
  {| RichardsEnergy.Energy := fun phi phi0 sl nl ul rho_r ur cv =>
       cv * (phi * sl * nl * ul + (1 - phi0) * rho_r * ur);
     RichardsEnergy.DEnergyDPorosity := fun phi phi0 sl nl ul rho_r ur cv =>
       cv * sl * nl * ul;
     RichardsEnergy.DEnergyDBasePorosity := fun phi phi0 sl nl ul rho_r ur cv =>
       - (cv * rho_r * ur);
     RichardsEnergy.DEnergyDSaturationLiquid := fun phi phi0 sl nl ul rho_r ur cv =>
       cv * phi * nl * ul;
     RichardsEnergy.DEnergyDMolarDensityLiquid := fun phi phi0 sl nl ul rho_r ur cv =>
       cv * phi * sl * ul;
     RichardsEnergy.DEnergyDInternalEnergyLiquid := fun phi phi0 sl nl ul rho_r ur cv =>
       cv * phi * sl * nl;
     RichardsEnergy.DEnergyDDensityRock := fun phi phi0 sl nl ul rho_r ur cv =>
       cv * (1 - phi0) * ur;
     RichardsEnergy.DEnergyDInternalEnergyRock := fun phi phi0 sl nl ul rho_r ur cv =>
       cv * (1 - phi0) * rho_r;
     RichardsEnergy.DEnergyDCellVolume := fun phi phi0 sl nl ul rho_r ur cv =>
       phi * sl * nl * ul + (1 - phi0) * rho_r * ur |}.

Definition richards_ev : RichardsEnergy.RichardsEnergyEvaluator :=
  {| RichardsEnergy.my_key_ := "energy";
     RichardsEnergy.phi_key_ := "porosity";
     RichardsEnergy.phi0_key_ := "base_porosity";
     RichardsEnergy.sl_key_ := "saturation_liquid";
     RichardsEnergy.nl_key_ := "molar_density_liquid";
     RichardsEnergy.ul_key_ := "internal_energy_liquid";
     RichardsEnergy.rho_r_key_ := "density_rock";
     RichardsEnergy.ur_key_ := "internal_energy_rock";
     RichardsEnergy.cv_key_ := "cell_volume";
     RichardsEnergy.model_ := richards_model |}.

Definition cells (x y : float) : CompositeVector := [("cell"%string, [x; y])].

Definition S_energy : State :=
  <[ "porosity"%string := cells 0.5 0.25 ]>
  (<[ "base_porosity"%string := cells 0.5 0.25 ]>
  (<[ "saturation_liquid"%string := cells 1.0 0.5 ]>
  (<[ "molar_density_liquid"%string := cells 2.0 4.0 ]>
  (<[ "internal_energy_liquid"%string := cells 3.0 5.0 ]>
  (<[ "saturation_ice"%string := cells 0.0 0.5 ]>
  (<[ "molar_density_ice"%string := cells 2.0 2.0 ]>
  (<[ "internal_energy_ice"%string := cells 1.0 1.0 ]>
  (<[ "density_rock"%string := cells 8.0 8.0 ]>
  (<[ "internal_energy_rock"%string := cells 1.0 2.0 ]>
  (<[ "cell_volume"%string := cells 1.0 2.0 ]> ∅)))))))))).

Definition liquid_ice_model : LiquidIceEnergy.LiquidIceEnergyModel :=
  {| LiquidIceEnergy.Energy := fun phi phi0 sl nl ul si ni ui rho_r ur cv =>
       cv * (phi * (sl * nl * ul + si * ni * ui) + (1 - phi0) * rho_r * ur);
     LiquidIceEnergy.DEnergyDPorosity := fun phi phi0 sl nl ul si ni ui rho_r ur cv =>
       cv * (sl * nl * ul + si * ni * ui);
     LiquidIceEnergy.DEnergyDBasePorosity := fun phi phi0 sl nl ul si ni ui rho_r ur cv =>
       - (cv * rho_r * ur);
     LiquidIceEnergy.DEnergyDSaturationLiquid := fun phi phi0 sl nl ul si ni ui rho_r ur cv =>
       cv * phi * nl * ul;
     LiquidIceEnergy.DEnergyDMolarDensityLiquid := fun phi phi0 sl nl ul si ni ui rho_r ur cv =>
       cv * phi * sl * ul;
     LiquidIceEnergy.DEnergyDInternalEnergyLiquid := fun phi phi0 sl nl ul si ni ui rho_r ur cv =>
       cv * phi * sl * nl;
     LiquidIceEnergy.DEnergyDSaturationIce := fun phi phi0 sl nl ul si ni ui rho_r ur cv =>
       cv * phi * ni * ui;
     LiquidIceEnergy.DEnergyDMolarDensityIce := fun phi phi0 sl nl ul si ni ui rho_r ur cv =>
       cv * phi * si * ui;
     LiquidIceEnergy.DEnergyDInternalEnergyIce := fun phi phi0 sl nl ul si ni ui rho_r ur cv =>
       cv * phi * si * ni;
     LiquidIceEnergy.DEnergyDDensityRock := fun phi phi0 sl nl ul si ni ui rho_r ur cv =>
       cv * (1 - phi0) * ur;
     LiquidIceEnergy.DEnergyDInternalEnergyRock := fun phi phi0 sl nl ul si ni ui rho_r ur cv =>
       cv * (1 - phi0) * rho_r;
     LiquidIceEnergy.DEnergyDCellVolume := fun phi phi0 sl nl ul si ni ui rho_r ur cv =>
       phi * (sl * nl * ul + si * ni * ui) + (1 - phi0) * rho_r * ur |}.

Definition liquid_ice_ev : LiquidIceEnergy.LiquidIceEnergyEvaluator :=
  {| LiquidIceEnergy.my_key_ := "energy";
     LiquidIceEnergy.phi_key_ := "porosity";
     LiquidIceEnergy.phi0_key_ := "base_porosity";
     LiquidIceEnergy.sl_key_ := "saturation_liquid";
     LiquidIceEnergy.nl_key_ := "molar_density_liquid";
     LiquidIceEnergy.ul_key_ := "internal_energy_liquid";
     LiquidIceEnergy.si_key_ := "saturation_ice";
     LiquidIceEnergy.ni_key_ := "molar_density_ice";
     LiquidIceEnergy.ui_key_ := "internal_energy_ice";
     LiquidIceEnergy.rho_r_key_ := "density_rock";
     LiquidIceEnergy.ur_key_ := "internal_energy_rock";
     LiquidIceEnergy.cv_key_ := "cell_volume";
     LiquidIceEnergy.model_ := liquid_ice_model |}.

(** *** Properties *)

Lemma components_loop_lookup body result : forall result',
  components_loop body result = Some result' ->
  length result' = length result /\
  forall k comp result_v, result !! k = Some (comp, result_v) ->
    exists new_v, result' !! k = Some (comp, new_v) /\
      body comp (length result_v) = Some new_v.
Proof.
  induction result as [|[c v] rest IH]; intros result' H.
  - injection H as <-. split; [reflexivity|]. intros k ? ? Hk. discriminate.
  - simpl in H. destruct (body c (length v)) as [new_v|] eqn:Eb; [|discriminate].
    destruct (components_loop body rest) as [rest'|] eqn:Er; [|discriminate].
    simpl in H. injection H as <-. destruct (IH _ eq_refl) as [Hlen Hlk].
    split; [simpl; now rewrite Hlen|].
    intros k comp result_v Hk. destruct k as [|k]; simpl in *.
    + injection Hk as -> ->. eauto.
    + eauto.
Qed.

Lemma components_loop_total body result :
  (forall comp result_v, (comp, result_v) ∈ result ->
     is_Some (body comp (length result_v))) ->
  is_Some (components_loop body result).
Proof.
  induction result as [|[c v] rest IH]; intros H; simpl; [eauto|].
  destruct (H c v) as [new_v ->]; [left|]. simpl.
  destruct IH as [rest' ->]; [|simpl; eauto].
  intros comp result_v Hin. apply H. now right.
Qed.

Lemma mapM_seq_lookup (g : nat -> option float) n r :
  mapM g (seq 0 n) = Some r ->
  length r = n /\ forall i, (i < n)%nat -> exists x, g i = Some x /\ r !! i = Some x.
Proof.
  intros H. apply mapM_Some in H. split.
  - apply Forall2_length in H. now rewrite length_seq in H.
  - intros i Hi.
    destruct (Forall2_lookup_l _ _ _ i i H) as (x & Hx & Hg).
    + now apply lookup_seq.
    + eauto.
Qed.

Lemma mapM_seq_total (g : nat -> option float) n :
  (forall i, (i < n)%nat -> is_Some (g i)) -> is_Some (mapM g (seq 0 n)).
Proof.
  intros H. apply mapM_is_Some. apply Forall_forall. intros i Hi.
  apply elem_of_seq in Hi. apply H. lia.
Qed.

(** Peel the [x ← o; ...] off a successful computation in the option monad. *)
Ltac peel H :=
  lazymatch type of H with
  | (?o ≫= _) = Some _ =>
      let E := fresh "E" in
      destruct o eqn:E; simpl in H; [peel E; peel H|discriminate H]
  | _ => idtac
  end.

Ltac close_pointwise :=
  unfold value_at;
  repeat (match goal with
          | E : _ !! _ = Some _ |- _ => rewrite E; clear E
          | E : ViewComponent _ _ = Some _ |- _ => rewrite E; clear E
          end; simpl);
  repeat split; reflexivity || assumption.

Lemma Richards_loop_pointwise f ev S d result result' :
  RichardsEnergy.GetFields ev S = Some d ->
  components_loop (RichardsEnergy.component_body f d) result = Some result' ->
  RichardsEnergy.computed_pointwise f ev S result result'.
Proof.
  unfold RichardsEnergy.GetFields. intros Hd H. peel Hd.
  injection Hd as <-.
  destruct (components_loop_lookup _ _ _ H) as [Hlen Hlk].
  split; [assumption|]. intros k comp result_v i Hk Hi.
  destruct (Hlk _ _ _ Hk) as (new_v & Hnew & Hbody).
  unfold RichardsEnergy.component_body in Hbody. simpl in Hbody. peel Hbody.
  destruct (mapM_seq_lookup _ _ _ Hbody) as [Hl Hat].
  destruct (Hat i Hi) as (x & Hx & Hr). peel Hx. injection Hx as <-.
  exists new_v. do 8 eexists. close_pointwise.
Qed.

Lemma LiquidIce_loop_pointwise f ev S d result result' :
  LiquidIceEnergy.GetFields ev S = Some d ->
  components_loop (LiquidIceEnergy.component_body f d) result = Some result' ->
  LiquidIceEnergy.computed_pointwise f ev S result result'.
Proof.
  unfold LiquidIceEnergy.GetFields. intros Hd H. peel Hd.
  injection Hd as <-.
  destruct (components_loop_lookup _ _ _ H) as [Hlen Hlk].
  split; [assumption|]. intros k comp result_v i Hk Hi.
  destruct (Hlk _ _ _ Hk) as (new_v & Hnew & Hbody).
  unfold LiquidIceEnergy.component_body in Hbody. simpl in Hbody. peel Hbody.
  destruct (mapM_seq_lookup _ _ _ Hbody) as [Hl Hat].
  destruct (Hat i Hi) as (x & Hx & Hr). peel Hx. injection Hx as <-.
  exists new_v. do 11 eexists. close_pointwise.
Qed.

(** Use the shape of one dependency: its view and entry [i] of it. *)
Ltac use_view Hs v comp result_v Hin :=
  let v_c := fresh "v_c" in let E := fresh "E" in let L := fresh "L" in
  destruct (Hs v comp result_v) as (v_c & E & L);
  [unfold RichardsEnergy.fields_of, LiquidIceEnergy.fields_of; set_solver
  |exact Hin|rewrite E; simpl].

Ltac use_entries i :=
  repeat match goal with
  | L : (_ <= length ?w)%nat |- _ =>
      let x := fresh "x" in
      destruct (lookup_lt_is_Some_2 w i) as [x ->]; [lia|]; clear L; simpl
  end.

Lemma Richards_loop_total f d result :
  (forall v comp result_v, v ∈ RichardsEnergy.fields_of d ->
     (comp, result_v) ∈ result -> has_view v comp (length result_v)) ->
  is_Some (components_loop (RichardsEnergy.component_body f d) result).
Proof.
  intros Hs. apply components_loop_total. intros comp result_v Hin.
  unfold RichardsEnergy.component_body.
  use_view Hs (RichardsEnergy.phi d) comp result_v Hin.
  use_view Hs (RichardsEnergy.phi0 d) comp result_v Hin.
  use_view Hs (RichardsEnergy.sl d) comp result_v Hin.
  use_view Hs (RichardsEnergy.nl d) comp result_v Hin.
  use_view Hs (RichardsEnergy.ul d) comp result_v Hin.
  use_view Hs (RichardsEnergy.rho_r d) comp result_v Hin.
  use_view Hs (RichardsEnergy.ur d) comp result_v Hin.
  use_view Hs (RichardsEnergy.cv d) comp result_v Hin.
  apply mapM_seq_total. intros i Hi. use_entries i. eauto.
Qed.

Lemma LiquidIce_loop_total f d result :
  (forall v comp result_v, v ∈ LiquidIceEnergy.fields_of d ->
     (comp, result_v) ∈ result -> has_view v comp (length result_v)) ->
  is_Some (components_loop (LiquidIceEnergy.component_body f d) result).
Proof.
  intros Hs. apply components_loop_total. intros comp result_v Hin.
  unfold LiquidIceEnergy.component_body.
  use_view Hs (LiquidIceEnergy.phi d) comp result_v Hin.
  use_view Hs (LiquidIceEnergy.phi0 d) comp result_v Hin.
  use_view Hs (LiquidIceEnergy.sl d) comp result_v Hin.
  use_view Hs (LiquidIceEnergy.nl d) comp result_v Hin.
  use_view Hs (LiquidIceEnergy.ul d) comp result_v Hin.
  use_view Hs (LiquidIceEnergy.si d) comp result_v Hin.
  use_view Hs (LiquidIceEnergy.ni d) comp result_v Hin.
  use_view Hs (LiquidIceEnergy.ui d) comp result_v Hin.
  use_view Hs (LiquidIceEnergy.rho_r d) comp result_v Hin.
  use_view Hs (LiquidIceEnergy.ur d) comp result_v Hin.
  use_view Hs (LiquidIceEnergy.cv d) comp result_v Hin.
  apply mapM_seq_total. intros i Hi. use_entries i. eauto.
Qed.

(** C8: the evaluation of both energy evaluators is elementwise: on
    well-shaped fields [EvaluateField_] returns, and entry [i] of every
    component of the result is the model's [Energy] of the entries [i] of
    the same component of the dependencies, and of nothing else. *)
Theorem EvaluateField_elementwise :
  (forall ev S result,
     RichardsEnergy.fields_shaped ev S result ->
     exists result',
       RichardsEnergy.EvaluateField_ ev S result = Some result' /\
       RichardsEnergy.computed_pointwise
         (RichardsEnergy.Energy (RichardsEnergy.model_ ev)) ev S result result') /\
  (forall ev S result,
     LiquidIceEnergy.fields_shaped ev S result ->
     exists result',
       LiquidIceEnergy.EvaluateField_ ev S result = Some result' /\
       LiquidIceEnergy.computed_pointwise
         (LiquidIceEnergy.Energy (LiquidIceEnergy.model_ ev)) ev S result result').
Proof.
  split; intros ev S result (d & Hd & Hs).
  - destruct (Richards_loop_total (RichardsEnergy.Energy (RichardsEnergy.model_ ev))
                d result Hs) as [result' Hr].
    exists result'. unfold RichardsEnergy.EvaluateField_. rewrite Hd. simpl.
    split; [assumption|]. now apply (Richards_loop_pointwise _ _ _ d).
  - destruct (LiquidIce_loop_total (LiquidIceEnergy.Energy (LiquidIceEnergy.model_ ev))
                d result Hs) as [result' Hr].
    exists result'. unfold LiquidIceEnergy.EvaluateField_. rewrite Hd. simpl.
    split; [assumption|]. now apply (LiquidIce_loop_pointwise _ _ _ d).
Qed.

Ltac cascade_branch wrt key dep :=
  let E := fresh "E" in
  destruct (String.eqb_spec wrt key) as [E|E];
  [left; exists dep; split; [symmetry; exact E|reflexivity]|].

Lemma partial_derivative_cases ev S wrt_key result d :
  LiquidIceEnergy.GetFields ev S = Some d ->
  (exists dep,
     LiquidIceEnergy.key_of ev dep = wrt_key /\
     (LiquidIceEnergy.EvaluateFieldPartialDerivative_ ev S wrt_key result =
      access (components_loop
                (LiquidIceEnergy.component_body
                   (LiquidIceEnergy.partial_of (LiquidIceEnergy.model_ ev) dep) d)
                result))) \/
  ((wrt_key ∉ LiquidIceEnergy.dependencies_ ev) /\
   (LiquidIceEnergy.EvaluateFieldPartialDerivative_ ev S wrt_key result =
    Raise AssertionFailed)).
Proof.
  intros Hd. unfold LiquidIceEnergy.EvaluateFieldPartialDerivative_.
  rewrite Hd. cbv zeta.
  cascade_branch wrt_key (LiquidIceEnergy.phi_key_ ev) LiquidIceEnergy.porosity.
  cascade_branch wrt_key (LiquidIceEnergy.phi0_key_ ev) LiquidIceEnergy.base_porosity.
  cascade_branch wrt_key (LiquidIceEnergy.sl_key_ ev) LiquidIceEnergy.saturation_liquid.
  cascade_branch wrt_key (LiquidIceEnergy.nl_key_ ev) LiquidIceEnergy.molar_density_liquid.
  cascade_branch wrt_key (LiquidIceEnergy.ul_key_ ev) LiquidIceEnergy.internal_energy_liquid.
  cascade_branch wrt_key (LiquidIceEnergy.si_key_ ev) LiquidIceEnergy.saturation_ice.
  cascade_branch wrt_key (LiquidIceEnergy.ni_key_ ev) LiquidIceEnergy.molar_density_ice.
  cascade_branch wrt_key (LiquidIceEnergy.ui_key_ ev) LiquidIceEnergy.internal_energy_ice.
  cascade_branch wrt_key (LiquidIceEnergy.rho_r_key_ ev) LiquidIceEnergy.density_rock.
  cascade_branch wrt_key (LiquidIceEnergy.ur_key_ ev) LiquidIceEnergy.internal_energy_rock.
  cascade_branch wrt_key (LiquidIceEnergy.cv_key_ ev) LiquidIceEnergy.cell_volume.
  right. split; [|reflexivity].
  unfold LiquidIceEnergy.dependencies_. set_solver.
Qed.

Lemma key_of_dependency ev dep :
  LiquidIceEnergy.key_of ev dep ∈ LiquidIceEnergy.dependencies_ ev.
Proof. unfold LiquidIceEnergy.dependencies_. destruct dep; simpl; set_solver. Qed.

(** C9: for [wrt_key] among the declared dependencies the call returns
    the elementwise image of the model's partial derivative for a
    dependency with that key, and never reaches [AMANZI_ASSERT(0)]; for
    any other [wrt_key] it reaches the assertion. *)
Theorem partial_derivative_direct_dependencies ev S wrt_key result :
  LiquidIceEnergy.fields_shaped ev S result ->
  (wrt_key ∈ LiquidIceEnergy.dependencies_ ev ->
     exists dep result',
       LiquidIceEnergy.key_of ev dep = wrt_key /\
       LiquidIceEnergy.EvaluateFieldPartialDerivative_ ev S wrt_key result =
       Return result' /\
       LiquidIceEnergy.computed_pointwise
         (LiquidIceEnergy.partial_of (LiquidIceEnergy.model_ ev) dep)
         ev S result result') /\
  (wrt_key ∉ LiquidIceEnergy.dependencies_ ev ->
     LiquidIceEnergy.EvaluateFieldPartialDerivative_ ev S wrt_key result =
     Raise AssertionFailed).
Proof.
  intros (d & Hd & Hs).
  destruct (partial_derivative_cases ev S wrt_key result d Hd)
    as [(dep & Hkey & Hrun)|[Hnot Hrun]].
  - split.
    + intros _.
      destruct (LiquidIce_loop_total
                  (LiquidIceEnergy.partial_of (LiquidIceEnergy.model_ ev) dep)
                  d result Hs) as [result' Hr].
      exists dep, result'. rewrite Hrun, Hr. simpl.
      split; [assumption|]. split; [reflexivity|].
      exact (LiquidIce_loop_pointwise _ ev S d _ _ Hd Hr).
    + intros Hnot. exfalso. apply Hnot. rewrite <- Hkey. apply key_of_dependency.
  - split; [intros Hin; contradiction|intros _; exact Hrun].
Qed.
Lemma S_energy_shaped_richards :
  RichardsEnergy.fields_shaped richards_ev S_energy (cells 0.0 0.0).
Proof.
  eexists. split; [reflexivity|].
  intros v comp result_v Hv Hin.
  apply list_elem_of_In in Hin. destruct Hin as [[= <- <-]|[]].
  apply list_elem_of_In in Hv. simpl in Hv.
  repeat (destruct Hv as [<-|Hv]; [eexists; split; [reflexivity|simpl; lia]|]).
  destruct Hv.
Qed.

Lemma S_energy_shaped_liquid_ice :
  LiquidIceEnergy.fields_shaped liquid_ice_ev S_energy (cells 0.0 0.0).
Proof.
  eexists. split; [reflexivity|].
  intros v comp result_v Hv Hin.
  apply list_elem_of_In in Hin. destruct Hin as [[= <- <-]|[]].
  apply list_elem_of_In in Hv. simpl in Hv.
  repeat (destruct Hv as [<-|Hv]; [eexists; split; [reflexivity|simpl; lia]|]).
  destruct Hv.
Qed.

Lemma EvaluateField_elementwise_witness :
  exists result',
    RichardsEnergy.EvaluateField_ richards_ev S_energy (cells 0.0 0.0)
    = Some result' /\
    RichardsEnergy.computed_pointwise
      (RichardsEnergy.Energy (RichardsEnergy.model_ richards_ev))
      richards_ev S_energy (cells 0.0 0.0) result'.
Proof.
  apply (proj1 EvaluateField_elementwise richards_ev S_energy (cells 0.0 0.0)).
  exact S_energy_shaped_richards.
Defined.

Lemma partial_derivative_direct_dependencies_witness :
  ("saturation_ice"%string ∈ LiquidIceEnergy.dependencies_ liquid_ice_ev ->
     exists dep result',
       LiquidIceEnergy.key_of liquid_ice_ev dep = "saturation_ice"%string /\
       LiquidIceEnergy.EvaluateFieldPartialDerivative_ liquid_ice_ev S_energy
         "saturation_ice" (cells 0.0 0.0) = Return result' /\
       LiquidIceEnergy.computed_pointwise
         (LiquidIceEnergy.partial_of (LiquidIceEnergy.model_ liquid_ice_ev) dep)
         liquid_ice_ev S_energy (cells 0.0 0.0) result') /\
  ("saturation_ice"%string ∉ LiquidIceEnergy.dependencies_ liquid_ice_ev ->
     LiquidIceEnergy.EvaluateFieldPartialDerivative_ liquid_ice_ev S_energy
       "saturation_ice" (cells 0.0 0.0) = Raise AssertionFailed).
Proof.
  apply (partial_derivative_direct_dependencies liquid_ice_ev S_energy).
  exact S_energy_shaped_liquid_ice.
Defined.

Example partial_derivative_saturation_ice :
  LiquidIceEnergy.EvaluateFieldPartialDerivative_ liquid_ice_ev S_energy
    "saturation_ice" (cells 0.0 0.0)
  = Return (cells 1.0 1.0).
Proof. reflexivity. Qed.

Example partial_derivative_indirect :
  LiquidIceEnergy.EvaluateFieldPartialDerivative_ liquid_ice_ev S_energy
    "temperature" (cells 0.0 0.0)
  = Raise AssertionFailed.
Proof. reflexivity. Qed.

End EnergyEvaluators.

(** ** OverlandConductivitySubgridEvaluator *)

Module OverlandConductivitySubgrid.
Import Vec Exc Evaluator.
Local Open Scope float_scope.

(** [ManningConductivityModel], and [std::pow]. *)
Record ManningConductivityModel := {
  Conductivity : float -> float -> float -> float;
  DConductivityDDepth : float -> float -> float -> float;
  pow : float -> float -> float
}.

(** [std::set<Key>::insert]: the keys stay sorted and without repeats. *)
Fixpoint KeySet_insert (key : Key) (s : list Key) : list Key :=
  match s with
  | [] => [key]
  | k :: rest =>
      if String.eqb key k then s
      else if String.ltb key k then key :: s
      else k :: KeySet_insert key rest
  end.

(** The evaluator after its constructor: the keys read from the
    parameter list, its options "visualize" and "checkpoint" when given,
    and the model. *)
Record Evaluator := {
  my_key_ : Key;
  mobile_depth_key_ : Key;
  slope_key_ : Key;
  coef_key_ : Key;
  dens_key_ : Key;
  frac_cond_key_ : Key;
  drag_exp_key_ : Key;
  visualize : option bool;
  checkpoint : option bool;
  model_ : ManningConductivityModel
}.

(** The six [dependencies_.insert(...)] of the constructor. *)
Definition dependencies_ (ev : Evaluator) : list Key :=
  KeySet_insert (drag_exp_key_ ev)
    (KeySet_insert (frac_cond_key_ ev)
      (KeySet_insert (dens_key_ ev)
        (KeySet_insert (coef_key_ ev)
          (KeySet_insert (slope_key_ ev)
            (KeySet_insert (mobile_depth_key_ ev) []))))).

Inductive Entity_kind := CELL | FACE | BOUNDARY_FACE | NODE.

(** A [CompositeVectorSpace]: its mesh ([None] for [Teuchos::null]), its
    components with their entity kind and width, whether it is ghosted. *)
Record CompositeVectorSpace := {
  space_mesh : option string;
  space_components : list (string * Entity_kind * nat);
  space_ghosted : bool
}.

(** What [EnsureCompatibility] asks of the State and of the factories it
    hands out, for a State of type [St]:
    - [Require S key owner]: [S->Require<CompositeVector,
      CompositeVectorSpace>(key, Tags::NEXT, owner)];
    - [Mesh S key] and [HasComponent S key name]: the factory's mesh and
      components;
    - [set_io S key vis checkpoint]: the two [S->GetField(key, key)->
      set_io_...] calls;
    - [Update S key fac]: [fac_of_key->Update(fac)];
    - [AddComponent S key name kind width];
    - [RequireFieldEvaluator_EnsureCompatibility key S]:
      [S->RequireFieldEvaluator(key)->EnsureCompatibility(S)]. *)
Class StateOps (St : Type) := {
  Require : St -> Key -> option Key -> Outcome St;
  Mesh : St -> Key -> option string;
  HasComponent : St -> Key -> string -> bool;
  set_io : St -> Key -> bool -> bool -> Outcome St;
  Update : St -> Key -> CompositeVectorSpace -> Outcome St;
  AddComponent : St -> Key -> string -> Entity_kind -> nat -> Outcome St;
  RequireFieldEvaluator_EnsureCompatibility : Key -> St -> Outcome St
}.

(** The double quote character. *)
Definition dquote : string := String (Ascii.ascii_of_nat 34) EmptyString.

Definition self_dependency_message (key : Key) : string :=
  "Evaluator for key " ++ dquote ++ key ++ dquote ++ " depends upon itself.".

Section EnsureCompatibility.
Context {St : Type} `{StateOps St}.

(** The body of the first loop for one dependency other than [my_key_]. *)
Definition require_dependency (ev : Evaluator) (dep_fac : CompositeVectorSpace)
  (key : Key) (S : St) : Outcome St :=
  S1 ← Require S key None;
  S2 ← Update S1 key dep_fac;
  if String.eqb key (mobile_depth_key_ ev)
     && HasComponent S2 (my_key_ ev) "boundary_face"
  then AddComponent S2 key "boundary_face" BOUNDARY_FACE 1
  else Return S2.

(** [for (const auto& key : dependencies_)], the loop that checks. *)
Fixpoint require_loop (ev : Evaluator) (dep_fac : CompositeVectorSpace)
  (keys : list Key) (S : St) : Outcome St :=
  match keys with
  | [] => Return S
  | key :: rest =>
      if String.eqb key (my_key_ ev)
      then Raise (Message (self_dependency_message (my_key_ ev)))
      else S' ← require_dependency ev dep_fac key S;
           require_loop ev dep_fac rest S'
  end.

(** [for (const auto& key : dependencies_)], the loop that recurses. *)
Fixpoint recurse_loop (keys : list Key) (S : St) : Outcome St :=
  match keys with
  | [] => Return S
  | key :: rest =>
      S' ← RequireFieldEvaluator_EnsureCompatibility key S;
      recurse_loop rest S'
  end.

(** The part before the test of the mesh. *)
Definition require_my_field (ev : Evaluator) (S : St) : Outcome St :=
  if String.eqb (my_key_ ev) "" then Raise AssertionFailed
  else
    S1 ← Require S (my_key_ ev) (Some (my_key_ ev));
    set_io S1 (my_key_ ev) (default true (visualize ev))
      (default false (checkpoint ev)).

Definition EnsureCompatibility (ev : Evaluator) (S : St) : Outcome St :=
  S2 ← require_my_field ev S;
  match Mesh S2 (my_key_ ev) with
  | Some mesh =>
      let dep_fac :=
        {| space_mesh := Some mesh;
           space_components := [("cell"%string, CELL, 1%nat)];
           space_ghosted := true |} in
      S3 ← require_loop ev dep_fac (dependencies_ ev) S2;
      recurse_loop (dependencies_ ev) S3
  | None => Return S2
  end.

End EnsureCompatibility.

(** The operations of [ops] with [rec] as the [EnsureCompatibility] of
    the evaluators of the dependencies. *)
Definition with_recursion {St : Type} (ops : StateOps St)
  (rec : Key -> St -> Outcome St) : StateOps St :=
  {| Require := @Require St ops;
     Mesh := @Mesh St ops;
     HasComponent := @HasComponent St ops;
     set_io := @set_io St ops;
     Update := @Update St ops;
     AddComponent := @AddComponent St ops;
     RequireFieldEvaluator_EnsureCompatibility := rec |}.

(** The six fields the member functions get from the State. *)
Record Fields := {
  mobile_depth : list (string * list float);
  slope : list (string * list float);
  coef : list (string * list float);
  frac_cond : list (string * list float);
  drag : list (string * list float);
  dens : list (string * list float)
}.

Definition GetFields (ev : Evaluator) (S : State) : option Fields :=
  mobile_depth ← S !! mobile_depth_key_ ev;
  slope ← S !! slope_key_ ev;
  coef ← S !! coef_key_ ev;
  frac_cond ← S !! frac_cond_key_ ev;
  drag ← S !! drag_exp_key_ ev;
  dens ← S !! dens_key_ ev;
  Some {| mobile_depth := mobile_depth; slope := slope; coef := coef;
          frac_cond := frac_cond; drag := drag; dens := dens |}.

(** The views of the "cell" component and the loop over its entries;
    [f] gets (depth, slope, coef, dens, frac_cond, drag) of entry [i]. *)
Definition cell_loop
  (f : float -> float -> float -> float -> float -> float -> float)
  (d : Fields) (result : CompositeVector) : option CompositeVector :=
  mobile_depth_v ← ViewComponent (mobile_depth d) "cell";
  slope_v ← ViewComponent (slope d) "cell";
  coef_v ← ViewComponent (coef d) "cell";
  frac_cond_v ← ViewComponent (frac_cond d) "cell";
  drag_v ← ViewComponent (drag d) "cell";
  dens_v ← ViewComponent (dens d) "cell";
  result_v ← ViewComponent result "cell";
  new_v ← mapM (fun i =>
                  h ← mobile_depth_v !! i; s ← slope_v !! i; c ← coef_v !! i;
                  n ← dens_v !! i; fc ← frac_cond_v !! i; dr ← drag_v !! i;
                  Some (f h s c n fc dr))
               (seq 0 (length result_v));
  Some (SetComponent result "cell" new_v).

Definition EvaluateField_ (ev : Evaluator) (S : State)
  (result : CompositeVector) : option CompositeVector :=
  d ← GetFields ev S;
  cell_loop (fun h s c n fc dr =>
               Conductivity (model_ ev) h s c
               * (n * pow (model_ ev) fc (dr + 1))) d result.

(** [result->PutScalar(x)]. *)
Definition PutScalar (x : float) (result : CompositeVector) : CompositeVector :=
  map (fun c => (c.1, map (fun _ => x) c.2)) result.

Definition EvaluateFieldPartialDerivative_ (ev : Evaluator) (S : State)
  (wrt_key : Key) (result : CompositeVector) : option CompositeVector :=
  d ← GetFields ev S;
  if String.eqb wrt_key (mobile_depth_key_ ev) then
    cell_loop (fun h s c n fc dr =>
                 DConductivityDDepth (model_ ev) h s c
                 * (n * pow (model_ ev) fc (dr + 1))) d result
  else if String.eqb wrt_key (dens_key_ ev) then
    cell_loop (fun h s c n fc dr =>
                 Conductivity (model_ ev) h s c
                 * pow (model_ ev) fc (dr + 1)) d result
  else if String.eqb wrt_key (frac_cond_key_ ev) then
    cell_loop (fun h s c n fc dr =>
                 Conductivity (model_ ev) h s c
                 * (n * (dr + 1) * pow (model_ ev) fc dr)) d result
  else Some (PutScalar 0 result).

(** The same evaluator under another primary key. *)
Definition with_my_key (ev : Evaluator) (key : Key) : Evaluator :=
  {| my_key_ := key;
     mobile_depth_key_ := mobile_depth_key_ ev;
     slope_key_ := slope_key_ ev;
     coef_key_ := coef_key_ ev;
     dens_key_ := dens_key_ ev;
     frac_cond_key_ := frac_cond_key_ ev;
     drag_exp_key_ := drag_exp_key_ ev;
     visualize := visualize ev;
     checkpoint := checkpoint ev;
     model_ := model_ ev |}.

(** *** A reference State *)

(** The factories by key; every operation succeeds but [Update] with a
    different mesh. *)
Abbreviation RefState := (gmap string CompositeVectorSpace).

Definition empty_space : CompositeVectorSpace :=
  {| space_mesh := None; space_components := []; space_ghosted := false |}.

Definition ref_factory (S : RefState) (key : Key) : CompositeVectorSpace :=
  default empty_space (S !! key).

Definition ref_add (comps : list (string * Entity_kind * nat))
  (c : string * Entity_kind * nat) : list (string * Entity_kind * nat) :=
  if existsb (fun x => String.eqb x.1.1 c.1.1) comps then comps else comps ++ [c].

Definition ref_update (fac other : CompositeVectorSpace)
  : Outcome CompositeVectorSpace :=
  match space_mesh fac, space_mesh other with
  | Some m, Some m' =>
      if String.eqb m m'
      then Return {| space_mesh := Some m;
                     space_components :=
                       fold_left ref_add (space_components other) (space_components fac);
                     space_ghosted := space_ghosted fac || space_ghosted other |}
      else Raise (Message "inconsistent meshes")
  | _, _ =>
      Return {| space_mesh := from_option Some (space_mesh other) (space_mesh fac);
                space_components :=
                  fold_left ref_add (space_components other) (space_components fac);
                space_ghosted := space_ghosted fac || space_ghosted other |}
  end.

#[global] Instance RefStateOps : StateOps RefState := {|
  Require := fun S key _ => Return (<[key := ref_factory S key]> S);
  Mesh := fun S key => space_mesh (ref_factory S key);
  HasComponent := fun S key name =>
    existsb (fun x => String.eqb x.1.1 name) (space_components (ref_factory S key));
  set_io := fun S _ _ _ => Return S;
  Update := fun S key fac =>
    fac' ← ref_update (ref_factory S key) fac; Return (<[key := fac']> S);
  AddComponent := fun S key name kind width =>
    let fac := ref_factory S key in
    Return (<[key := {| space_mesh := space_mesh fac;
                        space_components :=
                          ref_add (space_components fac) (name, kind, width);
                        space_ghosted := space_ghosted fac |}]> S);
  RequireFieldEvaluator_EnsureCompatibility := fun _ S => Return S
|}.


(** *** Sample data *)

Definition manning : ManningConductivityModel :=
  {| Conductivity := fun depth slope coef => depth * slope / coef;
     DConductivityDDepth := fun depth slope coef => slope / coef;
     pow := fun x y => x * y |}.

(** An evaluator whose "mobile depth key" is its own key. *)
Definition ev_self : Evaluator :=
  {| my_key_ := "surface-conductivity";
     mobile_depth_key_ := "surface-conductivity";
     slope_key_ := "surface-slope_magnitude";
     coef_key_ := "surface-manning_coefficient";
     dens_key_ := "surface-molar_density_liquid";
     frac_cond_key_ := "surface-fractional_conductance";
     drag_exp_key_ := "surface-drag_exponent";
     visualize := None;
     checkpoint := None;
     model_ := manning |}.

(** An evaluator whose "slope key" is its own key; five dependencies
    precede it in the set. *)
Definition ev_self_slope : Evaluator :=
  {| my_key_ := "surface-overland_conductivity";
     mobile_depth_key_ := "surface-mobile_depth";
     slope_key_ := "surface-overland_conductivity";
     coef_key_ := "surface-manning_coefficient";
     dens_key_ := "surface-molar_density_liquid";
     frac_cond_key_ := "surface-fractional_conductance";
     drag_exp_key_ := "surface-drag_exponent";
     visualize := None;
     checkpoint := None;
     model_ := manning |}.

Definition S_slope_with_mesh : RefState :=
  {[ "surface-overland_conductivity"%string :=
       {| space_mesh := Some "surface"%string;
          space_components := [("cell"%string, CELL, 1%nat)];
          space_ghosted := false |} ]}.

(** A State in which the requirements of the evaluator's field are set. *)
Definition S_with_mesh : RefState :=
  {[ "surface-conductivity"%string :=
       {| space_mesh := Some "surface"%string;
          space_components := [("cell"%string, CELL, 1%nat)];
          space_ghosted := false |} ]}.

(** *** Properties *)

Lemma KeySet_insert_elem key s k :
  k ∈ KeySet_insert key s <-> k = key \/ k ∈ s.
Proof.
  induction s as [|k' rest IH]; simpl.
  - set_solver.
  - destruct (String.eqb_spec key k') as [->|Hne].
    + set_solver.
    + destruct (String.ltb key k'); set_solver.
Qed.

Section Properties.
Context {St : Type} `{StateOps St}.

Lemma require_loop_raises ev dep_fac keys : forall S,
  my_key_ ev ∈ keys -> exists e, require_loop ev dep_fac keys S = Raise e.
Proof.
  induction keys as [|key rest IH]; intros S Hin; [set_solver|]. simpl.
  destruct (String.eqb_spec key (my_key_ ev)) as [->|Hne]; [eauto|].
  destruct (require_dependency ev dep_fac key S) as [S'|e]; simpl; [|eauto].
  apply IH. set_solver.
Qed.

Lemma require_loop_split ev dep_fac before after : forall S,
  my_key_ ev ∉ before ->
  require_loop ev dep_fac (before ++ my_key_ ev :: after) S
  = match require_loop ev dep_fac before S with
    | Return _ => Raise (Message (self_dependency_message (my_key_ ev)))
    | Raise e => Raise e
    end.
Proof.
  induction before as [|key rest IH]; intros S Hnot; simpl.
  - now rewrite String.eqb_refl.
  - destruct (String.eqb_spec key (my_key_ ev)) as [->|Hne]; [set_solver|].
    destruct (require_dependency ev dep_fac key S) as [S'|e]; simpl;
      [|reflexivity].
    apply IH. set_solver.
Qed.

End Properties.

(** C7, as amended.  Let the dependency set hold the evaluator's own key
    and let the part of [EnsureCompatibility] before the test of the
    mesh return.  While the factory of the field has no mesh the check
    is deferred: the call returns, with no error.  Once it has a mesh
    the call throws, and it does so in the loop that checks, before it
    recurses into any dependency: the outcome is the same whatever the
    [EnsureCompatibility] of the dependencies' evaluators would do.  The
    own key splits the set into the dependencies that precede it and
    those that follow; when the requirements of those that precede it
    are accepted, starting from the State at hand, what is thrown is the
    message that names the key, and otherwise it is the error of the
    first refusal.  [EvaluateField_] does not look at [my_key_]. *)
Theorem EnsureCompatibility_self_dependency {St : Type} {ops : StateOps St}
  (ev : Evaluator) (S S2 : St) :
  my_key_ ev ∈ dependencies_ ev ->
  require_my_field ev S = Return S2 ->
  (Mesh S2 (my_key_ ev) = None -> EnsureCompatibility ev S = Return S2) /\
  (forall mesh, Mesh S2 (my_key_ ev) = Some mesh ->
     let dep_fac :=
       {| space_mesh := Some mesh;
          space_components := [("cell"%string, CELL, 1%nat)];
          space_ghosted := true |} in
     (exists e, EnsureCompatibility ev S = Raise e) /\
     (forall rec,
        @EnsureCompatibility St (with_recursion ops rec) ev S
        = EnsureCompatibility ev S) /\
     (exists before after,
        dependencies_ ev = before ++ my_key_ ev :: after /\
        my_key_ ev ∉ before) /\
     (forall before after,
        dependencies_ ev = before ++ my_key_ ev :: after ->
        my_key_ ev ∉ before ->
        match require_loop ev dep_fac before S2 with
        | Return _ =>
            EnsureCompatibility ev S
            = Raise (Message (self_dependency_message (my_key_ ev)))
        | Raise e => EnsureCompatibility ev S = Raise e
        end)) /\
  (forall key State result,
     EvaluateField_ (with_my_key ev key) State result
     = EvaluateField_ ev State result).
Proof.
  intros Hin Hpre. split; [|split].
  - intros Hmesh. unfold EnsureCompatibility. rewrite Hpre. simpl.
    now rewrite Hmesh.
  - intros mesh Hmesh dep_fac.
    destruct (require_loop_raises ev dep_fac (dependencies_ ev) S2 Hin)
      as [e He].
    assert (EnsureCompatibility ev S = Raise e) as Hraise.
    { unfold EnsureCompatibility. rewrite Hpre. simpl. rewrite Hmesh.
      fold dep_fac. now rewrite He. }
    split; [eauto|]. split; [|split].
    + intros rec. rewrite Hraise. unfold EnsureCompatibility.
      change (@require_my_field St (with_recursion ops rec) ev S)
        with (require_my_field ev S).
      rewrite Hpre. simpl. rewrite Hmesh. fold dep_fac.
      change (@require_loop St (with_recursion ops rec) ev dep_fac
                (dependencies_ ev) S2)
        with (require_loop ev dep_fac (dependencies_ ev) S2).
      now rewrite He.
    + destruct (list_elem_of_split_l _ _ Hin) as (before & after & Hd & Hn).
      eauto.
    + intros before after Hd Hn. rewrite Hraise. rewrite Hd in He.
      rewrite require_loop_split in He by assumption.
      destruct (require_loop ev dep_fac before S2); congruence.
  - reflexivity.
Qed.

(** The partial derivative with respect to any key outside the three the
    cascade names, the slope among them, is the zero field. *)
Lemma partial_derivative_otherwise_zero ev S wrt_key result d :
  GetFields ev S = Some d ->
  wrt_key <> mobile_depth_key_ ev -> wrt_key <> dens_key_ ev ->
  wrt_key <> frac_cond_key_ ev ->
  EvaluateFieldPartialDerivative_ ev S wrt_key result
  = Some (PutScalar 0 result).
Proof.
  intros Hd H1 H2 H3. unfold EvaluateFieldPartialDerivative_. rewrite Hd. simpl.
  destruct (String.eqb_spec wrt_key (mobile_depth_key_ ev)); [contradiction|].
  destruct (String.eqb_spec wrt_key (dens_key_ ev)); [contradiction|].
  destruct (String.eqb_spec wrt_key (frac_cond_key_ ev)); [contradiction|].
  reflexivity.
Qed.

(** C7 as stated fails: while the field of the evaluator has no mesh yet,
    the check is deferred and the call returns. *)
Lemma EnsureCompatibility_deferred :
  my_key_ ev_self ∈ dependencies_ ev_self /\
  EnsureCompatibility ev_self (∅ : RefState)
  = Return ({[ "surface-conductivity"%string := empty_space ]} : RefState).
Proof.
  split.
  - unfold dependencies_. rewrite !KeySet_insert_elem. simpl. tauto.
  - reflexivity.
Qed.

Lemma EnsureCompatibility_self_dependency_witness :
  EnsureCompatibility ev_self_slope (∅ : RefState)
  = Return ({[ "surface-overland_conductivity"%string := empty_space ]}
            : RefState) /\
  EnsureCompatibility ev_self_slope S_slope_with_mesh
  = Raise (Message (self_dependency_message "surface-overland_conductivity")) /\
  (forall rec,
     @EnsureCompatibility RefState (with_recursion RefStateOps rec)
       ev_self_slope S_slope_with_mesh
     = EnsureCompatibility ev_self_slope S_slope_with_mesh).
Proof.
  assert (my_key_ ev_self_slope ∈ dependencies_ ev_self_slope) as Hin.
  { unfold dependencies_. rewrite !KeySet_insert_elem. simpl. tauto. }
  assert (require_my_field ev_self_slope (∅ : RefState)
          = Return ({[ "surface-overland_conductivity"%string := empty_space ]}
                    : RefState)) as Hpre0 by reflexivity.
  assert (require_my_field ev_self_slope S_slope_with_mesh
          = Return S_slope_with_mesh) as Hpre by reflexivity.
  assert (Mesh S_slope_with_mesh (my_key_ ev_self_slope)
          = Some "surface"%string) as Hsurface by reflexivity.
  destruct (EnsureCompatibility_self_dependency ev_self_slope _ _ Hin Hpre0)
    as (Hdefer & _ & _).
  destruct (EnsureCompatibility_self_dependency ev_self_slope _ _ Hin Hpre)
    as (_ & Hmesh & _).
  destruct (Hmesh _ Hsurface) as (_ & Hrec & _ & Hsplit).
  split; [|split].
  - apply Hdefer. reflexivity.
  - specialize (Hsplit
      ["surface-drag_exponent"; "surface-fractional_conductance";
       "surface-manning_coefficient"; "surface-mobile_depth";
       "surface-molar_density_liquid"]%string [] eq_refl).
    destruct (require_loop _ _ _ _) as [S3|e] eqn:Eloop.
    + apply Hsplit. intros Hk.
      repeat (apply elem_of_cons in Hk as [Hk|Hk]; [discriminate|]).
      inversion Hk.
    + vm_compute in Eloop. discriminate.
  - exact Hrec.
Defined.

(** The five dependencies that precede the own key are required before
    the call throws. *)
Example require_loop_preceding :
  exists S3 : RefState,
    require_loop ev_self_slope
      {| space_mesh := Some "surface"%string;
         space_components := [("cell"%string, CELL, 1%nat)];
         space_ghosted := true |}
      ["surface-drag_exponent"; "surface-fractional_conductance";
       "surface-manning_coefficient"; "surface-mobile_depth";
       "surface-molar_density_liquid"]%string S_slope_with_mesh
    = Return S3 /\
    "surface-mobile_depth"%string ∈ dom S3.
Proof. eexists. split; [reflexivity|]. vm_compute. reflexivity. Qed.

Example EnsureCompatibility_throws :
  EnsureCompatibility ev_self S_with_mesh
  = Raise (Message (self_dependency_message "surface-conductivity")).
Proof. reflexivity. Qed.

End OverlandConductivitySubgrid.

(** ** MPCSubsurface *)

Module MPCSubsurface.
Import Vec Exc.
Local Open Scope float_scope.

Inductive PreconType :=
  | PRECON_NONE
  | PRECON_BLOCK_DIAGONAL
  | PRECON_PICARD
  | PRECON_EWC.

(** *** Teuchos::ParameterList *)

Inductive ParameterEntry :=
  | PString (s : string)
  | PBool (b : bool)
  | PDouble (x : float)
  | PSublist (entries : list (string * ParameterEntry)).

Abbreviation ParameterList := (gmap string ParameterEntry).

(** [plist->get<std::string>(name, def)]: the value, and the list with
    the default entered when the name was absent; an entry of another
    type is refused. *)
Definition get_string (plist : ParameterList) (name def : string)
  : Outcome (string * ParameterList) :=
  match plist !! name with
  | None => Return (def, <[name := PString def]> plist)
  | Some (PString s) => Return (s, plist)
  | Some _ => Raise InvalidAccess
  end.

Definition isSublist (plist : ParameterList) (name : string) : bool :=
  match plist !! name with Some (PSublist _) => true | _ => false end.

Definition isParameter (plist : ParameterList) (name : string) : bool :=
  match plist !! name with Some _ => true | None => false end.

(** [sublist->set(key, value)]. *)
Fixpoint entries_set (l : list (string * ParameterEntry)) (key : string)
  (value : ParameterEntry) : list (string * ParameterEntry) :=
  match l with
  | [] => [(key, value)]
  | (k, v) :: rest =>
      if String.eqb k key then (k, value) :: rest
      else (k, v) :: entries_set rest key value
  end.

(** [Teuchos::sublist(plist, name)]. *)
Definition sublist_entries (plist : ParameterList) (name : string)
  : list (string * ParameterEntry) :=
  match plist !! name with Some (PSublist l) => l | _ => [] end.

(** *** Tree vectors *)

(** A [TreeVector] with leaves only: [SubVector(i)->Data()]. *)
Abbreviation TreeVector := (list (list (string * list float))).

Definition CV_PutScalar (x : float) (v : CompositeVector) : CompositeVector :=
  map (fun c => (c.1, map (fun _ => x) c.2)) v.

(** [this->Update(a, A, b)]: [this = a * A + b * this], entry by entry. *)
Definition MV_Update (a : float) (A : list float) (b : float)
  (this : list float) : list float :=
  zip_with (fun x t => a * x + b * t) A this.

Definition CV_Update (a : float) (A : CompositeVector) (b : float)
  (this : CompositeVector) : CompositeVector :=
  zip_with (fun cA ct => (ct.1, MV_Update a cA.2 b ct.2)) A this.

Definition TV_PutScalar (x : float) (v : TreeVector) : TreeVector :=
  map (CV_PutScalar x) v.

Definition TV_Update (a : float) (A : TreeVector) (b : float)
  (this : TreeVector) : TreeVector :=
  zip_with (fun vA vt => CV_Update a vA b vt) A this.

(** [Pu->SubVector(i)->Data()->ViewComponent("face")->Update(1., *Pu_std->
    SubVector(i)->Data()->ViewComponent("face"), 1.)]. *)
Definition update_faces (i : nat) (Pu_std Pu : TreeVector)
  : Outcome TreeVector :=
  Pu_i ← access (Pu !! i);
  Pu_std_i ← access (Pu_std !! i);
  face ← access (ViewComponent Pu_i "face");
  face_std ← access (ViewComponent Pu_std_i "face");
  Return (<[i := SetComponent Pu_i "face" (MV_Update 1 face_std 1 face)]> Pu).

(** *** The coupler and its collaborators *)

(** [B] is the state of the base classes ([StrongMPC], [MPCCoupledCells]:
    sub-PKs, operators), [E] that of the EWC delegate, [St] the State. *)
Class Collaborators (B E St : Type) := {
  MPCCoupledCells_setup : ParameterList -> B -> St -> Outcome (B * St);
  new_MPCDelegateEWCSubsurface : list (string * ParameterEntry) -> E;
  ewc_setup : E -> St -> Outcome (E * St);
  StrongMPC_update_precon : B -> float -> TreeVector -> float -> Outcome B;
  MPCCoupledCells_update_precon : B -> float -> TreeVector -> float -> Outcome B;
  ewc_update_precon : E -> float -> TreeVector -> float -> Outcome E;
  StrongMPC_precon : B -> TreeVector -> TreeVector -> Outcome TreeVector;
  MPCCoupledCells_precon : B -> TreeVector -> TreeVector -> Outcome TreeVector;
  ewc_precon : E -> TreeVector -> TreeVector -> Outcome TreeVector;
  UpdateConsistentFaceCorrection : B -> TreeVector -> TreeVector -> Outcome TreeVector
}.

Record MPC (B E : Type) := {
  name_ : string;
  plist_ : ParameterList;
  dumped_ : bool;
  precon_type_ : PreconType;
  ewc_ : option E;
  base : B
}.
Arguments name_ {B E} _.
Arguments plist_ {B E} _.
Arguments dumped_ {B E} _.
Arguments precon_type_ {B E} _.
Arguments ewc_ {B E} _.
Arguments base {B E} _.

Section Coupler.
Context {B E St : Type} `{Collaborators B E St}.

(** The five [plist_->set(...)] that open [setup]. *)
Definition configure (plist : ParameterList) : ParameterList :=
  <["mesh key" := PString "domain"]>
  (<["primary variable B" := PString "temperature"]>
  (<["primary variable A" := PString "pressure"]>
  (<["conserved quantity B" := PString "energy"]>
  (<["conserved quantity A" := PString "water_content"]> plist)))).

(** The cascade over [precon_string]. *)
Definition select_preconditioner (precon_string : string)
  : Outcome PreconType :=
  if String.eqb precon_string "none" then Return PRECON_NONE
  else if String.eqb precon_string "block diagonal" then Return PRECON_BLOCK_DIAGONAL
  else if String.eqb precon_string "picard" then Return PRECON_PICARD
  else if String.eqb precon_string "ewc" then Return PRECON_EWC
  else if String.eqb precon_string "smart ewc" then Return PRECON_EWC
  else Raise (Message ("Invalid preconditioner type " ++ precon_string)).

(** The creation of the EWC delegate that closes [setup]. *)
Definition create_delegate (name : string) (plist : ParameterList)
  (ewc : option E) (S : St) : Outcome (option E * St) :=
  if isSublist plist "ewc delegate" then
    let sub_ewc_list :=
      entries_set
        (entries_set (sublist_entries plist "ewc delegate")
           "PK name" (PString name))
        "domain key" (PString "") in
    '(ewc', S') ← ewc_setup (new_MPCDelegateEWCSubsurface sub_ewc_list) S;
    Return (Some ewc', S')
  else if isParameter plist "predictor type" then
    Raise (Message
      "Old-style subsurface ParameterList, please use sublist for EWC delegate.")
  else Return (ewc, S).

Definition setup (mpc : MPC B E) (S : St) : Outcome (MPC B E * St) :=
  let plist0 := configure (plist_ mpc) in
  '(base1, S1) ← MPCCoupledCells_setup plist0 (base mpc) S;
  '(precon_string, plist1) ← get_string plist0 "preconditioner type" "picard";
  precon_type ← select_preconditioner precon_string;
  '(ewc, S2) ← create_delegate (name_ mpc) plist1 (ewc_ mpc) S1;
  Return ({| name_ := name_ mpc; plist_ := plist1; dumped_ := false;
             precon_type_ := precon_type; ewc_ := ewc; base := base1 |}, S2).

Definition set_base (mpc : MPC B E) (b : B) : MPC B E :=
  {| name_ := name_ mpc; plist_ := plist_ mpc; dumped_ := dumped_ mpc;
     precon_type_ := precon_type_ mpc; ewc_ := ewc_ mpc; base := b |}.

Definition set_ewc (mpc : MPC B E) (e : E) : MPC B E :=
  {| name_ := name_ mpc; plist_ := plist_ mpc; dumped_ := dumped_ mpc;
     precon_type_ := precon_type_ mpc; ewc_ := Some e; base := base mpc |}.

Definition update_precon (mpc : MPC B E) (t : float) (up : TreeVector)
  (h : float) : Outcome (MPC B E) :=
  match precon_type_ mpc with
  | PRECON_NONE => Return mpc
  | PRECON_BLOCK_DIAGONAL =>
      b ← StrongMPC_update_precon (base mpc) t up h; Return (set_base mpc b)
  | PRECON_PICARD =>
      b ← MPCCoupledCells_update_precon (base mpc) t up h;
      Return (set_base mpc b)
  | PRECON_EWC =>
      b ← MPCCoupledCells_update_precon (base mpc) t up h;
      ewc ← access (ewc_ mpc);
      e ← ewc_update_precon ewc t up h;
      Return (set_ewc (set_base mpc b) e)
  end.

(** The result is [Pu] as the call leaves it. *)
Definition precon (mpc : MPC B E) (u Pu : TreeVector) : Outcome TreeVector :=
  match precon_type_ mpc with
  | PRECON_NONE => Return u
  | PRECON_BLOCK_DIAGONAL => StrongMPC_precon (base mpc) u Pu
  | PRECON_PICARD => MPCCoupledCells_precon (base mpc) u Pu
  | PRECON_EWC =>
      Pu1 ← MPCCoupledCells_precon (base mpc) u Pu;
      let res0 := TV_PutScalar 0 u in
      let Pu_std := Pu1 in
      ewc ← access (ewc_ mpc);
      Pu2 ← ewc_precon ewc u Pu1;
      let dPu := TV_Update 1 Pu2 (-1) Pu_std in
      dPu' ← UpdateConsistentFaceCorrection (base mpc) res0 dPu;
      Pu3 ← update_faces 0 dPu' Pu2;
      update_faces 1 dPu' Pu3
  end.

(** What [update_precon] and [precon] read of a coupler. *)
Definition solver_state (mpc : MPC B E) : PreconType * option E * B :=
  (precon_type_ mpc, ewc_ mpc, base mpc).

(** The coupler configured with a preconditioner type. *)
Definition with_preconditioner_type (mpc : MPC B E) (s : string) : MPC B E :=
  {| name_ := name_ mpc;
     plist_ := <["preconditioner type" := PString s]> (plist_ mpc);
     dumped_ := dumped_ mpc; precon_type_ := precon_type_ mpc;
     ewc_ := ewc_ mpc; base := base mpc |}.

End Coupler.

(** *** Sample data *)

(** Collaborators that count the calls they get: the base classes in
    [B := nat], the delegate in [E := nat]; the State is not modelled. *)
#[global] Instance counting : Collaborators nat nat unit := {|
  MPCCoupledCells_setup := fun _ b st => Return (S b, st);
  new_MPCDelegateEWCSubsurface := fun l => length l;
  ewc_setup := fun e st => Return (e, st);
  StrongMPC_update_precon := fun b _ _ _ => Return (S b);
  MPCCoupledCells_update_precon := fun b _ _ _ => Return (S (S b));
  ewc_update_precon := fun e _ _ _ => Return (S e);
  StrongMPC_precon := fun _ u _ => Return u;
  MPCCoupledCells_precon := fun _ u _ => Return (TV_Update 1 u 1 u);
  ewc_precon := fun _ _ Pu => Return (TV_Update 1 Pu 1 Pu);
  UpdateConsistentFaceCorrection := fun _ _ dPu => Return dPu
|}.

Definition mpc0 : MPC nat nat :=
  {| name_ := "subsurface"; plist_ := ∅; dumped_ := true;
     precon_type_ := PRECON_NONE; ewc_ := None; base := 0%nat |}.

Definition mpc_delegate : MPC nat nat :=
  {| name_ := "subsurface";
     plist_ := {[ "ewc delegate"%string := PSublist [] ]};
     dumped_ := true; precon_type_ := PRECON_NONE; ewc_ := None;
     base := 0%nat |}.

(** *** Properties *)

Section Properties.
Context {B E St : Type} `{Collaborators B E St}.

Definition valid_types : list string :=
  ["none"; "block diagonal"; "picard"; "ewc"; "smart ewc"]%string.

Lemma select_preconditioner_cases s :
  (s = "none"%string /\ select_preconditioner s = Return PRECON_NONE) \/
  (s = "block diagonal"%string /\
   select_preconditioner s = Return PRECON_BLOCK_DIAGONAL) \/
  (s = "picard"%string /\ select_preconditioner s = Return PRECON_PICARD) \/
  ((s = "ewc"%string \/ s = "smart ewc"%string) /\
   select_preconditioner s = Return PRECON_EWC) \/
  ((s ∉ valid_types) /\
   select_preconditioner s
   = Raise (Message ("Invalid preconditioner type " ++ s))).
Proof.
  unfold select_preconditioner, valid_types.
  destruct (String.eqb_spec s "none"); [now left|].
  destruct (String.eqb_spec s "block diagonal"); [now right; left|].
  destruct (String.eqb_spec s "picard"); [now do 2 right; left|].
  destruct (String.eqb_spec s "ewc"); [do 3 right; left; tauto|].
  destruct (String.eqb_spec s "smart ewc"); [do 3 right; left; tauto|].
  do 4 right. split; [set_solver|reflexivity].
Qed.

(** The string [setup] reads: the entry of the list when it has one,
    "picard" when the key is absent. *)
Definition configured (plist : ParameterList) (s : string) : Prop :=
  match plist !! "preconditioner type"%string with
  | None => s = "picard"%string
  | Some e => e = PString s
  end.

Lemma get_string_configured_entry plist s :
  configured plist s ->
  get_string (configure plist) "preconditioner type" "picard"
  = Return (s, <["preconditioner type" := PString s]> (configure plist)).
Proof.
  unfold configured, get_string.
  assert (configure plist !! "preconditioner type"%string
          = plist !! "preconditioner type"%string) as Hlk.
  { unfold configure. now rewrite !lookup_insert_ne by discriminate. }
  rewrite Hlk.
  destruct (plist !! "preconditioner type"%string) as [e|] eqn:He.
  - intros ->. now rewrite insert_id by now rewrite Hlk.
  - now intros ->.
Qed.

(** C5: [setup] maps the configured string [s], the entry of the list or
    "picard" when the key is absent, to its strategy by a total case
    analysis.  For each of the five names the cascade accepts the string:
    [setup] goes on to the creation of the EWC delegate with the name's
    [PRECON_*] value selected, and its outcome is that of this last
    stage, so that it returns with that value whenever the stage
    returns.  Any other string makes [setup] throw the message that
    names it: [setup] never returns with an unknown type. *)
Theorem setup_preconditioner_type (mpc : MPC B E) (S : St) base1 S1 s :
  MPCCoupledCells_setup (configure (plist_ mpc)) (base mpc) S = Return (base1, S1) ->
  configured (plist_ mpc) s ->
  let plist1 := <["preconditioner type" := PString s]> (configure (plist_ mpc)) in
  let selects p :=
    setup mpc S
    = ('(ewc, S2) ← create_delegate (name_ mpc) plist1 (ewc_ mpc) S1;
       Return ({| name_ := name_ mpc; plist_ := plist1; dumped_ := false;
                  precon_type_ := p; ewc_ := ewc; base := base1 |}, S2)) in
  (s = "none"%string -> selects PRECON_NONE) /\
  (s = "block diagonal"%string -> selects PRECON_BLOCK_DIAGONAL) /\
  (s = "picard"%string -> selects PRECON_PICARD) /\
  (s = "ewc"%string -> selects PRECON_EWC) /\
  (s = "smart ewc"%string -> selects PRECON_EWC) /\
  (s ∉ valid_types ->
     setup mpc S = Raise (Message ("Invalid preconditioner type " ++ s))) /\
  (forall mpc' S', setup mpc S = Return (mpc', S') ->
     s ∈ valid_types /\ select_preconditioner s = Return (precon_type_ mpc')).
Proof.
  intros Hbase Hs plist1 selects. subst selects plist1.
  assert (forall p, select_preconditioner s = Return p ->
            setup mpc S
            = ('(ewc, S2) ← create_delegate (name_ mpc)
                   (<["preconditioner type" := PString s]> (configure (plist_ mpc)))
                   (ewc_ mpc) S1;
               Return ({| name_ := name_ mpc;
                          plist_ := <["preconditioner type" := PString s]>
                                      (configure (plist_ mpc));
                          dumped_ := false; precon_type_ := p; ewc_ := ewc;
                          base := base1 |}, S2))) as Hsel.
  { intros p Hp. unfold setup. rewrite Hbase. simpl.
    rewrite (get_string_configured_entry _ _ Hs). simpl. now rewrite Hp. }
  split; [|split; [|split; [|split; [|split; [|split]]]]].
  - intros ->. now apply Hsel.
  - intros ->. now apply Hsel.
  - intros ->. now apply Hsel.
  - intros ->. now apply Hsel.
  - intros ->. now apply Hsel.
  - intros Hbad. unfold setup. rewrite Hbase. simpl.
    rewrite (get_string_configured_entry _ _ Hs). simpl.
    destruct (select_preconditioner_cases s)
      as [[-> _]|[[-> _]|[[-> _]|[[[-> | ->] _]|[_ ->]]]]];
      try (exfalso; apply Hbad; unfold valid_types; set_solver).
    reflexivity.
  - intros mpc' S'. unfold setup. rewrite Hbase. simpl.
    rewrite (get_string_configured_entry _ _ Hs). simpl.
    destruct (select_preconditioner_cases s)
      as [[-> Hp]|[[-> Hp]|[[-> Hp]|[[[-> | ->] Hp]|[_ ->]]]]];
      try discriminate; rewrite Hp; simpl;
      (destruct (create_delegate _ _ _ _) as [[ewc S2]|e]; simpl;
       [|discriminate]);
      intros [= <- <-]; (split; [unfold valid_types; set_solver|reflexivity]).
Qed.


(** With a valid type and neither an "ewc delegate" sublist nor an
    old-style "predictor type", [setup] returns as soon as the base class
    does. *)
Lemma setup_returns (mpc : MPC B E) (S : St) base1 S1 s plist1 :
  MPCCoupledCells_setup (configure (plist_ mpc)) (base mpc) S = Return (base1, S1) ->
  get_string (configure (plist_ mpc)) "preconditioner type" "picard"
  = Return (s, plist1) ->
  s ∈ valid_types ->
  isSublist plist1 "ewc delegate" = false ->
  isParameter plist1 "predictor type" = false ->
  exists p, select_preconditioner s = Return p /\
    setup mpc S
    = Return ({| name_ := name_ mpc; plist_ := plist1; dumped_ := false;
                 precon_type_ := p; ewc_ := ewc_ mpc; base := base1 |}, S1).
Proof.
  intros Hbase Hget Hs Hsub Hpar. unfold setup, create_delegate.
  rewrite Hbase. simpl. rewrite Hget. simpl. rewrite Hsub, Hpar.
  destruct (select_preconditioner_cases s)
    as [[_ ->]|[[_ ->]|[[_ ->]|[[_ ->]|[Hbad _]]]]]; simpl; eauto.
  contradiction.
Qed.

Lemma create_delegate_agree name (p1 p2 : ParameterList) (ewc : option E) (S : St) :
  p1 !! "ewc delegate"%string = p2 !! "ewc delegate"%string ->
  p1 !! "predictor type"%string = p2 !! "predictor type"%string ->
  create_delegate name p1 ewc S = create_delegate name p2 ewc S.
Proof.
  intros H1 H2. unfold create_delegate, isSublist, isParameter, sublist_entries.
  now rewrite H1, H2.
Qed.

Lemma get_string_configured (plist : ParameterList) s :
  get_string (configure (<["preconditioner type" := PString s]> plist))
    "preconditioner type" "picard"
  = Return (s, configure (<["preconditioner type" := PString s]> plist)).
Proof.
  unfold get_string, configure.
  rewrite !lookup_insert_ne by discriminate. now rewrite lookup_insert_eq.
Qed.

Lemma configured_other_keys (plist : ParameterList) s key :
  key <> "preconditioner type"%string ->
  configure (<["preconditioner type" := PString s]> plist) !! key
  = configure plist !! key.
Proof.
  intros Hne. unfold configure.
  repeat match goal with
  | |- <[?k := _]> _ !! key = <[?k := _]> _ !! key =>
      destruct (decide (k = key)) as [<-|?];
      [now rewrite !lookup_insert_eq
      |rewrite !(lookup_insert_ne _ k key) by assumption]
  end.
  now rewrite lookup_insert_ne by congruence.
Qed.

Lemma update_precon_reads_solver_state (m1 m2 : MPC B E) t up h :
  solver_state m1 = solver_state m2 ->
  solver_state <$> update_precon m1 t up h
  = solver_state <$> update_precon m2 t up h.
Proof.
  unfold solver_state at 1 2. intros [= H1 H2 H3].
  unfold update_precon. rewrite H1, H2, H3.
  destruct (precon_type_ m2) eqn:Ep; simpl.
  - unfold solver_state. now rewrite H1, H2, H3, Ep.
  - destruct (StrongMPC_update_precon (base m2) t up h); simpl; [|reflexivity].
    unfold solver_state; simpl. now rewrite H1, H2, Ep.
  - destruct (MPCCoupledCells_update_precon (base m2) t up h); simpl;
      [|reflexivity].
    unfold solver_state; simpl. now rewrite H1, H2, Ep.
  - destruct (MPCCoupledCells_update_precon (base m2) t up h); simpl;
      [|reflexivity].
    destruct (ewc_ m2) as [e|]; simpl; [|reflexivity].
    destruct (ewc_update_precon e t up h); simpl; [|reflexivity].
    unfold solver_state; simpl. now rewrite H1, Ep.
Qed.

Lemma precon_reads_solver_state (m1 m2 : MPC B E) u Pu :
  solver_state m1 = solver_state m2 -> precon m1 u Pu = precon m2 u Pu.
Proof.
  unfold solver_state, precon. intros [= H1 H2 H3]. now rewrite H1, H2, H3.
Qed.

(** C6: "ewc" and "smart ewc" resolve to the same behaviour: both set
    [precon_type_] to [PRECON_EWC], leave the couplers in the same solver
    state, and every later [update_precon] and [precon] gives the same
    result for both on the same inputs. *)
Theorem ewc_smart_ewc_equivalent (mpc : MPC B E) (S : St) m1 S1 m2 S2 :
  MPCCoupledCells_setup
    (configure (plist_ (with_preconditioner_type mpc "ewc"))) (base mpc) S
  = MPCCoupledCells_setup
      (configure (plist_ (with_preconditioner_type mpc "smart ewc"))) (base mpc) S ->
  setup (with_preconditioner_type mpc "ewc") S = Return (m1, S1) ->
  setup (with_preconditioner_type mpc "smart ewc") S = Return (m2, S2) ->
  precon_type_ m1 = PRECON_EWC /\ precon_type_ m2 = PRECON_EWC /\
  solver_state m1 = solver_state m2 /\ S1 = S2 /\
  (forall t up h,
     solver_state <$> update_precon m1 t up h
     = solver_state <$> update_precon m2 t up h) /\
  (forall u Pu, precon m1 u Pu = precon m2 u Pu).
Proof.
  intros Hbase H1 H2.
  assert (Hstate : precon_type_ m1 = PRECON_EWC /\ precon_type_ m2 = PRECON_EWC /\
                   solver_state m1 = solver_state m2 /\ S1 = S2).
  { revert H1 H2. unfold setup. simpl in *. rewrite <- Hbase.
    destruct (MPCCoupledCells_setup _ _ _) as [[b Sb]|e]; simpl; [|discriminate].
    rewrite !get_string_configured. simpl.
    rewrite (create_delegate_agree _
               (configure (<["preconditioner type" := PString "ewc"]> (plist_ mpc)))
               (configure (<["preconditioner type" := PString "smart ewc"]> (plist_ mpc))))
      by (rewrite !configured_other_keys by discriminate; reflexivity).
    destruct (create_delegate _ _ _ _) as [[ewc Sd]|e]; simpl; [|discriminate].
    intros [= <- <-] [= <- <-]. now repeat split. }
  destruct Hstate as (P1 & P2 & Hs & HS). repeat split; trivial.
  - intros t up h. now apply update_precon_reads_solver_state.
  - intros u Pu. now apply precon_reads_solver_state.
Qed.

End Properties.

(** A coupler with an "ewc delegate" sublist, configured with the
    preconditioner type "smart ewc". *)
Definition mpc_smart_ewc : MPC nat nat :=
  with_preconditioner_type mpc_delegate "smart ewc".

(** That coupler as [setup] leaves it. *)
Definition mpc_smart_ewc_set_up : MPC nat nat :=
  {| name_ := "subsurface";
     plist_ := <["preconditioner type" := PString "smart ewc"]>
                 (configure (plist_ mpc_smart_ewc));
     dumped_ := false; precon_type_ := PRECON_EWC;
     ewc_ := Some 2%nat; base := 1%nat |}.

Lemma setup_preconditioner_type_witness :
  setup mpc_smart_ewc tt = Return (mpc_smart_ewc_set_up, tt) /\
  "smart ewc"%string ∈ valid_types /\
  select_preconditioner "smart ewc"
  = Return (precon_type_ mpc_smart_ewc_set_up).
Proof.
  assert (configured (plist_ mpc_smart_ewc) "smart ewc") as Hs by reflexivity.
  assert (MPCCoupledCells_setup (configure (plist_ mpc_smart_ewc))
            (base mpc_smart_ewc) tt = Return (1%nat, tt)) as Hbase
    by reflexivity.
  destruct (setup_preconditioner_type mpc_smart_ewc tt 1%nat tt "smart ewc"
              Hbase Hs) as (_ & _ & _ & _ & Hsmart & _ & Hret).
  assert (setup mpc_smart_ewc tt = Return (mpc_smart_ewc_set_up, tt)) as Hset
    by (rewrite (Hsmart eq_refl); reflexivity).
  split; [exact Hset|]. exact (Hret _ _ Hset).
Defined.

(** The five names and a string outside them, on a list with no delegate
    sublist. *)
Example setup_each_type :
  precon_type_ <$> (fst <$> setup (with_preconditioner_type mpc0 "none") tt)
  = Return PRECON_NONE /\
  precon_type_ <$> (fst <$> setup (with_preconditioner_type mpc0 "block diagonal") tt)
  = Return PRECON_BLOCK_DIAGONAL /\
  precon_type_ <$> (fst <$> setup (with_preconditioner_type mpc0 "picard") tt)
  = Return PRECON_PICARD /\
  precon_type_ <$> (fst <$> setup (with_preconditioner_type mpc0 "ewc") tt)
  = Return PRECON_EWC /\
  precon_type_ <$> (fst <$> setup (with_preconditioner_type mpc0 "smart ewc") tt)
  = Return PRECON_EWC /\
  setup (with_preconditioner_type mpc0 "Picard") tt
  = Raise (Message "Invalid preconditioner type Picard").
Proof. repeat split. Qed.

Example setup_default_is_picard :
  precon_type_ <$> (fst <$> setup mpc0 tt) = Return PRECON_PICARD.
Proof. reflexivity. Qed.

Example setup_invalid_type :
  setup (with_preconditioner_type mpc0 "jacobi") tt
  = Raise (Message "Invalid preconditioner type jacobi").
Proof. reflexivity. Qed.

Lemma ewc_smart_ewc_equivalent_witness :
  exists m1 m2,
    setup (with_preconditioner_type mpc_delegate "ewc") tt = Return (m1, tt) /\
    setup (with_preconditioner_type mpc_delegate "smart ewc") tt = Return (m2, tt) /\
    precon_type_ m1 = PRECON_EWC /\ precon_type_ m2 = PRECON_EWC /\
    solver_state m1 = solver_state m2 /\ tt = tt /\
    (forall t up h,
       solver_state <$> update_precon m1 t up h
       = solver_state <$> update_precon m2 t up h) /\
    (forall u Pu, precon m1 u Pu = precon m2 u Pu).
Proof.
  do 2 eexists. split; [reflexivity|]. split; [reflexivity|].
  apply (ewc_smart_ewc_equivalent mpc_delegate tt); reflexivity.
Defined.

Example precon_ewc_corrects_faces :
  precon
    {| name_ := "subsurface"; plist_ := ∅; dumped_ := false;
       precon_type_ := PRECON_EWC; ewc_ := Some 0%nat; base := 0%nat |}
    [ [("cell"%string, [1.0]); ("face"%string, [2.0])];
      [("cell"%string, [3.0]); ("face"%string, [4.0])] ]
    []
  = Return
    [ [("cell"%string, [4.0]); ("face"%string, [12.0])];
      [("cell"%string, [12.0]); ("face"%string, [24.0])] ].
Proof. reflexivity. Qed.

End MPCSubsurface.

(** ** WaterTableColumnsEvaluator *)

Module WaterTableColumns.
Import Exc Evaluator.

(** *** The evaluator graph around the evaluator *)

(** Modelled from the spec: an Independent evaluator of the Evaluator
    Graph (its class is Amanzi's, outside these sources).  [version]
    counts the advances of the backing data source, [observed] holds the
    version each requester saw last. *)
Record Independent := {
  version : nat;
  observed : gmap string nat
}.

(** Modelled from the spec: [HasChanged] of an Independent evaluator,
    "true iff the backing data source advanced since the requester's
    last observation"; a requester that never observed the field has
    every version ahead of it. *)
Definition Independent_HasFieldChanged (e : Independent) (request : Key)
  : bool * Independent :=
  let seen := {| version := version e;
                 observed := <[request := version e]> (observed e) |} in
  match observed e !! request with
  | Some v => if Nat.eqb v (version e) then (false, e) else (true, seen)
  | None => (true, seen)
  end.

(** The backing data source of an Independent evaluator advances. *)
Definition advance (e : Independent) : Independent :=
  {| version := S (version e); observed := observed e |}.

(** The evaluator: its keys, the flag [updated_once_], and the state of
    its base class [SecondaryVariableFieldEvaluator]: the change token,
    the token each requester saw last, and [evaluations], the number of
    executions of [EvaluateField_] so far. *)
Record WaterTableColumnsEvaluator := {
  my_key_ : Key;
  temp_key_ : Key;
  sat_key_ : Key;
  updated_once_ : bool;
  token : nat;
  requests_ : gmap string nat;
  evaluations : nat
}.

(** The State as far as the evaluator pulls on it: its two dependencies
    and the evaluator itself. *)
Record Graph := {
  temperature : Independent;
  saturation_liquid : Independent;
  evaluator : WaterTableColumnsEvaluator
}.

Definition set_evaluator (G : Graph) (ev : WaterTableColumnsEvaluator) : Graph :=
  {| temperature := temperature G;
     saturation_liquid := saturation_liquid G;
     evaluator := ev |}.

(** Modelled from the spec: [UpdateField_] of the base class, which
    "recomputes the field (calling the pure function once over all
    entities/components)". *)
Definition UpdateField_ (G : Graph) : Graph :=
  let ev := evaluator G in
  set_evaluator G
    {| my_key_ := my_key_ ev; temp_key_ := temp_key_ ev; sat_key_ := sat_key_ ev;
       updated_once_ := updated_once_ ev; token := token ev;
       requests_ := requests_ ev; evaluations := S (evaluations ev) |}.

Definition bump_token (ev : WaterTableColumnsEvaluator)
  : WaterTableColumnsEvaluator :=
  {| my_key_ := my_key_ ev; temp_key_ := temp_key_ ev; sat_key_ := sat_key_ ev;
     updated_once_ := updated_once_ ev; token := S (token ev);
     requests_ := requests_ ev; evaluations := evaluations ev |}.

Definition observe (ev : WaterTableColumnsEvaluator) (request : Key)
  : WaterTableColumnsEvaluator :=
  {| my_key_ := my_key_ ev; temp_key_ := temp_key_ ev; sat_key_ := sat_key_ ev;
     updated_once_ := updated_once_ ev; token := token ev;
     requests_ := <[request := token ev]> (requests_ ev);
     evaluations := evaluations ev |}.

(** Modelled from the spec: [HasChanged] of a Secondary evaluator.  It
    "recursively asks each dependency [HasChanged]; if any dependency
    changed, recomputes the field [...], bumps the field's change token,
    and returns true; otherwise returns false without recomputation",
    where "per-requester observation state" lets a requester that has
    not seen the current token learn of it without a recomputation. *)
Definition SecondaryVariableFieldEvaluator_HasFieldChanged (G : Graph)
  (request : Key) : bool * Graph :=
  let me := my_key_ (evaluator G) in
  let '(changed_t, temp) := Independent_HasFieldChanged (temperature G) me in
  let '(changed_s, sat) := Independent_HasFieldChanged (saturation_liquid G) me in
  let G1 := {| temperature := temp; saturation_liquid := sat;
               evaluator := evaluator G |} in
  if changed_t || changed_s then
    let G2 := UpdateField_ G1 in
    (true, set_evaluator G2 (observe (bump_token (evaluator G2)) request))
  else
    match requests_ (evaluator G1) !! request with
    | Some tk =>
        if Nat.eqb tk (token (evaluator G1)) then (false, G1)
        else (true, set_evaluator G1 (observe (evaluator G1) request))
    | None => (true, set_evaluator G1 (observe (evaluator G1) request))
    end.

(** *** [WaterTableColumnsEvaluator::HasFieldChanged] *)

Definition set_updated_once (ev : WaterTableColumnsEvaluator)
  : WaterTableColumnsEvaluator :=
  {| my_key_ := my_key_ ev; temp_key_ := temp_key_ ev; sat_key_ := sat_key_ ev;
     updated_once_ := true; token := token ev;
     requests_ := requests_ ev; evaluations := evaluations ev |}.

Definition HasFieldChanged (G : Graph) (request : Key) : bool * Graph :=
  let '(changed, G1) := SecondaryVariableFieldEvaluator_HasFieldChanged G request in
  if negb (updated_once_ (evaluator G1)) then
    let G2 := UpdateField_ G1 in
    (true, set_evaluator G2 (set_updated_once (evaluator G2)))
  else (changed, G1).

(** [n] successive queries by one requester; the answers, last first. *)
Fixpoint queries (ask : Graph -> Key -> bool * Graph) (n : nat) (G : Graph)
  (request : Key) : list bool * Graph :=
  match n with
  | O => ([], G)
  | S n' =>
      let '(answers, G1) := queries ask n' G request in
      let '(answer, G2) := ask G1 request in
      (answer :: answers, G2)
  end.

(** *** Sample data *)

(** A freshly built evaluator of column 3 over dependencies that nobody
    has observed yet. *)
Definition fresh : Graph :=
  {| temperature := {| version := 0; observed := ∅ |};
     saturation_liquid := {| version := 0; observed := ∅ |};
     evaluator :=
       {| my_key_ := "column_3-water_table";
          temp_key_ := "column_3-temperature";
          sat_key_ := "column_3-saturation_liquid";
          updated_once_ := false; token := 0; requests_ := ∅;
          evaluations := 0 |} |}.


(** Nothing is left to report to [request]: the evaluator has seen the
    current version of both dependencies, [request] has seen the current
    token. *)
Definition quiet (G : Graph) (request : Key) : Prop :=
  observed (temperature G) !! my_key_ (evaluator G) = Some (version (temperature G)) /\
  observed (saturation_liquid G) !! my_key_ (evaluator G)
  = Some (version (saturation_liquid G)) /\
  requests_ (evaluator G) !! request = Some (token (evaluator G)).

(** *** Properties *)

Lemma Independent_HasFieldChanged_seen e request :
  let '(_, e') := Independent_HasFieldChanged e request in
  version e' = version e /\ observed e' !! request = Some (version e').
Proof.
  unfold Independent_HasFieldChanged.
  destruct (observed e !! request) as [v|] eqn:E.
  - destruct (Nat.eqb_spec v (version e)) as [->|Hne]; simpl.
    + now split.
    + split; [reflexivity|]. apply lookup_insert_eq.
  - simpl. split; [reflexivity|]. apply lookup_insert_eq.
Qed.

Lemma Independent_HasFieldChanged_quiet e request :
  observed e !! request = Some (version e) ->
  Independent_HasFieldChanged e request = (false, e).
Proof.
  intros E. unfold Independent_HasFieldChanged. rewrite E.
  now rewrite Nat.eqb_refl.
Qed.

(** The base class evaluates at most once in a query and leaves nothing
    to report. *)
Lemma Secondary_HasFieldChanged_once G request :
  let '(changed, G') := SecondaryVariableFieldEvaluator_HasFieldChanged G request in
  quiet G' request /\
  my_key_ (evaluator G') = my_key_ (evaluator G) /\
  updated_once_ (evaluator G') = updated_once_ (evaluator G) /\
  (evaluations (evaluator G') = evaluations (evaluator G) \/
   (changed = true /\
    evaluations (evaluator G') = S (evaluations (evaluator G)))).
Proof.
  unfold SecondaryVariableFieldEvaluator_HasFieldChanged, quiet.
  pose proof (Independent_HasFieldChanged_seen (temperature G)
                (my_key_ (evaluator G))) as Ht.
  pose proof (Independent_HasFieldChanged_seen (saturation_liquid G)
                (my_key_ (evaluator G))) as Hs.
  destruct (Independent_HasFieldChanged (temperature G) _) as [ct temp].
  destruct (Independent_HasFieldChanged (saturation_liquid G) _) as [cs sat].
  destruct Ht as [_ Ht], Hs as [_ Hs].
  destruct (ct || cs); simpl.
  - rewrite lookup_insert_eq. repeat split; auto.
  - destruct (requests_ (evaluator G) !! request) as [tk|] eqn:E; simpl.
    + destruct (Nat.eqb_spec tk (token (evaluator G))) as [->|Hne]; simpl.
      * repeat split; auto.
      * rewrite lookup_insert_eq. repeat split; auto.
    + rewrite lookup_insert_eq. repeat split; auto.
Qed.

Lemma Secondary_HasFieldChanged_quiet G request :
  quiet G request ->
  SecondaryVariableFieldEvaluator_HasFieldChanged G request = (false, G).
Proof.
  intros (Ht & Hs & Hr). unfold SecondaryVariableFieldEvaluator_HasFieldChanged.
  rewrite (Independent_HasFieldChanged_quiet _ _ Ht).
  rewrite (Independent_HasFieldChanged_quiet _ _ Hs). simpl.
  rewrite Hr, Nat.eqb_refl. now destruct G.
Qed.

(** With [updated_once_] unset, a query in which a dependency reports a
    change runs [EvaluateField_] twice. *)
Lemma HasFieldChanged_evaluates_twice G request :
  updated_once_ (evaluator G) = false ->
  (Independent_HasFieldChanged (temperature G) (my_key_ (evaluator G))).1
  || (Independent_HasFieldChanged (saturation_liquid G) (my_key_ (evaluator G))).1
  = true ->
  let '(changed, G') := HasFieldChanged G request in
  changed = true /\
  evaluations (evaluator G') = S (S (evaluations (evaluator G))).
Proof.
  intros Hu Hc. unfold HasFieldChanged,
    SecondaryVariableFieldEvaluator_HasFieldChanged.
  destruct (Independent_HasFieldChanged (temperature G) _) as [ct temp].
  destruct (Independent_HasFieldChanged (saturation_liquid G) _) as [cs sat].
  simpl in Hc. rewrite Hc. simpl. rewrite Hu. simpl. now split.
Qed.

(** After its first query the evaluator answers [false] to the same
    requester and evaluates no more, until a dependency advances. *)
Lemma HasFieldChanged_quiet G request :
  quiet G request -> updated_once_ (evaluator G) = true ->
  HasFieldChanged G request = (false, G).
Proof.
  intros Hq Hu. unfold HasFieldChanged.
  rewrite (Secondary_HasFieldChanged_quiet _ _ Hq). now rewrite Hu.
Qed.

Lemma HasFieldChanged_settles G request :
  let '(_, G') := HasFieldChanged G request in
  quiet G' request /\ updated_once_ (evaluator G') = true.
Proof.
  unfold HasFieldChanged.
  pose proof (Secondary_HasFieldChanged_once G request) as Hb.
  destruct (SecondaryVariableFieldEvaluator_HasFieldChanged G request) as [c G1].
  destruct Hb as (Hq & _ & _ & _).
  destruct (updated_once_ (evaluator G1)) eqn:Hu; simpl.
  - now split.
  - split; [exact Hq|reflexivity].
Qed.

(** C4: of four successive [HasFieldChanged] queries of one requester on a
    fresh [WaterTableColumnsEvaluator], with no dependency changing in
    between, the first runs [EvaluateField_] twice, once in the base
    class and once more in the forced update, and answers [true]; the
    three that follow answer [false] and run nothing.  The answers are
    listed latest first. *)
Theorem HasFieldChanged_first_query_evaluates_twice :
  let '(answers, G) := queries HasFieldChanged 4 fresh "pk" in
  answers = [false; false; false; true] /\
  evaluations (evaluator (HasFieldChanged fresh "pk").2) = 2 /\
  evaluations (evaluator G) = 2.
Proof. vm_compute. repeat split; reflexivity. Qed.

(** The base class alone runs it once on the same queries. *)
Example Secondary_HasFieldChanged_evaluates_once :
  let '(answers, G) :=
    queries SecondaryVariableFieldEvaluator_HasFieldChanged 4 fresh "pk" in
  answers = [false; false; false; true] /\ evaluations (evaluator G) = 1.
Proof. vm_compute. split; reflexivity. Qed.

End WaterTableColumns.

(** ** FATES_PK *)

Module FATES.
Import Double Exc.
Local Open Scope float_scope.

Record site_info := {
  nlevbed : Z;
  nlevdecomp : Z;
  patchno : Z;
  altmax_lastyear_indx_col : Z;
  temp_veg24_patch : float;
  latdeg : float;
  londeg : float
}.

Record PhotoSynthesisInput := {
  dayl_factor : float;
  esat_tv : float;
  eair : float;
  oair : float;
  cair : float;
  rb : float;
  t_veg : float;
  tgcm : float;
  solad : float * float;
  solai : float * float;
  albgrd : float * float;
  albgri : float * float
}.

Record TimeInput := {
  current_year : Z;
  current_month : Z;
  current_day : Z;
  current_tod : Z;
  current_date : Z;
  reference_date : Z;
  model_day : float;
  day_of_year : Z;
  days_per_year : Z
}.

(** The value an [int] takes for the result [z] of [int] arithmetic:
    [z] reduced to 32 bits in two's complement. *)
Definition int_wrap (z : Z) : Z :=
  ((z + 2147483648) mod 4294967296 - 2147483648)%Z.

(** The Fortran library behind [extern "C"], whose state is [F], the
    helpers [DayLength] and [QSat] of the vegetation headers, and the
    functions of [<cmath>] with the conversion of a double to [int]. *)
Class Library (F : Type) := {
  wrap_btran : F -> Z -> Z -> list float -> list float -> list float ->
               list float -> list float -> list float -> F;
  prep_canopyfluxes : F -> Z -> F;
  wrap_sunfrac : F -> Z -> Z -> float * float -> float * float -> F;
  wrap_canopy_radiation :
    F -> Z -> float -> Z -> float * float -> float * float -> F;
  wrap_photosynthesis :
    F -> Z -> float -> float -> Z -> list float -> PhotoSynthesisInput -> F;
  wrap_accumulatefluxes : F -> Z -> float -> F;
  dynamics_driv_per_site :
    F -> Z -> Z -> site_info -> TimeInput -> float -> list float ->
    float -> float -> float -> float -> F;
  DayLength : float -> Z -> float;
  qsat_es : float -> float -> float;
  floor : float -> float;
  ceil : float -> float;
  fmod : float -> float -> float;
  to_int : float -> Z
}.

(** The "cell" component of the fields of [S_next_], each a multivector,
    by key. *)
Abbreviation Fields := (gmap string (list (list float))).

(** [*S_next_->GetFieldData(key)->ViewComponent("cell", false)], vector
    [j]. *)
Definition cell_vector (S : Fields) (key : string) (j : nat)
  : Outcome (list float) :=
  v ← access (S !! key); access (v !! j).

Definition HasField (S : Fields) (key : string) : bool :=
  match S !! key with Some _ => true | None => false end.

Record FATES_PK := {
  precip_key_ : string;
  air_temp_key_ : string;
  humidity_key_ : string;
  wind_key_ : string;
  co2a_key_ : string;
  longwave_key_ : string;
  incident_rad_key_ : string;
  poro_key_ : string;
  sat_key_ : string;
  suc_key_ : string;
  soil_temp_key_ : string;
  salinity_key_ : string;
  dt_photosynthesis_ : float;
  dt_site_dym_ : float;
  t_photosynthesis_ : float;
  t_site_dym_ : float;
  surface_only_ : bool;
  ncomp_salt_ : nat;
  t_soil_ : list float;
  vsm_ : list float;
  poro_ : list float;
  eff_poro_ : list float;
  suc_ : list float;
  salinity_ : list float;
  ncells_owned_ : nat;
  ncells_per_col_ : nat;
  clump_ : Z;
  site_ : list site_info;
  time_input_ : TimeInput;
  (** the cells of column [col], top down: [ColIterator] over [mesh_] *)
  col_iter : nat -> list nat
}.

(** The six soil vectors of the kernel. *)
Record Soil := {
  s_t_soil : list float;
  s_vsm : list float;
  s_poro : list float;
  s_eff_poro : list float;
  s_suc : list float;
  s_salinity : list float
}.

(** [FATES_PK::FieldToColumn_(col, vec, col_vec + offset, ncol)]. *)
Fixpoint write_column (vec : list float) (cells : list nat) (at_ : nat)
  (col_vec : list float) : Outcome (list float) :=
  match cells with
  | [] => Return col_vec
  | cell :: rest =>
      x ← access (vec !! cell);
      write_column vec rest (S at_) (<[at_ := x]> col_vec)
  end.

Definition FieldToColumn_ (pk : FATES_PK) (col : nat) (vec : list float)
  (col_vec : list float) : Outcome (list float) :=
  write_column vec (col_iter pk col) (col * ncells_per_col_ pk) col_vec.

(** The body of the loop over the cells of the photosynthesis branch.
    The six vectors are sized by [Initialize] to hold every column, so the
    indexed stores are in range; [vsm_[i] *= poro_[i]] runs over two
    vectors of that same size. *)
Definition gather_soil (pk : FATES_PK) (S : Fields) (air_temp : list float)
  (c : nat) (soil : Soil) : Outcome Soil :=
  if surface_only_ pk then
    T ← access (air_temp !! c);
    let poro := <[c := 0.5]> (s_poro soil) in
    let poro_c := default 0.5 (poro !! c) in
    Return {| s_t_soil := <[c := T]> (s_t_soil soil);
              s_poro := poro;
              s_eff_poro := <[c := poro_c]> (s_eff_poro soil);
              s_vsm := <[c := 1 * poro_c]> (s_vsm soil);
              s_suc := <[c := 0]> (s_suc soil);
              s_salinity := <[c := 0]> (s_salinity soil) |}
  else
    t_soil ←
      (if HasField S (soil_temp_key_ pk) then
         temp_vec ← cell_vector S (soil_temp_key_ pk) 0;
         FieldToColumn_ pk c temp_vec (s_t_soil soil)
       else Return (s_t_soil soil));
    poro ←
      (if HasField S (poro_key_ pk) then
         poro_vec ← cell_vector S (poro_key_ pk) 0;
         FieldToColumn_ pk c poro_vec (s_poro soil)
       else Return (s_poro soil));
    let eff_poro := poro in
    vsm ←
      (if HasField S (sat_key_ pk) then
         h2osoil_vec ← cell_vector S (sat_key_ pk) 0;
         vsm ← FieldToColumn_ pk c h2osoil_vec (s_vsm soil);
         Return (zip_with (fun v p => v * p) vsm poro)
       else Return poro);
    suc ←
      (if HasField S (suc_key_ pk) then
         suc_vec ← cell_vector S (suc_key_ pk) 0;
         FieldToColumn_ pk c suc_vec (s_suc soil)
       else Return (map (fun _ => 0) (s_suc soil)));
    salinity ←
      (if HasField S (salinity_key_ pk) then
         salt_vec ← cell_vector S (salinity_key_ pk) (ncomp_salt_ pk);
         FieldToColumn_ pk c salt_vec (s_salinity soil)
       else Return (map (fun _ => 0) (s_salinity soil)));
    Return {| s_t_soil := t_soil; s_poro := poro; s_eff_poro := eff_poro;
              s_vsm := vsm; s_suc := suc; s_salinity := salinity |}.

Fixpoint gather_soil_loop (pk : FATES_PK) (S : Fields) (air_temp : list float)
  (cells : list nat) (soil : Soil) : Outcome Soil :=
  match cells with
  | [] => Return soil
  | c :: rest =>
      soil' ← gather_soil pk S air_temp c soil;
      gather_soil_loop pk S air_temp rest soil'
  end.

(** [days_month] after the loop that accumulates it; its entries are whole
    numbers held in doubles. *)
Definition days_month : list Z :=
  [31; 59; 90; 120; 151; 181; 212; 243; 273; 304; 334; 365]%Z.

(** [for (i = 11; i >= 0; i--)]: the month [mi] and the day [dom]. *)
Definition month_and_day (doy : Z) : Z * Z :=
  fold_left
    (fun '(mi, dom) i =>
       if (doy <=? nth i days_month 0)%Z then
         (Z.of_nat i + 1,
          if (0 <? Z.of_nat i)%Z then doy - nth (i - 1) days_month 0 else doy)%Z
       else (mi, dom))
    (rev (seq 0 12)) (1, 1)%Z.

Section AdvanceStep.
Context {F : Type} `{Library F}.

(** The photosynthesis branch after the loop over the cells. *)
Definition photosynthesis (pk : FATES_PK) (lib : F)
  (atmospheric_pressure : option float) (doy : Z) (soil : Soil)
  (air_temp humidity co2a wind incident_rad longwave_rad : list float)
  : Outcome F :=
  let array_size := Z.of_nat (length (s_t_soil soil)) in
  let lib1 := wrap_btran lib (clump_ pk) array_size (s_t_soil soil)
                (s_poro soil) (s_eff_poro soil) (s_vsm soil) (s_suc soil)
                (s_salinity soil) in
  let radnum := 2%Z in
  patm ← access atmospheric_pressure;
  site0 ← access (site_ pk !! 0%nat);
  air_temp0 ← access (air_temp !! 0%nat);
  let es := qsat_es air_temp0 patm in
  humidity0 ← access (humidity !! 0%nat);
  let o2a := 209460.0 in
  co2a0 ← access (co2a !! 0%nat);
  wind0 ← access (wind !! 0%nat);
  incident_rad0 ← access (incident_rad !! 0%nat);
  longwave_rad0 ← access (longwave_rad !! 0%nat);
  let photo_input :=
    {| dayl_factor := DayLength (latdeg site0) doy / (60.0 * 24);
       esat_tv := es;
       eair := humidity0 * es;
       oair := o2a * patm * 1e-6;
       cair := co2a0 * patm * 1e-6;
       rb := fmin 10 (1 / wind0);
       t_veg := air_temp0;
       tgcm := air_temp0;
       albgrd := (0.15, 0.15);
       albgri := (0.1, 0.1);
       solad := (0.8 * incident_rad0, 0.2 * longwave_rad0);
       solai := (0.8 * incident_rad0, 0.2 * longwave_rad0) |} in
  let jday := double_of_int doy in
  let lib2 := prep_canopyfluxes lib1 (clump_ pk) in
  let lib3 := wrap_sunfrac lib2 (clump_ pk) radnum (solad photo_input)
                (solai photo_input) in
  let lib4 := wrap_canopy_radiation lib3 (clump_ pk) jday radnum
                (albgrd photo_input) (albgri photo_input) in
  let lib5 := wrap_photosynthesis lib4 (clump_ pk) (dt_photosynthesis_ pk) patm
                array_size (s_t_soil soil) photo_input in
  Return (wrap_accumulatefluxes lib5 (clump_ pk) (dt_photosynthesis_ pk)).

(** The loop over the cells of the vegetation-dynamics branch. *)
Fixpoint dynamics_loop (pk : FATES_PK) (time_input : TimeInput) (dtime : float)
  (vsm air_temp precip_rain wind humidity : list float)
  (cells : list nat) (lib : F) (site : list site_info)
  : Outcome (F * list site_info) :=
  match cells with
  | [] => Return (lib, site)
  | c :: rest =>
      let s := (Z.of_nat c + 1)%Z in
      T ← access (air_temp !! c);
      site_c ← access (site !! c);
      let site_c' :=
        {| nlevbed := nlevbed site_c; nlevdecomp := nlevdecomp site_c;
           patchno := patchno site_c;
           altmax_lastyear_indx_col := altmax_lastyear_indx_col site_c;
           temp_veg24_patch := T;
           latdeg := latdeg site_c; londeg := londeg site_c |} in
      prec ← access (precip_rain !! c);
      w ← access (wind !! c);
      rh ← access (humidity !! c);
      let lib' :=
        dynamics_driv_per_site lib (clump_ pk) s site_c' time_input dtime
          (drop (c * ncells_per_col_ pk) vsm) T prec rh w in
      dynamics_loop pk time_input dtime vsm air_temp precip_rain wind humidity
        rest lib' (<[c := site_c']> site)
  end.

(** [FATES_PK::AdvanceStep(t_old, t_new, reinit)].  [S_next] holds the
    fields as the [HasFieldChanged] calls leave them, [atmospheric_pressure]
    is the scalar of that name when the State has it, [S_inter_time] is
    [S_inter_->time()].  What is written to [std::cout] is left out.  The
    [int]s [doy], [current_year] and [current_tod] are conversions of a
    double, [current_date] is [int] arithmetic.  The result is the kernel
    and the library as the call leaves them, and the returned [bool]. *)
Definition AdvanceStep (pk : FATES_PK) (lib : F) (S_next : Fields)
  (atmospheric_pressure : option float) (S_inter_time : float)
  (t_old t_new : float) (reinit : bool) : Outcome (FATES_PK * F * bool) :=
  let dtime := t_new - t_old in
  precip_rain ← cell_vector S_next (precip_key_ pk) 0;
  wind ← cell_vector S_next (wind_key_ pk) 0;
  humidity ← cell_vector S_next (humidity_key_ pk) 0;
  air_temp ← cell_vector S_next (air_temp_key_ pk) 0;
  co2a ← cell_vector S_next (co2a_key_ pk) 0;
  longwave_rad ← cell_vector S_next (longwave_key_ pk) 0;
  incident_rad ← cell_vector S_next (incident_rad_key_ pk) 0;
  let run_photo :=
    abs (t_new - (t_photosynthesis_ pk + dt_photosynthesis_ pk)) <? 1e-12 * t_new in
  let run_veg_dym :=
    abs (t_new - (t_site_dym_ pk + dt_site_dym_ pk)) <? 1e-12 * t_new in
  let t_days := S_inter_time / 86400 in
  let doy := to_int (floor (fmod t_days 365) + 1) in
  let soil0 :=
    {| s_t_soil := t_soil_ pk; s_vsm := vsm_ pk; s_poro := poro_ pk;
       s_eff_poro := eff_poro_ pk; s_suc := suc_ pk;
       s_salinity := salinity_ pk |} in
  '(soil, lib1, t_photosynthesis) ←
    (if run_photo then
       soil ← gather_soil_loop pk S_next air_temp (seq 0 (ncells_owned_ pk)) soil0;
       lib1 ← photosynthesis pk lib atmospheric_pressure doy soil
                air_temp humidity co2a wind incident_rad longwave_rad;
       Return (soil, lib1, t_new)
     else Return (soil0, lib, t_photosynthesis_ pk));
  let '(mi, dom) := month_and_day doy in
  let year := to_int (1990 + ceil (t_days / 365.0)) in
  let time_input :=
    {| current_year := year;
       current_month := mi;
       current_day := dom;
       current_tod := to_int (86400.0 * (t_days - floor t_days));
       current_date := int_wrap (year * 10000 + mi * 100 + dom);
       reference_date := reference_date (time_input_ pk);
       model_day := ceil t_days;
       day_of_year := doy;
       days_per_year := days_per_year (time_input_ pk) |} in
  '(lib2, site, t_site_dym) ←
    (if run_veg_dym then
       '(lib2, site) ←
         dynamics_loop pk time_input dtime (s_vsm soil) air_temp precip_rain
           wind humidity (seq 0 (ncells_owned_ pk)) lib1 (site_ pk);
       Return (lib2, site, t_new)
     else Return (lib1, site_ pk, t_site_dym_ pk));
  Return
    ({| precip_key_ := precip_key_ pk; air_temp_key_ := air_temp_key_ pk;
        humidity_key_ := humidity_key_ pk; wind_key_ := wind_key_ pk;
        co2a_key_ := co2a_key_ pk; longwave_key_ := longwave_key_ pk;
        incident_rad_key_ := incident_rad_key_ pk; poro_key_ := poro_key_ pk;
        sat_key_ := sat_key_ pk; suc_key_ := suc_key_ pk;
        soil_temp_key_ := soil_temp_key_ pk;
        salinity_key_ := salinity_key_ pk;
        dt_photosynthesis_ := dt_photosynthesis_ pk;
        dt_site_dym_ := dt_site_dym_ pk;
        t_photosynthesis_ := t_photosynthesis;
        t_site_dym_ := t_site_dym;
        surface_only_ := surface_only_ pk; ncomp_salt_ := ncomp_salt_ pk;
        t_soil_ := s_t_soil soil; vsm_ := s_vsm soil; poro_ := s_poro soil;
        eff_poro_ := s_eff_poro soil; suc_ := s_suc soil;
        salinity_ := s_salinity soil;
        ncells_owned_ := ncells_owned_ pk;
        ncells_per_col_ := ncells_per_col_ pk; clump_ := clump_ pk;
        site_ := site; time_input_ := time_input; col_iter := col_iter pk |},
     lib2, false).

End AdvanceStep.

(** *** A library to run the kernel against

    Every entry point of the library appends its name to the log; day
    length and saturated vapour pressure are constants; the functions of
    [<cmath>] are computed on the binary64 representation. *)

Definition truncate (x : float) : Z :=
  match Prim2SF x with
  | SpecFloat.S754_finite s m e =>
      let n := (if (0 <=? e)%Z then Z.shiftl (Z.pos m) e
                else Z.shiftr (Z.pos m) (- e))%Z in
      if s then (- n)%Z else n
  | _ => 0%Z
  end.

Definition floorZ (x : float) : Z :=
  let n := truncate x in
  if x <? double_of_int n then (n - 1)%Z else n.

Definition ceilZ (x : float) : Z :=
  let n := truncate x in
  if double_of_int n <? x then (n + 1)%Z else n.

#[local] Instance logging : Library (list string) := {
  wrap_btran log _ _ _ _ _ _ _ _ := log ++ ["wrap_btran"%string];
  prep_canopyfluxes log _ := log ++ ["prep_canopyfluxes"%string];
  wrap_sunfrac log _ _ _ _ := log ++ ["wrap_sunfrac"%string];
  wrap_canopy_radiation log _ _ _ _ _ :=
    log ++ ["wrap_canopy_radiation"%string];
  wrap_photosynthesis log _ _ _ _ _ _ := log ++ ["wrap_photosynthesis"%string];
  wrap_accumulatefluxes log _ _ := log ++ ["wrap_accumulatefluxes"%string];
  dynamics_driv_per_site log _ _ _ _ _ _ _ _ _ _ :=
    log ++ ["dynamics_driv_per_site"%string];
  DayLength _ _ := 720;
  qsat_es _ _ := 611;
  floor x := double_of_int (floorZ x);
  ceil x := double_of_int (ceilZ x);
  fmod x y := x - y * double_of_int (truncate (x / y));
  to_int := truncate
}.

Definition site0 : site_info :=
  {| nlevbed := 2; nlevdecomp := 1; patchno := 1;
     altmax_lastyear_indx_col := 1; temp_veg24_patch := 0;
     latdeg := 35.9; londeg := 84.3 |}.

Definition time0 : TimeInput :=
  {| current_year := 0; current_month := 0; current_day := 0;
     current_tod := 0; current_date := 0; reference_date := 0;
     model_day := 0; day_of_year := 0; days_per_year := 365 |}.

(** Two columns of two cells each; photosynthesis every half hour,
    vegetation dynamics every day. *)
Definition pk_columns (surface_only : bool) : FATES_PK :=
  {| precip_key_ := "surface-precipitation_rain";
     air_temp_key_ := "surface-air_temperature";
     humidity_key_ := "surface-relative_humidity";
     wind_key_ := "surface-wind_speed";
     co2a_key_ := "surface-co2a";
     longwave_key_ := "surface-longwave_radiation";
     incident_rad_key_ := "surface-incident_radiation";
     poro_key_ := "porosity";
     sat_key_ := "saturation_liquid";
     suc_key_ := "suction_head";
     soil_temp_key_ := "temperature";
     salinity_key_ := "total_component_concentration";
     dt_photosynthesis_ := 1800;
     dt_site_dym_ := 86400;
     t_photosynthesis_ := 84600;
     t_site_dym_ := 0;
     surface_only_ := surface_only;
     ncomp_salt_ := 0;
     t_soil_ := if surface_only then [0; 0] else [0; 0; 0; 0];
     vsm_ := if surface_only then [0; 0] else [0; 0; 0; 0];
     poro_ := if surface_only then [0; 0] else [0; 0; 0; 0];
     eff_poro_ := if surface_only then [0; 0] else [0; 0; 0; 0];
     suc_ := if surface_only then [0; 0] else [0; 0; 0; 0];
     salinity_ := if surface_only then [0; 0] else [0; 0; 0; 0];
     ncells_owned_ := 2;
     ncells_per_col_ := if surface_only then 1 else 2;
     clump_ := 1;
     site_ := [site0; site0];
     time_input_ := time0;
     col_iter := fun col => [col; (col + 2)%nat] |}.

Definition S_weather : Fields :=
  {[ "surface-precipitation_rain"%string := [[0; 1e-6]];
     "surface-air_temperature"%string := [[280; 285]];
     "surface-relative_humidity"%string := [[0.5; 0.6]];
     "surface-wind_speed"%string := [[2; 4]];
     "surface-co2a"%string := [[400; 400]];
     "surface-longwave_radiation"%string := [[300; 310]];
     "surface-incident_radiation"%string := [[100; 120]] ]}.

Definition S_soil : Fields :=
  <[ "porosity"%string := [[0.4; 0.5; 0.3; 0.25]] ]>
  (<[ "saturation_liquid"%string := [[0.5; 1; 1; 1]] ]>
   (<[ "temperature"%string := [[281; 282; 279; 278]] ]> S_weather)).

(** What [AdvanceStep] needs of the State and of the kernel to run to its
    end: a "cell" view of the weather field [key] that covers the owned
    cells and has an entry 0; *)
Definition weather_field (pk : FATES_PK) (S : Fields) (key : string) : Prop :=
  exists v, cell_vector S key 0 = Return v
            /\ (ncells_owned_ pk <= length v)%nat /\ (0 < length v)%nat.

(** for a subsurface field that is in the State, vector [j] of its "cell"
    view covering the cells of every owned column. *)
Definition column_field (pk : FATES_PK) (S : Fields) (key : string) (j : nat)
  : Prop :=
  HasField S key = true ->
  exists v, cell_vector S key j = Return v
            /\ forall c cell, (c < ncells_owned_ pk)%nat ->
                 cell ∈ col_iter pk c -> (cell < length v)%nat.

Record runnable (pk : FATES_PK) (S : Fields) : Prop := {
  run_precip : weather_field pk S (precip_key_ pk);
  run_wind : weather_field pk S (wind_key_ pk);
  run_humidity : weather_field pk S (humidity_key_ pk);
  run_air_temp : weather_field pk S (air_temp_key_ pk);
  run_co2a : weather_field pk S (co2a_key_ pk);
  run_longwave : weather_field pk S (longwave_key_ pk);
  run_incident_rad : weather_field pk S (incident_rad_key_ pk);
  run_sites : (ncells_owned_ pk <= length (site_ pk))%nat
              /\ (0 < length (site_ pk))%nat;
  run_soil_temp : column_field pk S (soil_temp_key_ pk) 0;
  run_poro : column_field pk S (poro_key_ pk) 0;
  run_sat : column_field pk S (sat_key_ pk) 0;
  run_suc : column_field pk S (suc_key_ pk) 0;
  run_salinity : column_field pk S (salinity_key_ pk) (ncomp_salt_ pk)
}.

(** *** Properties *)

Lemma bind_returns {A B} (m : Outcome A) (k : A -> Outcome B) (b : B) :
  m ≫= k = Return b -> exists a, m = Return a /\ k a = Return b.
Proof.
  destruct m as [a | e]; simpl; [ | discriminate ].
  intros E. now exists a.
Qed.

Lemma access_returns {A} (l : list A) (i : nat) :
  (i < length l)%nat -> exists a, access (l !! i) = Return a.
Proof.
  intros Hi. destruct (lookup_lt_is_Some_2 l i Hi) as [a ->]. now exists a.
Qed.

Lemma write_column_returns (vec : list float) (cells : list nat) (at_ : nat)
  (col_vec : list float) :
  (forall cell, cell ∈ cells -> (cell < length vec)%nat) ->
  exists r, write_column vec cells at_ col_vec = Return r.
Proof.
  revert at_ col_vec.
  induction cells as [ | cell rest IH ]; intros at_ col_vec Hin; simpl.
  - now eexists.
  - destruct (access_returns vec cell) as [x ->]; [ apply Hin; left | ].
    simpl. apply IH. intros c Hc. apply Hin. now right.
Qed.

Lemma column_stage_returns (pk : FATES_PK) (S : Fields) (key : string)
  (j c : nat) (dest other : list float) :
  column_field pk S key j -> (c < ncells_owned_ pk)%nat ->
  exists r,
    (if HasField S key
     then v ← cell_vector S key j; FieldToColumn_ pk c v dest
     else Return other) = Return r.
Proof.
  intros Hf Hc. unfold column_field in Hf.
  destruct (HasField S key); [ | now eexists ].
  destruct Hf as (v & -> & Hv); [ reflexivity | ]. simpl.
  apply write_column_returns. intros cell. now apply Hv.
Qed.

Lemma gather_soil_returns (pk : FATES_PK) (S : Fields) (air_temp : list float)
  (c : nat) (soil : Soil) :
  runnable pk S -> (c < ncells_owned_ pk)%nat ->
  (ncells_owned_ pk <= length air_temp)%nat ->
  exists soil', gather_soil pk S air_temp c soil = Return soil'.
Proof.
  intros R Hc Ha. unfold gather_soil. destruct (surface_only_ pk).
  - destruct (access_returns air_temp c) as [T ->]; [ lia | ]. now eexists.
  - destruct (column_stage_returns pk S _ 0 c (s_t_soil soil) (s_t_soil soil)
                (run_soil_temp _ _ R) Hc) as [t_soil ->].
    destruct (column_stage_returns pk S _ 0 c (s_poro soil) (s_poro soil)
                (run_poro _ _ R) Hc) as [poro ->].
    simpl.
    assert (exists vsm,
      (if HasField S (sat_key_ pk)
       then h2osoil_vec ← cell_vector S (sat_key_ pk) 0;
            vsm ← FieldToColumn_ pk c h2osoil_vec (s_vsm soil);
            Return (zip_with (fun v p => v * p) vsm poro)
       else Return poro) = Return vsm) as [vsm ->].
    { pose proof (run_sat _ _ R) as Hf. unfold column_field in Hf.
      destruct (HasField S (sat_key_ pk)); [ | now eexists ].
      destruct Hf as (v & -> & Hv); [ reflexivity | ]. simpl.
      destruct (write_column_returns v (col_iter pk c)
                  (c * ncells_per_col_ pk) (s_vsm soil)) as [r Hr].
      - intros cell. now apply Hv.
      - unfold FieldToColumn_. rewrite Hr. now eexists. }
    destruct (column_stage_returns pk S _ 0 c (s_suc soil)
                (map (fun _ => 0) (s_suc soil))
                (run_suc _ _ R) Hc) as [suc ->].
    destruct (column_stage_returns pk S _ (ncomp_salt_ pk) c (s_salinity soil)
                (map (fun _ => 0) (s_salinity soil))
                (run_salinity _ _ R) Hc) as [salinity ->].
    now eexists.
Qed.

Lemma gather_soil_loop_returns (pk : FATES_PK) (S : Fields)
  (air_temp : list float) (cells : list nat) (soil : Soil) :
  runnable pk S -> (ncells_owned_ pk <= length air_temp)%nat ->
  (forall c, c ∈ cells -> (c < ncells_owned_ pk)%nat) ->
  exists soil', gather_soil_loop pk S air_temp cells soil = Return soil'.
Proof.
  intros R Ha. revert soil.
  induction cells as [ | c rest IH ]; intros soil Hin; simpl.
  - now eexists.
  - destruct (gather_soil_returns pk S air_temp c soil R) as [soil' ->];
      [ apply Hin; left | assumption | ].
    simpl. apply IH. intros c' Hc'. apply Hin. now right.
Qed.

Section Properties.
Context {F : Type} `{Library F}.

Lemma photosynthesis_returns (pk : FATES_PK) (lib : F) (patm : float)
  (doy : Z) (soil : Soil)
  (air_temp humidity co2a wind incident_rad longwave_rad : list float) :
  (0 < length (site_ pk))%nat ->
  (0 < length air_temp)%nat -> (0 < length humidity)%nat ->
  (0 < length co2a)%nat -> (0 < length wind)%nat ->
  (0 < length incident_rad)%nat -> (0 < length longwave_rad)%nat ->
  exists lib',
    photosynthesis pk lib (Some patm) doy soil air_temp humidity co2a wind
      incident_rad longwave_rad = Return lib'.
Proof.
  intros Hs Ha Hh Hc Hw Hi Hl. unfold photosynthesis. simpl.
  destruct (access_returns _ _ Hs) as [? ->]. simpl.
  destruct (access_returns _ _ Ha) as [? ->]. simpl.
  destruct (access_returns _ _ Hh) as [? ->]. simpl.
  destruct (access_returns _ _ Hc) as [? ->]. simpl.
  destruct (access_returns _ _ Hw) as [? ->]. simpl.
  destruct (access_returns _ _ Hi) as [? ->]. simpl.
  destruct (access_returns _ _ Hl) as [? ->]. simpl.
  now eexists.
Qed.

Lemma dynamics_loop_returns (pk : FATES_PK) (time_input : TimeInput)
  (dtime : float) (vsm air_temp precip_rain wind humidity : list float)
  (cells : list nat) (lib : F) (site : list site_info) (n : nat) :
  (n <= length air_temp)%nat -> (n <= length precip_rain)%nat ->
  (n <= length wind)%nat -> (n <= length humidity)%nat ->
  (n <= length site)%nat ->
  (forall c, c ∈ cells -> (c < n)%nat) ->
  exists r,
    dynamics_loop pk time_input dtime vsm air_temp precip_rain wind humidity
      cells lib site = Return r.
Proof.
  intros Ha Hp Hw Hh. revert lib site.
  induction cells as [ | c rest IH ]; intros lib site Hs Hin; simpl.
  - now eexists.
  - assert (c < n)%nat as Hc by (apply Hin; left).
    destruct (access_returns air_temp c) as [? ->]; [ lia | ]. simpl.
    destruct (access_returns site c) as [? ->]; [ lia | ]. simpl.
    destruct (access_returns precip_rain c) as [? ->]; [ lia | ]. simpl.
    destruct (access_returns wind c) as [? ->]; [ lia | ]. simpl.
    destruct (access_returns humidity c) as [? ->]; [ lia | ]. simpl.
    apply IH.
    + now rewrite length_insert.
    + intros c' Hc'. apply Hin. now right.
Qed.

(** [AdvanceStep] runs to its [return] on a kernel and a State that are
    [runnable], once the atmospheric pressure is in the State. *)
Lemma AdvanceStep_returns (pk : FATES_PK) (lib : F) (S_next : Fields)
  (patm S_inter_time t_old t_new : float) (reinit : bool) :
  runnable pk S_next ->
  exists r,
    AdvanceStep pk lib S_next (Some patm) S_inter_time t_old t_new reinit
      = Return r.
Proof.
  intros R. unfold AdvanceStep.
  destruct (run_precip _ _ R) as (precip_rain & -> & Hp & Hp0).
  destruct (run_wind _ _ R) as (wind & -> & Hw & Hw0).
  destruct (run_humidity _ _ R) as (humidity & -> & Hh & Hh0).
  destruct (run_air_temp _ _ R) as (air_temp & -> & Ha & Ha0).
  destruct (run_co2a _ _ R) as (co2a & -> & Hc & Hc0).
  destruct (run_longwave _ _ R) as (longwave_rad & -> & Hl & Hl0).
  destruct (run_incident_rad _ _ R) as (incident_rad & -> & Hi & Hi0).
  destruct (run_sites _ _ R) as [Hs Hs0].
  cbn [mbind Outcome_bind].
  set (soil0 := {| s_t_soil := t_soil_ pk |}).
  set (doy := to_int (floor (fmod (S_inter_time / 86400) 365) + 1)).
  assert (forall c, c ∈ seq 0 (ncells_owned_ pk) -> (c < ncells_owned_ pk)%nat)
    as Hseq by (intros c Hc'; apply elem_of_seq in Hc'; lia).
  destruct (abs (t_new - (t_photosynthesis_ pk + dt_photosynthesis_ pk))
            <? 1e-12 * t_new).
  - destruct (gather_soil_loop_returns pk S_next air_temp
                (seq 0 (ncells_owned_ pk)) soil0 R Ha Hseq) as [soil ->].
    cbn [mbind Outcome_bind].
    destruct (photosynthesis_returns pk lib patm doy soil air_temp humidity
                co2a wind incident_rad longwave_rad) as [lib1 ->]; try assumption.
    cbn [mbind Outcome_bind mret Outcome_ret].
    destruct (month_and_day doy) as [mi dom].
    destruct (abs (t_new - (t_site_dym_ pk + dt_site_dym_ pk)) <? 1e-12 * t_new).
    + match goal with
      | |- context [dynamics_loop ?a ?b ?c ?d ?e ?f ?g ?h ?i ?j ?k] =>
          destruct (dynamics_loop_returns a b c d e f g h i j k
                      (ncells_owned_ pk)) as [[lib2 site] ->]; try assumption
      end.
      now eexists.
    + now eexists.
  - cbn [mbind Outcome_bind mret Outcome_ret].
    destruct (month_and_day doy) as [mi dom].
    destruct (abs (t_new - (t_site_dym_ pk + dt_site_dym_ pk)) <? 1e-12 * t_new).
    + match goal with
      | |- context [dynamics_loop ?a ?b ?c ?d ?e ?f ?g ?h ?i ?j ?k] =>
          destruct (dynamics_loop_returns a b c d e f g h i j k
                      (ncells_owned_ pk)) as [[lib2 site] ->]; try assumption
      end.
      now eexists.
    + now eexists.
Qed.

(** C10: every invocation of [FATES_PK::AdvanceStep] that returns, returns
    [false]: whichever of the photosynthesis and vegetation-dynamics
    branches ran, and whatever the library did, the call never reports a
    failed step. *)
Theorem AdvanceStep_returns_false (pk : FATES_PK) (lib : F) (S_next : Fields)
  (atmospheric_pressure : option float) (S_inter_time t_old t_new : float)
  (reinit : bool) (pk' : FATES_PK) (lib' : F) (failed : bool) :
  AdvanceStep pk lib S_next atmospheric_pressure S_inter_time t_old t_new reinit
    = Return (pk', lib', failed) ->
  failed = false.
Proof.
  unfold AdvanceStep. intros E.
  repeat (apply bind_returns in E as (? & _ & E)).
  repeat match type of E with
         | context [let '(_, _) := ?x in _] => destruct x
         end.
  apply bind_returns in E as (? & _ & E).
  repeat match type of E with
         | context [let '(_, _) := ?x in _] => destruct x
         end.
  now injection E.
Qed.

End Properties.

(** Both branches run at [t_new = 86400] on the two surface-only columns. *)
Lemma AdvanceStep_returns_false_witness :
  exists pk' lib',
    AdvanceStep (pk_columns true) [] S_weather (Some 101325) 0 84600 86400 false
      = Return (pk', lib', false)
    /\ lib' = ["wrap_btran"; "prep_canopyfluxes"; "wrap_sunfrac";
               "wrap_canopy_radiation"; "wrap_photosynthesis";
               "wrap_accumulatefluxes"; "dynamics_driv_per_site";
               "dynamics_driv_per_site"]%string.
Proof.
  destruct (AdvanceStep (pk_columns true) [] S_weather (Some 101325) 0 84600
              86400 false) as [[[pk' lib'] failed] | e] eqn:E.
  - exists pk', lib'. split.
    + now rewrite (AdvanceStep_returns_false _ _ _ _ _ _ _ _ _ _ _ E).
    + vm_compute in E. now injection E.
  - vm_compute in E. discriminate.
Defined.

(** With the subsurface fields in the State the columns are gathered
    first; nothing else changes in what is returned. *)
Example AdvanceStep_subsurface_columns :
  (fun r => (r.1.2, r.2))
    <$> AdvanceStep (pk_columns false) [] S_soil (Some 101325) 0 84600 86400
          false
  = Return (["wrap_btran"; "prep_canopyfluxes"; "wrap_sunfrac";
             "wrap_canopy_radiation"; "wrap_photosynthesis";
             "wrap_accumulatefluxes"; "dynamics_driv_per_site";
             "dynamics_driv_per_site"]%string, false).
Proof. vm_compute. reflexivity. Qed.

(** Between two photosynthesis steps neither branch runs, and the call
    still returns [false]. *)
Example AdvanceStep_idle :
  (fun r => (r.1.2, r.2))
    <$> AdvanceStep (pk_columns true) [] S_weather (Some 101325) 0 84600 85000
          false
  = Return ([], false).
Proof. vm_compute. reflexivity. Qed.

(** Without the weather fields the call does not return. *)
Example AdvanceStep_missing_field :
  AdvanceStep (pk_columns true) [] (∅ : Fields) (Some 101325) 0 84600 86400
    false
  = Raise InvalidAccess.
Proof. vm_compute. reflexivity. Qed.

End FATES.

(** ** Outcomes: inversion *)

Module ExcFacts.
Import Exc.

(** A bind that returns: its first part returned, and so did the rest. *)
Lemma bind_Return {A B} (m : Outcome A) (k : A -> Outcome B) (b : B) :
  m ≫= k = Return b -> exists a, m = Return a /\ k a = Return b.
Proof.
  destruct m as [a | e]; simpl; [ | discriminate ].
  intros E. now exists a.
Qed.

End ExcFacts.

(** ** EnergyBase: boundary conditions *)

Module EnergyBaseBC.
Import Double Vec EnergyBase Evaluator.
Local Open Scope float_scope.

(** The two [Operators::BCs] objects of the kernel, [bc_] and [bc_adv_]:
    [markers] and [values] are [bc_markers()] and [bc_values()],
    [adv_markers] and [adv_values] are [bc_adv_->bc_model()] and
    [bc_adv_->bc_value()], all indexed by face. *)
Record Tables := {
  markers : list OperatorBC;
  values : list float;
  adv_markers : list OperatorBC;
  adv_values : list float
}.

(** What [UpdateBoundaryConditions_] reads from the kernel: the three
    boundary functions as the (face, value) pairs their iterators yield,
    the coupling flags, the surface mesh ([entity_get_parent] of a surface
    cell), the mesh, and Amanzi's [applyDirichletBCs]. *)
Record Kernel := {
  key_ : Key;
  ss_flux_key_ : Key;
  bc_temperature_ : list (nat * float);
  bc_flux_ : list (nat * float);
  bc_diff_flux_ : list (nat * float);
  coupled_to_surface_via_temp_ : bool;
  coupled_to_surface_via_flux_ : bool;
  entity_get_parent : nat -> nat;
  face_area : nat -> float;
  face_get_cells : nat -> list nat;
  nfaces_owned : nat;
  applyDirichletBCs : list OperatorBC -> list float -> CompositeVector -> CompositeVector
}.

(** [markers[f] = m; values[f] = v; adv_markers[f] = am;].  The source
    indexes the [std::vector]s unchecked; here a face past the end of a
    table is not stored, and the theorems on single faces take the face
    within the tables. *)
Definition assign (t : Tables) (a : nat * OperatorBC * float * OperatorBC)
  : Tables :=
  let '(f, m, v, am) := a in
  {| markers := <[f := m]> (markers t);
     values := <[f := v]> (values t);
     adv_markers := <[f := am]> (adv_markers t);
     adv_values := adv_values t |}.

(** The first loop, over [n < markers.size()]. *)
Definition reset (t : Tables) : Tables :=
  foldl (fun t n =>
           {| markers := <[n := OPERATOR_BC_NONE]> (markers t);
              values := <[n := 0]> (values t);
              adv_markers := <[n := OPERATOR_BC_NONE]> (adv_markers t);
              adv_values := <[n := 0]> (adv_values t) |})
        t (seq 0 (length (markers t))).

(** The loops over the three boundary functions. *)
Definition temperature_faces (k : Kernel)
  : list (nat * OperatorBC * float * OperatorBC) :=
  map (fun bc => (bc.1, OPERATOR_BC_DIRICHLET, bc.2, OPERATOR_BC_DIRICHLET))
      (bc_temperature_ k).

Definition flux_faces (k : Kernel)
  : list (nat * OperatorBC * float * OperatorBC) :=
  map (fun bc => (bc.1, OPERATOR_BC_NEUMANN, bc.2, OPERATOR_BC_NEUMANN))
      (bc_flux_ k).

Definition diff_flux_faces (k : Kernel)
  : list (nat * OperatorBC * float * OperatorBC) :=
  map (fun bc => (bc.1, OPERATOR_BC_NEUMANN, bc.2, OPERATOR_BC_DIRICHLET))
      (bc_diff_flux_ k).

(** The loops over the cells of the coupled surface. *)
Definition surface_temperature_faces (k : Kernel) (temp : list float)
  : list (nat * OperatorBC * float * OperatorBC) :=
  imap (fun c T => (entity_get_parent k c, OPERATOR_BC_DIRICHLET, T,
                    OPERATOR_BC_DIRICHLET)) temp.

Definition surface_flux_faces (k : Kernel) (flux : list float)
  : list (nat * OperatorBC * float * OperatorBC) :=
  imap (fun c q =>
          let f := entity_get_parent k c in
          (f, OPERATOR_BC_NEUMANN, q / face_area k f, OPERATOR_BC_DIRICHLET))
       flux.

(** The last loop: every owned face that is still unmarked and has one
    cell gets a zero diffusive flux. *)
Definition zero_flux (k : Kernel) (t : Tables) (f : nat) : Tables :=
  if bool_decide (markers t !! f = Some OPERATOR_BC_NONE)
     && bool_decide (length (face_get_cells k f) = 1%nat)
  then assign t (f, OPERATOR_BC_NEUMANN, 0, OPERATOR_BC_DIRICHLET)
  else t.

Definition remaining_faces (k : Kernel) (t : Tables) : Tables :=
  foldl (zero_flux k) t (seq 0 (nfaces_owned k)).

Definition cell_view (S : State) (key : Key) : option (list float) :=
  v ← S !! key; ViewComponent v "cell".

(** The (face, marker, value, advective marker) stores of the call in
    the order it makes them, up to the last loop. *)
Definition assignments (k : Kernel) (S : State)
  : option (list (nat * OperatorBC * float * OperatorBC)) :=
  from_temp ←
    (if coupled_to_surface_via_temp_ k then
       temp ← cell_view S "surface_temperature";
       Some (surface_temperature_faces k temp)
     else Some []);
  from_flux ←
    (if coupled_to_surface_via_flux_ k then
       flux ← cell_view S (ss_flux_key_ k);
       Some (surface_flux_faces k flux)
     else Some []);
  Some (temperature_faces k ++ flux_faces k ++ diff_flux_faces k
        ++ from_temp ++ from_flux).

(** [EnergyBase::UpdateBoundaryConditions_]: the tables and the State as
    the call leaves them; [None] when the State refuses a field. *)
Definition UpdateBoundaryConditions_ (k : Kernel) (S : State) (t : Tables)
  : option (Tables * State) :=
  stores ← assignments k S;
  let t' := remaining_faces k (foldl assign (reset t) stores) in
  temp ← S !! key_ k;
  Some (t', <[key_ k := applyDirichletBCs k (markers t') (values t') temp]> S).

(** The four tables have one entry per face. *)
Definition sized (t : Tables) (n : nat) : Prop :=
  length (markers t) = n /\ length (values t) = n /\
  length (adv_markers t) = n /\ length (adv_values t) = n.

(** The last store to face [f] among [stores]. *)
Definition last_store (stores : list (nat * OperatorBC * float * OperatorBC))
  (f : nat) : option (nat * OperatorBC * float * OperatorBC) :=
  last (filter (fun a => a.1.1.1 = f) stores).

(** The pairs of markers the call leaves on a face. *)
Definition paired (m am : OperatorBC) : bool :=
  match m, am with
  | OPERATOR_BC_NONE, OPERATOR_BC_NONE
  | OPERATOR_BC_DIRICHLET, OPERATOR_BC_DIRICHLET
  | OPERATOR_BC_NEUMANN, OPERATOR_BC_NEUMANN
  | OPERATOR_BC_NEUMANN, OPERATOR_BC_DIRICHLET => true
  | _, _ => false
  end.

(** What the tables hold for face [f]. *)
Definition at_face (t : Tables) (f : nat)
  : option OperatorBC * option float * option OperatorBC :=
  (markers t !! f, values t !! f, adv_markers t !! f).

(** The faces the boundary functions and the coupled surface name. *)
Definition stored_faces (stores : list (nat * OperatorBC * float * OperatorBC))
  : list nat :=
  map (fun a => a.1.1.1) stores.

(** *** Sample data *)

(** A column of two cells: face 0 on top, face 1 between the cells, face
    2 at the bottom.  The top face carries a temperature of 270 K from
    the boundary function and is the parent of the one surface cell. *)
Definition kernel_column (via_temp via_flux : bool) : Kernel :=
  {| key_ := "temperature";
     ss_flux_key_ := "surface-surface_subsurface_energy_flux";
     bc_temperature_ := [(0%nat, 270)];
     bc_flux_ := [];
     bc_diff_flux_ := [];
     coupled_to_surface_via_temp_ := via_temp;
     coupled_to_surface_via_flux_ := via_flux;
     entity_get_parent := fun c => c;
     face_area := fun _ => 2;
     face_get_cells :=
       fun f => match f with
                | 0%nat => [0%nat]
                | 1%nat => [0%nat; 1%nat]
                | _ => [1%nat]
                end;
     nfaces_owned := 3;
     applyDirichletBCs := fun _ _ temp => temp |}.

Definition S_column : State :=
  {[ "temperature"%string := [("cell"%string, [271; 272])];
     "surface-surface_subsurface_energy_flux"%string :=
       [("cell"%string, [10])] ]}.

(** Tables that hold stale markers from an earlier step. *)
Definition tables_stale : Tables :=
  {| markers := [OPERATOR_BC_NEUMANN; OPERATOR_BC_DIRICHLET; OPERATOR_BC_NONE];
     values := [1; 2; 3];
     adv_markers := [OPERATOR_BC_NEUMANN; OPERATOR_BC_NONE; OPERATOR_BC_NONE];
     adv_values := [4; 5; 6] |}.

(** *** Properties *)

Lemma assign_spec t f m v am n :
  sized t n ->
  sized (assign t (f, m, v, am)) n /\
  adv_values (assign t (f, m, v, am)) = adv_values t /\
  forall g,
    at_face (assign t (f, m, v, am)) g =
    if decide (f = g /\ (f < n)%nat) then (Some m, Some v, Some am)
    else at_face t g.
Proof.
  intros (H1 & H2 & H3 & H4). unfold sized, at_face. simpl.
  rewrite !length_insert. repeat split; trivial.
  intros g. rewrite !list_lookup_insert, H1, H2, H3.
  now destruct (decide (f = g /\ (f < n)%nat)).
Qed.

Lemma last_store_snoc stores a g :
  last_store (stores ++ [a]) g =
  if decide (a.1.1.1 = g) then Some a else last_store stores g.
Proof.
  unfold last_store. rewrite filter_app, last_app.
  destruct (decide (a.1.1.1 = g)) as [E|E].
  - rewrite filter_cons_True by exact E. reflexivity.
  - rewrite filter_cons_False by exact E. reflexivity.
Qed.

Lemma last_store_unnamed stores g :
  g ∉ stored_faces stores -> last_store stores g = None.
Proof.
  unfold last_store, stored_faces. intros Hnot. apply last_None.
  induction stores as [|a rest IH]; [reflexivity|].
  rewrite fmap_cons, not_elem_of_cons in Hnot. destruct Hnot as [Hne Hrest].
  rewrite filter_cons_False by (intros E; now apply Hne).
  now apply IH.
Qed.

Lemma stores_spec stores : forall t n,
  sized t n ->
  sized (foldl assign t stores) n /\
  adv_values (foldl assign t stores) = adv_values t /\
  forall g, (g < n)%nat ->
    at_face (foldl assign t stores) g =
    match last_store stores g with
    | Some (_, m, v, am) => (Some m, Some v, Some am)
    | None => at_face t g
    end.
Proof.
  induction stores as [|a stores IH] using rev_ind; intros t n Hs.
  - simpl. repeat split; trivial; apply Hs.
  - rewrite foldl_snoc. destruct (IH t n Hs) as (Hs' & Hadv & Hat).
    destruct a as [[[f m] v] am].
    destruct (assign_spec (foldl assign t stores) f m v am n Hs')
      as (Hs2 & Hadv2 & Hat2).
    split; [exact Hs2|]. split; [now rewrite Hadv2|].
    intros g Hg. rewrite Hat2, last_store_snoc. simpl.
    destruct (decide (f = g)) as [->|Hne].
    + now rewrite decide_True by (split; [reflexivity|exact Hg]).
    + rewrite decide_False by (intros [E _]; contradiction). now apply Hat.
Qed.

Lemma reset_spec t n :
  sized t n ->
  sized (reset t) n /\
  adv_values (reset t) = replicate n 0 /\
  forall g, (g < n)%nat ->
    at_face (reset t) g = (Some OPERATOR_BC_NONE, Some 0, Some OPERATOR_BC_NONE).
Proof.
  intros Hs. unfold reset. destruct Hs as (H1 & H2 & H3 & H4). rewrite H1.
  assert (forall k, (k <= n)%nat ->
    let r := foldl (fun t n0 =>
                {| markers := <[n0 := OPERATOR_BC_NONE]> (markers t);
                   values := <[n0 := 0]> (values t);
                   adv_markers := <[n0 := OPERATOR_BC_NONE]> (adv_markers t);
                   adv_values := <[n0 := 0]> (adv_values t) |}) t (seq 0 k) in
    markers r = replicate k OPERATOR_BC_NONE ++ drop k (markers t) /\
    values r = replicate k 0 ++ drop k (values t) /\
    adv_markers r = replicate k OPERATOR_BC_NONE ++ drop k (adv_markers t) /\
    adv_values r = replicate k 0 ++ drop k (adv_values t)) as Hk.
  { induction k as [|k IH]; intros Hle.
    - simpl. now rewrite !drop_0.
    - rewrite seq_S, foldl_snoc. simpl.
      destruct IH as (I1 & I2 & I3 & I4); [lia|].
      cbv zeta in I1, I2, I3, I4. rewrite I1, I2, I3, I4.
      assert (forall A (x : A) (l : list A), length l = n ->
                <[k := x]> (replicate k x ++ drop k l)
                = replicate (S k) x ++ drop (S k) l) as Hins.
      { intros A x l Hl.
        rewrite (insert_app_r_alt (replicate k x)) by (rewrite length_replicate; lia).
        rewrite length_replicate, Nat.sub_diag.
        destruct (drop k l) as [|y rest] eqn:Ed.
        - apply (f_equal length) in Ed. rewrite length_drop in Ed. simpl in Ed. lia.
        - assert (drop (S k) l = rest) as ->
            by (rewrite <- Nat.add_1_r, <- drop_drop, Ed; reflexivity).
          rewrite replicate_S_end, <- app_assoc. reflexivity. }
      rewrite !Hins by assumption. easy. }
  destruct (Hk n (Nat.le_refl n)) as (R1 & R2 & R3 & R4). cbv zeta in *.
  rewrite drop_ge in R1 by lia. rewrite drop_ge in R2 by lia.
  rewrite drop_ge in R3 by lia. rewrite drop_ge in R4 by lia.
  rewrite app_nil_r in R1, R2, R3, R4.
  unfold sized, at_face. rewrite R1, R2, R3, R4, !length_replicate.
  repeat split; trivial.
  intros g Hg. now rewrite !lookup_replicate_2 by exact Hg.
Qed.

Lemma remaining_spec k t n :
  sized t n ->
  sized (remaining_faces k t) n /\
  adv_values (remaining_faces k t) = adv_values t /\
  forall g, (g < n)%nat ->
    at_face (remaining_faces k t) g =
    if bool_decide (g < nfaces_owned k)%nat
       && bool_decide (markers t !! g = Some OPERATOR_BC_NONE)
       && bool_decide (length (face_get_cells k g) = 1%nat)
    then (Some OPERATOR_BC_NEUMANN, Some 0, Some OPERATOR_BC_DIRICHLET)
    else at_face t g.
Proof.
  intros Hs. unfold remaining_faces.
  induction (nfaces_owned k) as [|N IH].
  - simpl. repeat split; trivial; apply Hs.
  - rewrite seq_S, foldl_snoc. simpl.
    destruct IH as (Hs' & Hadv & Hat).
    set (tN := foldl (zero_flux k) t (seq 0 N)) in *.
    assert (Hm : (N < n)%nat -> markers tN !! N = markers t !! N).
    { intros HN. specialize (Hat N HN).
      rewrite bool_decide_eq_false_2 in Hat by lia. simpl in Hat.
      unfold at_face in Hat. congruence. }
    unfold zero_flux.
    destruct (bool_decide (markers tN !! N = Some OPERATOR_BC_NONE)
              && bool_decide (length (face_get_cells k N) = 1%nat)) eqn:Eb.
    + destruct (assign_spec tN N OPERATOR_BC_NEUMANN 0 OPERATOR_BC_DIRICHLET n Hs')
        as (Hs2 & Hadv2 & Hat2).
      split; [exact Hs2|]. split; [now rewrite Hadv2|].
      intros g Hg. rewrite Hat2.
      destruct (decide (N = g)) as [<-|Hne].
      * rewrite decide_True by (split; [reflexivity|exact Hg]).
        rewrite (bool_decide_eq_true_2 (N < S N)%nat) by lia.
        rewrite <- (Hm Hg). simpl. now rewrite Eb.
      * rewrite decide_False by (intros [E _]; contradiction).
        rewrite (Hat g Hg).
        destruct (decide (g < N)%nat).
        -- now rewrite (bool_decide_eq_true_2 (g < N)%nat),
             (bool_decide_eq_true_2 (g < S N)%nat) by lia.
        -- now rewrite (bool_decide_eq_false_2 (g < N)%nat),
             (bool_decide_eq_false_2 (g < S N)%nat) by lia.
    + split; [exact Hs'|]. split; [exact Hadv|].
      intros g Hg. rewrite (Hat g Hg).
      destruct (decide (g = N)) as [->|Hne].
      * rewrite (bool_decide_eq_false_2 (N < N)%nat) by lia.
        rewrite (bool_decide_eq_true_2 (N < S N)%nat) by lia. simpl.
        rewrite <- (Hm Hg). now rewrite Eb.
      * destruct (decide (g < N)%nat).
        -- now rewrite (bool_decide_eq_true_2 (g < N)%nat),
             (bool_decide_eq_true_2 (g < S N)%nat) by lia.
        -- now rewrite (bool_decide_eq_false_2 (g < N)%nat),
             (bool_decide_eq_false_2 (g < S N)%nat) by lia.
Qed.

(** The tables after the call, face by face. *)
Lemma UpdateBoundaryConditions_spec k S t t' S' n :
  sized t n ->
  UpdateBoundaryConditions_ k S t = Some (t', S') ->
  exists stores,
    assignments k S = Some stores /\
    sized t' n /\
    adv_values t' = replicate n 0 /\
    forall g, (g < n)%nat ->
      at_face t' g =
      match last_store stores g with
      | Some (_, m, v, am) =>
          if bool_decide (g < nfaces_owned k)%nat
             && bool_decide (m = OPERATOR_BC_NONE)
             && bool_decide (length (face_get_cells k g) = 1%nat)
          then (Some OPERATOR_BC_NEUMANN, Some 0, Some OPERATOR_BC_DIRICHLET)
          else (Some m, Some v, Some am)
      | None =>
          if bool_decide (g < nfaces_owned k)%nat
             && bool_decide (length (face_get_cells k g) = 1%nat)
          then (Some OPERATOR_BC_NEUMANN, Some 0, Some OPERATOR_BC_DIRICHLET)
          else (Some OPERATOR_BC_NONE, Some 0, Some OPERATOR_BC_NONE)
      end.
Proof.
  intros Hs. unfold UpdateBoundaryConditions_.
  destruct (assignments k S) as [stores|]; [|discriminate]. simpl.
  destruct (S !! key_ k) as [temp|]; [|discriminate]. simpl.
  intros [= <- <-]. exists stores. split; [reflexivity|].
  destruct (reset_spec t n Hs) as (Hr & Hradv & Hrat).
  destruct (stores_spec stores (reset t) n Hr) as (Ha & Haadv & Haat).
  destruct (remaining_spec k (foldl assign (reset t) stores) n Ha)
    as (Hz & Hzadv & Hzat).
  split; [exact Hz|]. split; [now rewrite Hzadv, Haadv|].
  intros g Hg. rewrite (Hzat g Hg).
  pose proof (Haat g Hg) as Hface. unfold at_face in Hface at 1.
  destruct (last_store stores g) as [[[[f m] v] am]|].
  - injection Hface as Hm Hv Ham. rewrite Hm.
    replace (bool_decide (Some m = Some OPERATOR_BC_NONE))
      with (bool_decide (m = OPERATOR_BC_NONE))
      by (apply bool_decide_ext; split; congruence).
    destruct (_ && _ && _); [reflexivity|].
    unfold at_face. now rewrite Hm, Hv, Ham.
  - rewrite (Hrat g Hg) in Hface. injection Hface as Hm Hv Ham. rewrite Hm.
    rewrite (bool_decide_eq_true_2 (Some _ = Some _)) by reflexivity.
    rewrite andb_true_r.
    destruct (_ && _); [reflexivity|].
    unfold at_face. now rewrite Hm, Hv, Ham.
Qed.

Lemma last_store_elem stores g a :
  last_store stores g = Some a -> a ∈ stores /\ a.1.1.1 = g.
Proof.
  unfold last_store. intros H. apply last_Some in H as [l' Hl].
  assert (a ∈ filter (fun a0 => a0.1.1.1 = g) stores) as Hin
    by (rewrite Hl; set_solver).
  apply list_elem_of_filter in Hin. tauto.
Qed.

(** Every store of the call sets a marker other than [OPERATOR_BC_NONE],
    paired with its advective marker. *)
Lemma assignments_markers k S stores :
  assignments k S = Some stores ->
  Forall (fun a => a.1.1.2 <> OPERATOR_BC_NONE /\ paired a.1.1.2 a.2 = true)
         stores.
Proof.
  unfold assignments. intros H.
  destruct (if coupled_to_surface_via_temp_ k then _ else _)
    as [from_temp|] eqn:Et; [|discriminate]. simpl in H.
  destruct (if coupled_to_surface_via_flux_ k then _ else _)
    as [from_flux|] eqn:Ef; [|discriminate]. simpl in H.
  injection H as <-.
  assert (Forall (fun a => a.1.1.2 <> OPERATOR_BC_NONE /\ paired a.1.1.2 a.2 = true)
            from_temp) as Ht.
  { destruct (coupled_to_surface_via_temp_ k); [|injection Et as <-; constructor].
    destruct (cell_view S "surface_temperature"); [|discriminate].
    injection Et as <-. apply Forall_forall. intros a Ha.
    apply elem_of_lookup_imap_1 in Ha as (c & T & -> & _). now split. }
  assert (Forall (fun a => a.1.1.2 <> OPERATOR_BC_NONE /\ paired a.1.1.2 a.2 = true)
            from_flux) as Hf.
  { destruct (coupled_to_surface_via_flux_ k); [|injection Ef as <-; constructor].
    destruct (cell_view S (ss_flux_key_ k)); [|discriminate].
    injection Ef as <-. apply Forall_forall. intros a Ha.
    apply elem_of_lookup_imap_1 in Ha as (c & T & -> & _). now split. }
  repeat apply Forall_app_2; trivial;
    apply Forall_forall; intros a Ha;
    apply list_elem_of_fmap in Ha as (bc & -> & _); now split.
Qed.

(** X1: after [UpdateBoundaryConditions_] no owned boundary face (a face
    with one cell) is left without a condition, whatever the tables held
    before; a face that no boundary function and no coupled surface cell
    names gets the zero diffusive flux (Neumann, value 0, advective
    marker Dirichlet) when it is an owned boundary face, and no condition
    (marker NONE, value 0) otherwise. *)
Theorem UpdateBoundaryConditions_covers_boundary k S t t' S' n :
  sized t n -> (nfaces_owned k <= n)%nat ->
  UpdateBoundaryConditions_ k S t = Some (t', S') ->
  (forall f, (f < nfaces_owned k)%nat -> length (face_get_cells k f) = 1%nat ->
     exists m, markers t' !! f = Some m /\ m <> OPERATOR_BC_NONE) /\
  (forall stores f,
     assignments k S = Some stores -> (f < n)%nat -> f ∉ stored_faces stores ->
     at_face t' f =
     if bool_decide (f < nfaces_owned k)%nat
        && bool_decide (length (face_get_cells k f) = 1%nat)
     then (Some OPERATOR_BC_NEUMANN, Some 0, Some OPERATOR_BC_DIRICHLET)
     else (Some OPERATOR_BC_NONE, Some 0, Some OPERATOR_BC_NONE)).
Proof.
  intros Hs Hn Hrun.
  destruct (UpdateBoundaryConditions_spec k S t t' S' n Hs Hrun)
    as (stores & Hst & _ & _ & Hat).
  pose proof (assignments_markers k S stores Hst) as Hmark.
  split.
  - intros f Hf Hcells. specialize (Hat f ltac:(lia)).
    rewrite (bool_decide_eq_true_2 (f < nfaces_owned k)%nat) in Hat by exact Hf.
    rewrite (bool_decide_eq_true_2 (length _ = 1%nat)) in Hat by exact Hcells.
    destruct (last_store stores f) as [[[[f' m] v] am]|] eqn:El.
    + apply last_store_elem in El as [Hin _].
      rewrite Forall_forall in Hmark. destruct (Hmark _ Hin) as [Hne _].
      simpl in Hne. rewrite bool_decide_eq_false_2 in Hat by exact Hne.
      simpl in Hat. unfold at_face in Hat. injection Hat as -> _ _. eauto.
    + simpl in Hat. unfold at_face in Hat. injection Hat as -> _ _.
      eexists. split; [reflexivity|discriminate].
  - intros stores' f Hst' Hf Hnot. rewrite Hst in Hst'. injection Hst' as <-.
    rewrite (Hat f Hf), (last_store_unnamed _ _ Hnot). reflexivity.
Qed.

(** X2: the call leaves the four tables with their sizes, never sets an
    advective value (all are 0 afterwards), and leaves on every face one
    of the marker pairs (diffusion, advection) NONE/NONE,
    DIRICHLET/DIRICHLET, NEUMANN/NEUMANN or NEUMANN/DIRICHLET: no face is
    Dirichlet for diffusion and Neumann for advection, and none has an
    advective marker without a diffusive one. *)
Theorem UpdateBoundaryConditions_pairs_markers k S t t' S' n :
  sized t n ->
  UpdateBoundaryConditions_ k S t = Some (t', S') ->
  sized t' n /\
  adv_values t' = replicate n 0 /\
  forall f m am,
    markers t' !! f = Some m -> adv_markers t' !! f = Some am ->
    paired m am = true.
Proof.
  intros Hs Hrun.
  destruct (UpdateBoundaryConditions_spec k S t t' S' n Hs Hrun)
    as (stores & Hst & Hs' & Hadv & Hat).
  split; [exact Hs'|]. split; [exact Hadv|].
  intros f m am Hm Ham.
  assert (f < n)%nat as Hf.
  { destruct Hs' as (H1 & _). rewrite <- H1. now apply lookup_lt_Some in Hm. }
  specialize (Hat f Hf). unfold at_face in Hat. rewrite Hm, Ham in Hat.
  pose proof (assignments_markers k S stores Hst) as Hmark.
  destruct (last_store stores f) as [[[[f' m'] v'] am']|] eqn:El.
  - apply last_store_elem in El as [Hin _].
    rewrite Forall_forall in Hmark. destruct (Hmark _ Hin) as [_ Hp].
    simpl in Hp. destruct (_ && _ && _); injection Hat as -> _ ->; trivial.
  - destruct (_ && _); injection Hat as -> _ ->; reflexivity.
Qed.

Lemma last_store_app l1 l2 g :
  last_store (l1 ++ l2) g =
  match last_store l2 g with Some a => Some a | None => last_store l1 g end.
Proof. unfold last_store. now rewrite filter_app, last_app. Qed.

Lemma last_store_surface_flux k flux c q :
  flux !! c = Some q ->
  (forall c', (c < c')%nat -> (c' < length flux)%nat ->
     entity_get_parent k c' <> entity_get_parent k c) ->
  last_store (surface_flux_faces k flux) (entity_get_parent k c)
  = Some (entity_get_parent k c, OPERATOR_BC_NEUMANN,
          q / face_area k (entity_get_parent k c), OPERATOR_BC_DIRICHLET).
Proof.
  unfold surface_flux_faces.
  induction flux as [|x flux IH] using rev_ind; intros Hq Hlast; [discriminate|].
  rewrite imap_app, last_store_app. simpl.
  rewrite length_app in Hlast. simpl in Hlast.
  destruct (decide (c = length flux)) as [->|Hne].
  - rewrite lookup_app_r, Nat.sub_diag in Hq by lia. injection Hq as ->.
    unfold last_store. simpl. rewrite Nat.add_0_r.
    rewrite filter_cons_True by reflexivity. reflexivity.
  - assert (c < length flux)%nat as Hc.
    { apply lookup_lt_Some in Hq. rewrite length_app in Hq. simpl in Hq. lia. }
    rewrite lookup_app_l in Hq by exact Hc.
    unfold last_store at 1. simpl. rewrite Nat.add_0_r.
    rewrite filter_cons_False by (simpl; apply Hlast; lia). simpl.
    apply IH; [exact Hq|]. intros c' H1 H2. apply Hlast; lia.
Qed.

(** X3: with the kernel coupled to the surface through the flux, the
    subsurface face above a surface cell is Neumann with the flux of
    that cell divided by the face area, and Dirichlet for advection,
    whatever the boundary functions and the surface temperature say for
    that face: the coupling is stored last. *)
Theorem UpdateBoundaryConditions_flux_coupling_wins k S t t' S' n flux c q :
  sized t n ->
  coupled_to_surface_via_flux_ k = true ->
  cell_view S (ss_flux_key_ k) = Some flux ->
  flux !! c = Some q ->
  (forall c', (c < c')%nat -> (c' < length flux)%nat ->
     entity_get_parent k c' <> entity_get_parent k c) ->
  (entity_get_parent k c < n)%nat ->
  UpdateBoundaryConditions_ k S t = Some (t', S') ->
  at_face t' (entity_get_parent k c)
  = (Some OPERATOR_BC_NEUMANN, Some (q / face_area k (entity_get_parent k c)),
     Some OPERATOR_BC_DIRICHLET).
Proof.
  intros Hs Hcoupled Hflux Hq Hlast Hf Hrun.
  destruct (UpdateBoundaryConditions_spec k S t t' S' n Hs Hrun)
    as (stores & Hst & _ & _ & Hat).
  rewrite (Hat _ Hf).
  unfold assignments in Hst. rewrite Hcoupled, Hflux in Hst.
  destruct (if coupled_to_surface_via_temp_ k then _ else _)
    as [from_temp|]; [|discriminate].
  simpl in Hst. injection Hst as <-.
  rewrite !last_store_app, (last_store_surface_flux k flux c q Hq Hlast).
  rewrite (bool_decide_eq_false_2 (OPERATOR_BC_NEUMANN = OPERATOR_BC_NONE))
    by discriminate.
  now rewrite andb_false_r.
Qed.

Lemma UpdateBoundaryConditions_covers_boundary_witness :
  (forall f, (f < nfaces_owned (kernel_column false false))%nat ->
     length (face_get_cells (kernel_column false false) f) = 1%nat ->
     exists m,
       markers (remaining_faces (kernel_column false false)
                  (foldl assign (reset tables_stale)
                     [(0%nat, OPERATOR_BC_DIRICHLET, 270, OPERATOR_BC_DIRICHLET)]))
         !! f = Some m /\ m <> OPERATOR_BC_NONE) /\
  (forall stores f,
     assignments (kernel_column false false) S_column = Some stores ->
     (f < 3)%nat -> f ∉ stored_faces stores ->
     at_face (remaining_faces (kernel_column false false)
                (foldl assign (reset tables_stale)
                   [(0%nat, OPERATOR_BC_DIRICHLET, 270, OPERATOR_BC_DIRICHLET)])) f =
     if bool_decide (f < nfaces_owned (kernel_column false false))%nat
        && bool_decide (length (face_get_cells (kernel_column false false) f) = 1%nat)
     then (Some OPERATOR_BC_NEUMANN, Some 0, Some OPERATOR_BC_DIRICHLET)
     else (Some OPERATOR_BC_NONE, Some 0, Some OPERATOR_BC_NONE)).
Proof.
  apply (UpdateBoundaryConditions_covers_boundary (kernel_column false false)
           S_column tables_stale _ S_column 3).
  - repeat split.
  - simpl. lia.
  - reflexivity.
Defined.

Lemma UpdateBoundaryConditions_pairs_markers_witness :
  sized (remaining_faces (kernel_column false true)
           (foldl assign (reset tables_stale)
              [(0%nat, OPERATOR_BC_DIRICHLET, 270, OPERATOR_BC_DIRICHLET);
               (0%nat, OPERATOR_BC_NEUMANN, 10 / 2, OPERATOR_BC_DIRICHLET)])) 3 /\
  adv_values (remaining_faces (kernel_column false true)
           (foldl assign (reset tables_stale)
              [(0%nat, OPERATOR_BC_DIRICHLET, 270, OPERATOR_BC_DIRICHLET);
               (0%nat, OPERATOR_BC_NEUMANN, 10 / 2, OPERATOR_BC_DIRICHLET)]))
  = replicate 3 0 /\
  forall f m am,
    markers (remaining_faces (kernel_column false true)
           (foldl assign (reset tables_stale)
              [(0%nat, OPERATOR_BC_DIRICHLET, 270, OPERATOR_BC_DIRICHLET);
               (0%nat, OPERATOR_BC_NEUMANN, 10 / 2, OPERATOR_BC_DIRICHLET)])) !! f
    = Some m ->
    adv_markers (remaining_faces (kernel_column false true)
           (foldl assign (reset tables_stale)
              [(0%nat, OPERATOR_BC_DIRICHLET, 270, OPERATOR_BC_DIRICHLET);
               (0%nat, OPERATOR_BC_NEUMANN, 10 / 2, OPERATOR_BC_DIRICHLET)])) !! f
    = Some am ->
    paired m am = true.
Proof.
  apply (UpdateBoundaryConditions_pairs_markers (kernel_column false true)
           S_column tables_stale _ S_column 3).
  - repeat split.
  - reflexivity.
Defined.

Lemma UpdateBoundaryConditions_flux_coupling_wins_witness :
  at_face (remaining_faces (kernel_column false true)
             (foldl assign (reset tables_stale)
                [(0%nat, OPERATOR_BC_DIRICHLET, 270, OPERATOR_BC_DIRICHLET);
                 (0%nat, OPERATOR_BC_NEUMANN, 10 / 2, OPERATOR_BC_DIRICHLET)])) 0
  = (Some OPERATOR_BC_NEUMANN, Some (10 / 2), Some OPERATOR_BC_DIRICHLET).
Proof.
  apply (UpdateBoundaryConditions_flux_coupling_wins (kernel_column false true)
           S_column tables_stale _ S_column 3 [10] 0 10).
  - repeat split.
  - reflexivity.
  - reflexivity.
  - reflexivity.
  - intros c' H1 H2. simpl in H2. lia.
  - simpl. lia.
  - reflexivity.
Defined.

End EnergyBaseBC.

(** ** EnergyBase: further properties *)

Module EnergyBaseChecks.
Import Double Vec EnergyBase.
Local Open Scope float_scope.

(** A temperature the bounds test lets pass: one within [200, 330], or a
    NaN. *)
Definition passes (x : float) : bool :=
  is_nan x || ((200.0 <=? x) && (x <=? 330.0)).

(** Some entry of component [name] moved across the freezing point
    between [u0] and [u]. *)
Definition crosses (u0 u : CompositeVector) (name : string) : bool :=
  match ViewComponent u0 name, ViewComponent u name with
  | Some a, Some b => existsb (fun p => snapped p.1 p.2) (zip a b)
  | _, _ => false
  end.

Lemma SFltb_SFleb a b :
  b <> S754_nan ->
  negb (SFltb a b) = negb (SFeqb a a) || SFleb b a.
Proof.
  unfold SFltb, SFleb, SFeqb.
  destruct a, b; simpl; try congruence; intros _; sf_cases.
Qed.

Lemma SFltb_SFleb_r a b :
  b <> S754_nan ->
  negb (SFltb b a) = negb (SFeqb a a) || SFleb a b.
Proof.
  unfold SFltb, SFleb, SFeqb.
  destruct a, b; simpl; try congruence; intros _; sf_cases.
Qed.

Lemma not_below x t :
  not_nan t -> negb (x <? t) = is_nan x || (t <=? x).
Proof.
  intros Ht. unfold is_nan.
  rewrite FloatAxioms.ltb_spec, FloatAxioms.leb_spec, FloatAxioms.eqb_spec.
  now apply SFltb_SFleb.
Qed.

Lemma not_above x t :
  not_nan t -> negb (t <? x) = is_nan x || (x <=? t).
Proof.
  intros Ht. unfold is_nan.
  rewrite FloatAxioms.ltb_spec, FloatAxioms.leb_spec, FloatAxioms.eqb_spec.
  now apply SFltb_SFleb_r.
Qed.

Lemma passes_spec x :
  passes x = negb (x <? 200.0) && negb (330.0 <? x).
Proof.
  unfold passes.
  rewrite (not_below x 200.0), (not_above x 330.0)
    by now apply not_nan_literal.
  destruct (is_nan x); [reflexivity|reflexivity].
Qed.

Lemma out_of_bounds_passes vals :
  negb (out_of_bounds vals) = forallb passes vals.
Proof.
  unfold out_of_bounds. induction vals as [|x vals IH]; [reflexivity|].
  simpl. rewrite <- IH, passes_spec.
  destruct (x <? 200.0), (330.0 <? x); simpl; try reflexivity;
    now rewrite ?orb_true_r.
Qed.

(** X4: [IsAdmissible] lets every NaN pass: the state is admissible
    exactly when each owned cell and face temperature of each rank is
    within [200, 330] or is a NaN, so a state of NaNs only, or with no
    entries at all, is admissible. *)
Theorem IsAdmissible_passes_nan up peers :
  Forall (fun r => HasComponent r "cell" = true) (up :: peers) ->
  IsAdmissible up peers = Some (forallb passes (global_values up peers)).
Proof.
  intros Hcell. rewrite (IsAdmissible_exists _ _ Hcell).
  now rewrite out_of_bounds_passes.
Qed.

Lemma IsAdmissible_passes_nan_witness :
  IsAdmissible [("cell"%string, [nan; 250.0]); ("face"%string, [nan])]
    [[("cell"%string, [])]]
  = Some (forallb passes
            (global_values
               [("cell"%string, [nan; 250.0]); ("face"%string, [nan])]
               [[("cell"%string, [])]])).
Proof.
  apply (IsAdmissible_passes_nan
           [("cell"%string, [nan; 250.0]); ("face"%string, [nan])]
           [[("cell"%string, [])]]).
  repeat constructor.
Defined.

Lemma out_of_bounds_Permutation ranks ranks' :
  ranks ≡ₚ ranks' ->
  out_of_bounds (concat (map owned_values ranks))
  = out_of_bounds (concat (map owned_values ranks')).
Proof.
  intros Hp. unfold out_of_bounds.
  assert (forall f, existsb f (concat (map owned_values ranks))
                    = existsb f (concat (map owned_values ranks'))) as He.
  { intros f. induction Hp as [|r l l' _ IH|r r' l|l l' l'' _ IH1 _ IH2];
      simpl; rewrite ?existsb_app.
    - reflexivity.
    - now rewrite IH.
    - now rewrite !orb_assoc, (orb_comm (existsb f (owned_values r'))).
    - now rewrite IH1. }
  now rewrite !He.
Qed.

(** X5: every rank of the communicator gets the same answer from
    [IsAdmissible]: the result does not depend on which rank is the
    calling one, nor on the order of the others. *)
Theorem IsAdmissible_ranks_agree up peers up' peers' :
  Forall (fun r => HasComponent r "cell" = true) (up :: peers) ->
  up :: peers ≡ₚ up' :: peers' ->
  IsAdmissible up peers = IsAdmissible up' peers'.
Proof.
  intros Hcell Hp.
  assert (Forall (fun r => HasComponent r "cell" = true) (up' :: peers'))
    as Hcell' by now rewrite <- Hp.
  rewrite (IsAdmissible_exists _ _ Hcell), (IsAdmissible_exists _ _ Hcell').
  unfold global_values. now rewrite (out_of_bounds_Permutation _ _ Hp).
Qed.

Lemma IsAdmissible_ranks_agree_witness :
  IsAdmissible rank0 [rank1_cold] = IsAdmissible rank1_cold [rank0].
Proof.
  apply (IsAdmissible_ranks_agree rank0 [rank1_cold] rank1_cold [rank0]).
  - repeat constructor.
  - apply Permutation_swap.
Defined.

Lemma freeze_loop_flag u0 : forall u m ys m',
  freeze_loop u0 u m = Some (ys, m') ->
  m' = m || existsb (fun p => snapped p.1 p.2) (zip u0 u).
Proof.
  induction u0 as [|x0 u0' IH]; intros u m ys m' H.
  - injection H as <- <-. now rewrite orb_false_r.
  - destruct u as [|x u']; [discriminate|]. simpl in H.
    pose proof (freeze_value_fixed x0 x m) as Hv.
    destruct (freeze_value x0 x m) as [y m1]. destruct Hv as [-> _].
    destruct (freeze_loop u0' u' _) as [[ys' m1']|] eqn:E; [|discriminate].
    injection H as <- <-. rewrite (IH _ _ _ _ E). simpl.
    destruct (snapped x0 x), m; reflexivity.
Qed.

Lemma freeze_component_flag name u0 u m u1 m1 :
  freeze_component name u0 u m = Some (u1, m1) ->
  m1 = m || crosses u0 u name /\
  forall n, n <> name -> ViewComponent u1 n = ViewComponent u n.
Proof.
  unfold freeze_component, crosses.
  destruct (ViewComponent u0 name) as [u0_c|]; [|discriminate].
  destruct (ViewComponent u name) as [u_c|]; [|discriminate].
  destruct (freeze_loop u0_c u_c m) as [[u_c' m']|] eqn:E; [|discriminate].
  intros [= <- <-]. split; [exact (freeze_loop_flag _ _ _ _ _ E)|].
  intros n Hn. now apply ViewComponent_SetComponent_ne.
Qed.

(** Without the consistent-faces option the flag is [true] exactly when
    the freezing option is on and some cell entry, or some boundary-face
    entry when [u0] has that component, lies on the other side of
    273.15 K in [u] than in [u0]. *)
Lemma predictor_modification_flag pk h u0 u modified u' :
  modify_predictor_with_consistent_faces_ pk = false ->
  predictor_modification pk h u0 u = Some (modified, u') ->
  modified =
  modify_predictor_for_freezing_ pk
  && (crosses u0 u "cell"
      || HasComponent u0 "boundary_face" && crosses u0 u "boundary_face").
Proof.
  intros Hfaces. unfold predictor_modification, freeze_stage. rewrite Hfaces.
  destruct (modify_predictor_for_freezing_ pk); [|now intros [= <- _]].
  destruct (freeze_component "cell" u0 u false) as [[u1 m]|] eqn:Ec;
    [|discriminate].
  destruct (freeze_component_flag _ _ _ _ _ _ Ec) as [-> Hother].
  destruct (HasComponent u0 "boundary_face").
  - destruct (freeze_component "boundary_face" u0 u1 _) as [[u2 m2]|] eqn:Eb;
      [|discriminate].
    destruct (freeze_component_flag _ _ _ _ _ _ Eb) as [-> _].
    intros [= <- _]. simpl. f_equal. unfold crosses.
    now rewrite (Hother "boundary_face"%string) by discriminate.
  - intros [= <- _]. simpl. now rewrite orb_false_r.
Qed.

(** Two vectors with the same components in the same order, each of the
    same length. *)
Definition same_layout (u u' : CompositeVector) : Prop :=
  map (fun c => (c.1, length c.2)) u' = map (fun c => (c.1, length c.2)) u.

Lemma SetComponent_layout v name data old :
  ViewComponent v name = Some old -> length data = length old ->
  same_layout v (SetComponent v name data).
Proof.
  unfold same_layout.
  induction v as [|[n d] rest IH]; simpl; [reflexivity|].
  destruct (String.eqb n name) eqn:E; intros Hv Hl; simpl.
  - injection Hv as ->. now rewrite Hl.
  - f_equal. now apply IH.
Qed.

Lemma freeze_loop_length u0 : forall u m ys m',
  freeze_loop u0 u m = Some (ys, m') -> length ys = length u.
Proof.
  induction u0 as [|x0 u0' IH]; intros u m ys m' H.
  - now injection H as <- <-.
  - destruct u as [|x u']; [discriminate|]. simpl in H.
    destruct (freeze_value x0 x m) as [y m1].
    destruct (freeze_loop u0' u' m1) as [[ys' m1']|] eqn:E; [|discriminate].
    injection H as <- <-. simpl. f_equal. exact (IH _ _ _ _ E).
Qed.

Lemma freeze_component_layout name u0 u m u1 m1 :
  freeze_component name u0 u m = Some (u1, m1) -> same_layout u u1.
Proof.
  unfold freeze_component.
  destruct (ViewComponent u0 name) as [u0_c|]; [|discriminate].
  destruct (ViewComponent u name) as [u_c|] eqn:Eu; [|discriminate].
  destruct (freeze_loop u0_c u_c m) as [[u_c' m']|] eqn:E; [|discriminate].
  intros [= <- <-]. apply (SetComponent_layout _ _ _ u_c Eu).
  exact (freeze_loop_length _ _ _ _ _ E).
Qed.

Lemma same_layout_trans u v w :
  same_layout u v -> same_layout v w -> same_layout u w.
Proof. unfold same_layout. congruence. Qed.

(** The two blocks keep the layout of [u], and the entries of any
    component other than "cell", "boundary_face" and "face". *)
Lemma predictor_modification_layout pk h u0 u modified u' :
  predictor_modification pk h u0 u = Some (modified, u') ->
  same_layout u u' /\
  forall name, name <> "cell"%string -> name <> "boundary_face"%string ->
    name <> "face"%string -> ViewComponent u' name = ViewComponent u name.
Proof.
  unfold predictor_modification.
  destruct (freeze_stage pk u0 u) as [[u1 m]|] eqn:Ef; [|discriminate].
  assert (same_layout u u1) as L1.
  { revert Ef. unfold freeze_stage.
    destruct (modify_predictor_for_freezing_ pk);
      [|intros [= <- _]; reflexivity].
    destruct (freeze_component "cell" u0 u false) as [[uc mc]|] eqn:Ec;
      [|discriminate].
    pose proof (freeze_component_layout _ _ _ _ _ _ Ec) as Lc.
    destruct (HasComponent u0 "boundary_face").
    - intros Eb. eapply same_layout_trans; [exact Lc|].
      exact (freeze_component_layout _ _ _ _ _ _ Eb).
    - now intros [= <- _]. }
  destruct (freeze_stage_fixed _ _ _ _ _ Ef) as [O1 _].
  destruct (modify_predictor_with_consistent_faces_ pk).
  - destruct (CalculateConsistentFaces pk u1) as [u2|] eqn:Ec; [|discriminate].
    intros [= <- <-]. revert Ec. unfold CalculateConsistentFaces.
    destruct (ViewComponent u1 "cell") as [owned_c|]; [|discriminate].
    destruct (ViewComponent u1 "face") as [u_f|] eqn:Eface; [|discriminate].
    destruct (mapM _ (seq 0 (length u_f))) as [averaged|] eqn:Ea; [|discriminate].
    intros [= <-]. rewrite SetComponent_twice. split.
    + eapply same_layout_trans; [exact L1|].
      apply (SetComponent_layout _ _ _ u_f Eface).
      now rewrite length_map, length_seq.
    + intros name H1 H2 H3.
      rewrite ViewComponent_SetComponent_ne by congruence. now apply O1.
  - intros [= <- <-]. split; [exact L1|]. intros name H1 H2 _. now apply O1.
Qed.

End EnergyBaseChecks.

(** ** EnergyBase::ModifyPredictor, with the update of the boundary conditions *)

Module EnergyBasePredictor.
Import Double Vec EnergyBase Evaluator EnergyBaseBC EnergyBaseChecks.
Local Open Scope float_scope.

(** What [ModifyPredictor] reads and writes of the kernel: the options,
    mesh and operators [pk]; the boundary functions, couplings and
    surface mesh [kernel]; the tables [bc_] of [bc_] and [bc_adv_]; what
    [bc_temperature_->Compute(t)] and [bc_flux_->Compute(t)] make the
    iterators of the two boundary functions yield, [temperature_at t]
    and [flux_at t]; the value [consistent_faces t u f] that
    [matrix_diff_], with the boundary conditions [t] applied, derives for
    the owned face [f] of [u]; the State [S_next_] and its time. *)
Record Energy := {
  pk : PK;
  kernel : Kernel;
  bc_ : Tables;
  temperature_at : float -> list (nat * float);
  flux_at : float -> list (nat * float);
  consistent_faces : Tables -> CompositeVector -> nat -> float;
  S_next_ : State;
  S_next_time : float
}.

(** The kernel after [bc_temperature_->Compute] and [bc_flux_->Compute]. *)
Definition with_boundary_functions (k : Kernel)
  (temperature flux : list (nat * float)) : Kernel :=
  {| key_ := key_ k;
     ss_flux_key_ := ss_flux_key_ k;
     bc_temperature_ := temperature;
     bc_flux_ := flux;
     bc_diff_flux_ := bc_diff_flux_ k;
     coupled_to_surface_via_temp_ := coupled_to_surface_via_temp_ k;
     coupled_to_surface_via_flux_ := coupled_to_surface_via_flux_ k;
     entity_get_parent := entity_get_parent k;
     face_area := EnergyBaseBC.face_area k;
     face_get_cells := EnergyBaseBC.face_get_cells k;
     nfaces_owned := nfaces_owned k;
     applyDirichletBCs := applyDirichletBCs k |}.

(** The options, mesh and operators with the tables [t] in place. *)
Definition with_tables (p : PK) (t : Tables)
  (faces : Tables -> CompositeVector -> nat -> float) : PK :=
  {| modify_predictor_for_freezing_ := modify_predictor_for_freezing_ p;
     modify_predictor_with_consistent_faces_ :=
       modify_predictor_with_consistent_faces_ p;
     T_limit_ := T_limit_ p;
     EnergyBase.face_get_cells := EnergyBase.face_get_cells p;
     getBoundaryFaceFace := getBoundaryFaceFace p;
     getFaceOnBoundaryInternalCell := getFaceOnBoundaryInternalCell p;
     EnergyBase.face_area := EnergyBase.face_area p;
     bc_markers := fun f => default OPERATOR_BC_NONE (markers t !! f);
     bc_values := fun f => default 0 (values t !! f);
     bc_adv_model := fun f => default OPERATOR_BC_NONE (adv_markers t !! f);
     matrices_shadow00 := matrices_shadow00 p;
     scattered_cells := scattered_cells p;
     UpdateConsistentFaces := faces t |}.

(** [EnergyBase::ModifyPredictor(h, u0, u)].  The solution vector [u] is
    a view of the temperature field of [S_next_]: the field holds [u]
    when the call starts, [applyDirichletBCs], at the end of
    [UpdateBoundaryConditions_], writes into it, and the two blocks
    that follow work on what it has left.  The result is the returned
    flag, [u] as the call leaves it, and the kernel with its State;
    [None] when the State refuses a field or a loop leaves its vector. *)
Definition ModifyPredictor (e : Energy) (h : float) (u0 u : CompositeVector)
  : option (bool * CompositeVector * Energy) :=
  let k := with_boundary_functions (kernel e)
             (temperature_at e (S_next_time e)) (flux_at e (S_next_time e)) in
  '(t, S1) ← UpdateBoundaryConditions_ k (<[key_ k := u]> (S_next_ e)) (bc_ e);
  u1 ← S1 !! key_ k;
  '(modified, u2) ←
    predictor_modification (with_tables (pk e) t (consistent_faces e)) h u0 u1;
  Some (modified, u2,
        {| pk := pk e; kernel := k; bc_ := t;
           temperature_at := temperature_at e; flux_at := flux_at e;
           consistent_faces := consistent_faces e;
           S_next_ := <[key_ k := u2]> S1;
           S_next_time := S_next_time e |}).

(** The components of a vector with their lengths. *)
Definition layout (u : CompositeVector) : list (string * nat) :=
  map (fun c => (c.1, length c.2)) u.

(** The entries [w] names replaced by the values it gives. *)
Definition write (w : nat -> option float) (l : list float) : list float :=
  imap (fun i x => default x (w i)) l.

(** What is taken of [applyDirichletBCs], which Amanzi defines outside
    this kernel: it stores values into entries of the vector, and which
    entries and which values is decided by the tables and by the
    components the vector has, not by the entries it holds. *)
Definition overwrites
  (apply : list OperatorBC -> list float -> CompositeVector -> CompositeVector)
  : Prop :=
  exists W : list OperatorBC -> list float -> list (string * nat) ->
             string -> nat -> option float,
    forall m v u,
      apply m v u = map (fun c => (c.1, write (W m v (layout u) c.1) c.2)) u.

(** *** Sample data *)

(** [applyDirichletBCs] as a store of the Dirichlet values into the
    "face" and the "boundary_face" component, on a mesh whose boundary
    face [bf] is the face [bf]. *)
Definition dirichlet_faces (m : list OperatorBC) (v : list float)
  (u : CompositeVector) : CompositeVector :=
  map (fun c =>
         (c.1,
          if String.eqb c.1 "face" || String.eqb c.1 "boundary_face" then
            write (fun f =>
                     match m !! f with
                     | Some OPERATOR_BC_DIRICHLET => v !! f
                     | _ => None
                     end) c.2
          else c.2)) u.

(** The column of [pk_line] as [UpdateBoundaryConditions_] sees it: two
    owned faces, no coupled surface. *)
Definition kernel_line : Kernel :=
  {| key_ := "temperature";
     ss_flux_key_ := "surface-surface_subsurface_energy_flux";
     bc_temperature_ := [];
     bc_flux_ := [];
     bc_diff_flux_ := [];
     coupled_to_surface_via_temp_ := false;
     coupled_to_surface_via_flux_ := false;
     entity_get_parent := fun c => c;
     EnergyBaseBC.face_area := fun _ => 1;
     EnergyBaseBC.face_get_cells :=
       fun f => match f with O => [0; 1]%nat | _ => [1%nat] end;
     nfaces_owned := 2;
     applyDirichletBCs := dirichlet_faces |}.

Definition tables_line : Tables :=
  {| markers := [OPERATOR_BC_NONE; OPERATOR_BC_NONE];
     values := [0; 0];
     adv_markers := [OPERATOR_BC_NONE; OPERATOR_BC_NONE];
     adv_values := [0; 0] |}.

(** A kernel on that column whose temperature boundary function gives
    265 K on face 1 at every time; the diffusion operator leaves a
    Dirichlet face at its value and any other face at the average. *)
Definition energy_line (freezing faces : bool) : Energy :=
  {| pk := pk_line freezing faces (-1);
     kernel := kernel_line;
     bc_ := tables_line;
     temperature_at := fun _ => [(1%nat, 265)];
     flux_at := fun _ => [];
     consistent_faces :=
       fun t u f =>
         match markers t !! f with
         | Some OPERATOR_BC_DIRICHLET => default 0 (values t !! f)
         | _ => default 0 (default [] (ViewComponent u "face") !! f)
         end;
     S_next_ := ∅;
     S_next_time := 0 |}.

(** The flag, the vector and the kernel after a call, [u] and [e]
    themselves should the call not return. *)
Definition after_call (e : Energy) (h : float) (u0 u : CompositeVector)
  : bool * CompositeVector * Energy :=
  default (false, u, e) (ModifyPredictor e h u0 u).

(** Two vectors with boundary faces; no entry of the second lies on the
    other side of the freezing point than in the first. *)
Definition u_old_bf : CompositeVector :=
  [("cell"%string, [280; 260]); ("boundary_face"%string, [280; 280])].
Definition u_pred_bf : CompositeVector :=
  [("cell"%string, [281; 259]); ("boundary_face"%string, [281; 281])].

(** [u_pred] after a call with the freezing option, and after one with
    the consistent faces. *)
Definition u_frozen : CompositeVector :=
  [("cell"%string, [273.15 - 0.00001; 273.15 + 0.00001]);
   ("face"%string, [275; 265])].
Definition u_consistent : CompositeVector :=
  [("cell"%string, [270; 280]); ("face"%string, [275; 265])].

(** *** Vectors, component by component *)

Lemma write_cons w x l :
  write w (x :: l) = default x (w 0%nat) :: write (fun i => w (S i)) l.
Proof. reflexivity. Qed.

Lemma write_twice l : forall w, write w (write w l) = write w l.
Proof.
  induction l as [|x l IH]; intros w; [reflexivity|].
  rewrite !write_cons. rewrite IH. f_equal. now destruct (w 0%nat).
Qed.

Lemma length_write w l : length (write w l) = length l.
Proof. apply length_imap. Qed.

Lemma layout_names u v : layout u = layout v -> u.*1 = v.*1.
Proof.
  unfold layout. intros H. apply (f_equal (fmap fst)) in H.
  rewrite <- !list_fmap_compose in H. exact H.
Qed.

Lemma layout_componentwise (g : string -> list float -> list float) u :
  (forall n l, length (g n l) = length l) ->
  layout (map (fun c => (c.1, g c.1 c.2)) u) = layout u.
Proof.
  intros Hg. unfold layout. rewrite map_map. apply map_ext.
  intros [n l]. simpl. now rewrite Hg.
Qed.

Lemma ViewComponent_componentwise (g : string -> list float -> list float) u n :
  ViewComponent (map (fun c => (c.1, g c.1 c.2)) u) n
  = g n <$> ViewComponent u n.
Proof.
  induction u as [|[n' d] rest IH]; simpl; [reflexivity|].
  destruct (String.eqb_spec n' n) as [->|Hne]; [reflexivity|exact IH].
Qed.

Lemma ViewComponent_None u n : n ∉ u.*1 -> ViewComponent u n = None.
Proof.
  induction u as [|[n' d] rest IH]; simpl; intros Hn; [reflexivity|].
  destruct (String.eqb_spec n' n) as [->|Hne]; [set_solver|].
  apply IH. set_solver.
Qed.

(** Two vectors with the same distinct names and the same views are the
    same vector. *)
Lemma vector_ext u : forall v,
  NoDup u.*1 -> u.*1 = v.*1 ->
  (forall n, ViewComponent u n = ViewComponent v n) -> u = v.
Proof.
  induction u as [|[n d] rest IH]; intros [|[n' d'] rest'] Hnd Hnames Hview;
    try discriminate; [reflexivity|].
  rewrite !fmap_cons in Hnames, Hnd. simpl in Hnames, Hnd.
  injection Hnames as <- Hrest.
  apply NoDup_cons in Hnd as [Hn Hnd].
  pose proof (Hview n) as Hd. simpl in Hd. rewrite String.eqb_refl in Hd.
  injection Hd as <-. f_equal. apply IH; [assumption|assumption|].
  intros m. destruct (String.eqb_spec n m) as [<-|Hne].
  - rewrite (ViewComponent_None rest n Hn).
    rewrite Hrest in Hn. now rewrite (ViewComponent_None rest' n Hn).
  - specialize (Hview m). simpl in Hview.
    now destruct (String.eqb_spec n m).
Qed.

Lemma SetComponent_names v name data : (SetComponent v name data).*1 = v.*1.
Proof.
  induction v as [|[n d] rest IH]; simpl; [reflexivity|].
  destruct (String.eqb n name); rewrite !fmap_cons; [reflexivity|].
  now rewrite IH.
Qed.

(** *** The freezing loops after a store *)

Lemma freeze_value_flag x0 x m :
  freeze_value x0 x m = ((freeze_value x0 x false).1, snapped x0 x || m).
Proof.
  unfold freeze_value, snapped.
  destruct (273.15 <? x0), (x <? 273.15), (x0 <? 273.15), (273.15 <? x);
    reflexivity.
Qed.

(** Storing the same values again into what a freezing loop left of a
    vector they were stored into, and running the loop again, changes
    nothing. *)
Lemma freeze_loop_write u0 : forall w l m ys m',
  freeze_loop u0 (write w l) m = Some (ys, m') ->
  exists s, m' = s || m /\
    forall m2, freeze_loop u0 (write w ys) m2 = Some (ys, s || m2).
Proof.
  induction u0 as [|x0 u0' IH]; intros w l m ys m' H.
  - simpl in H. assert (ys = write w l /\ m' = m) as [-> ->].
    { destruct (write w l); now injection H as <- <-. }
    exists false. split; [reflexivity|]. intros m2. rewrite write_twice.
    now destruct (write w l).
  - destruct l as [|x l']; [discriminate|].
    rewrite write_cons in H. simpl in H.
    pose proof (freeze_value_fixed x0 (default x (w 0%nat)) m) as Hv.
    destruct (freeze_value x0 (default x (w 0%nat)) m) as [y m1] eqn:Ev.
    destruct Hv as [-> Hy].
    destruct (freeze_loop u0' _ _) as [[ys' m1']|] eqn:E; [|discriminate].
    injection H as <- <-.
    destruct (IH _ _ _ _ _ E) as (s & -> & Hs).
    exists (s || snapped x0 (default x (w 0%nat))).
    split; [now rewrite orb_assoc|].
    intros m2. rewrite write_cons. simpl.
    assert (freeze_value x0 (default y (w 0%nat)) m2
            = (y, snapped x0 (default x (w 0%nat)) || m2)) as ->.
    { destruct (w 0%nat) as [c|]; simpl in *; [|apply Hy].
      rewrite freeze_value_flag. rewrite freeze_value_flag in Ev.
      now injection Ev as ->. }
    rewrite Hs. now rewrite orb_assoc.
Qed.

Lemma freeze_component_rewrite name u0 x m x1 m1 wn l :
  ViewComponent x name = Some (write wn l) ->
  freeze_component name u0 x m = Some (x1, m1) ->
  exists s ys, m1 = s || m /\ ViewComponent x1 name = Some ys /\
    (forall n, n <> name -> ViewComponent x1 n = ViewComponent x n) /\
    forall y m2, ViewComponent y name = Some (write wn ys) ->
      freeze_component name u0 y m2 = Some (SetComponent y name ys, s || m2).
Proof.
  intros Hx. unfold freeze_component.
  destruct (ViewComponent u0 name) as [u0_c|]; [|discriminate].
  rewrite Hx.
  destruct (freeze_loop u0_c (write wn l) m) as [[ys m']|] eqn:E;
    [|discriminate].
  intros [= <- <-]. destruct (freeze_loop_write _ _ _ _ _ _ E) as (s & -> & Hs).
  exists s, ys. split; [reflexivity|]. split.
  { apply ViewComponent_SetComponent_eq. rewrite Hx. eauto. }
  split.
  { intros n Hn. now apply ViewComponent_SetComponent_ne. }
  intros y m2 Hy. now rewrite Hy, Hs.
Qed.

(** A view that holds stored values holds them after another store. *)
Lemma stored_again (w : string -> nat -> option float) u x n :
  ViewComponent x n = write (w n) <$> ViewComponent u n ->
  write (w n) <$> ViewComponent x n = ViewComponent x n.
Proof.
  intros ->. destruct (ViewComponent u n); simpl; [|reflexivity].
  now rewrite write_twice.
Qed.

Lemma freeze_stage_rewrite p u0 (w : string -> nat -> option float) u x x2 mf :
  (forall n, ViewComponent x n = write (w n) <$> ViewComponent u n) ->
  freeze_stage p u0 x = Some (x2, mf) ->
  forall u' y,
    (forall n, ViewComponent y n = write (w n) <$> ViewComponent u' n) ->
    ViewComponent u' "cell" = ViewComponent x2 "cell" ->
    ViewComponent u' "boundary_face" = ViewComponent x2 "boundary_face" ->
    exists y2, freeze_stage p u0 y = Some (y2, mf) /\ y2.*1 = y.*1 /\
      ViewComponent y2 "cell" = ViewComponent x2 "cell" /\
      ViewComponent y2 "boundary_face" = ViewComponent x2 "boundary_face" /\
      forall n, n <> "cell"%string -> n <> "boundary_face"%string ->
        ViewComponent y2 n = ViewComponent y n.
Proof.
  intros Hx. unfold freeze_stage.
  destruct (modify_predictor_for_freezing_ p).
  2:{ intros [= <- <-] u' y Hy Hc Hb. exists y.
      split; [reflexivity|]. split; [reflexivity|].
      rewrite !Hy, Hc, Hb.
      rewrite (stored_again w u x "cell"), (stored_again w u x "boundary_face")
        by apply Hx.
      easy. }
  destruct (freeze_component "cell" u0 x false) as [[xc mc]|] eqn:Ec;
    [|discriminate].
  assert (exists l, ViewComponent x "cell" = Some (write (w "cell"%string) l))
    as [lc Hxc].
  { rewrite Hx. destruct (ViewComponent u "cell") as [l|] eqn:El; [now exists l|].
    unfold freeze_component in Ec. rewrite Hx, El in Ec. simpl in Ec.
    now destruct (ViewComponent u0 "cell"). }
  destruct (freeze_component_rewrite _ _ _ _ _ _ _ _ Hxc Ec)
    as (sc & ysc & -> & Hvc & Hoc & Fc).
  destruct (HasComponent u0 "boundary_face").
  - intros Eb u' y Hy Hc Hb.
    assert (exists l, ViewComponent xc "boundary_face"
                      = Some (write (w "boundary_face"%string) l)) as [lb Hxb].
    { rewrite Hoc by discriminate. rewrite Hx.
      destruct (ViewComponent u "boundary_face") as [l|] eqn:El;
        [now exists l|].
      unfold freeze_component in Eb.
      rewrite Hoc, Hx, El in Eb by discriminate. simpl in Eb.
      now destruct (ViewComponent u0 "boundary_face"). }
    destruct (freeze_component_rewrite _ _ _ _ _ _ _ _ Hxb Eb)
      as (sb & ysb & -> & Hvb & Hob & Fb).
    assert (ViewComponent x2 "cell" = Some ysc) as Hx2c
      by (rewrite Hob by discriminate; exact Hvc).
    assert (ViewComponent y "cell" = Some (write (w "cell"%string) ysc)) as Hyc
      by (rewrite Hy, Hc, Hx2c; reflexivity).
    rewrite (Fc y false Hyc).
    assert (ViewComponent (SetComponent y "cell" ysc) "boundary_face"
            = Some (write (w "boundary_face"%string) ysb)) as Hyb.
    { rewrite ViewComponent_SetComponent_ne by discriminate.
      rewrite Hy, Hb, Hvb. reflexivity. }
    rewrite (Fb _ _ Hyb).
    eexists. split; [reflexivity|]. split.
    { now rewrite !SetComponent_names. }
    split.
    { rewrite ViewComponent_SetComponent_ne by discriminate.
      rewrite ViewComponent_SetComponent_eq by (rewrite Hyc; eauto).
      now rewrite Hx2c. }
    split.
    { rewrite ViewComponent_SetComponent_eq by (rewrite Hyb; eauto).
      now rewrite Hvb. }
    intros n H1 H2. now rewrite !ViewComponent_SetComponent_ne by congruence.
  - intros [= <- <-] u' y Hy Hc Hb.
    assert (ViewComponent y "cell" = Some (write (w "cell"%string) ysc)) as Hyc
      by (rewrite Hy, Hc, Hvc; reflexivity).
    rewrite (Fc y false Hyc).
    eexists. split; [reflexivity|]. split.
    { now rewrite SetComponent_names. }
    split.
    { rewrite ViewComponent_SetComponent_eq by (rewrite Hyc; eauto).
      now rewrite Hvc. }
    split.
    { rewrite ViewComponent_SetComponent_ne by discriminate.
      rewrite Hy, Hb. rewrite Hoc by discriminate.
      now apply (stored_again w u). }
    intros n H1 H2. now rewrite ViewComponent_SetComponent_ne by congruence.
Qed.

(** The two blocks after a second store: with [x] the vector [u] after a
    store and [y] their result [u'] after the same store, the blocks
    take [y] to [u'] again, with the same flag. *)
Lemma predictor_modification_rewrite p h u0
    (w : string -> nat -> option float) u x m u' y :
  NoDup x.*1 ->
  (forall n, ViewComponent x n = write (w n) <$> ViewComponent u n) ->
  predictor_modification p h u0 x = Some (m, u') ->
  y.*1 = u'.*1 ->
  (forall n, ViewComponent y n = write (w n) <$> ViewComponent u' n) ->
  predictor_modification p h u0 y = Some (m, u').
Proof.
  intros Hnd Hx Hfirst Hnames Hy.
  pose proof (predictor_modification_layout _ _ _ _ _ _ Hfirst) as [Hlay _].
  apply layout_names in Hlay. revert Hfirst.
  unfold predictor_modification.
  destruct (freeze_stage p u0 x) as [[x2 mf]|] eqn:Ef; [|discriminate].
  destruct (freeze_stage_fixed _ _ _ _ _ Ef) as [Hother _].
  assert (forall n, n <> "cell"%string -> n <> "boundary_face"%string ->
            write (w n) <$> ViewComponent x2 n = ViewComponent x2 n) as Hkept.
  { intros n H1 H2. rewrite Hother by assumption. now apply (stored_again w u). }
  destruct (modify_predictor_with_consistent_faces_ p).
  - destruct (CalculateConsistentFaces p x2) as [x3|] eqn:Ec; [|discriminate].
    intros [= <- <-].
    destruct (CalculateConsistentFaces_fixed _ _ _ Ec) as (Hc & Hb & _).
    destruct (freeze_stage_rewrite _ _ _ _ _ _ _ Hx Ef x3 y Hy Hc Hb)
      as (y2 & -> & Hn2 & Hc2 & Hb2 & Ho2).
    revert Ec. unfold CalculateConsistentFaces. rewrite Hc2.
    destruct (ViewComponent x2 "cell") as [owned_c|] eqn:Ecell; [|discriminate].
    destruct (ViewComponent x2 "face") as [u_f|] eqn:Eface; [|discriminate].
    destruct (mapM _ (seq 0 (length u_f))) as [averaged|] eqn:Ea;
      [|discriminate].
    intros [= <-]. rewrite SetComponent_twice in *.
    assert (exists y_f, ViewComponent y2 "face" = Some y_f /\
                        length y_f = length u_f) as (y_f & -> & ->).
    { rewrite Ho2, Hy by discriminate.
      rewrite ViewComponent_SetComponent_eq by (rewrite Eface; eauto).
      simpl. eexists. split; [reflexivity|].
      now rewrite length_write, length_map, length_seq. }
    rewrite Ea.
    assert (SetComponent y2 "face" averaged = SetComponent x2 "face" averaged)
      as ->; [|now rewrite !SetComponent_twice].
    rewrite SetComponent_names in Hlay, Hnames.
    apply vector_ext.
    + rewrite SetComponent_names, Hn2, Hnames, Hlay. exact Hnd.
    + rewrite !SetComponent_names. congruence.
    + intros n. destruct (String.eqb_spec n "face") as [->|Hface].
      * rewrite !ViewComponent_SetComponent_eq; [reflexivity| |].
        -- rewrite Eface. eauto.
        -- rewrite Ho2, Hy by discriminate.
           rewrite ViewComponent_SetComponent_eq by (rewrite Eface; eauto).
           simpl. eauto.
      * rewrite !ViewComponent_SetComponent_ne by congruence.
        destruct (String.eqb_spec n "cell") as [->|Hcell];
          [now rewrite Ecell|].
        destruct (String.eqb_spec n "boundary_face") as [->|Hbf]; [exact Hb2|].
        rewrite Ho2, Hy by assumption.
        rewrite ViewComponent_SetComponent_ne by congruence.
        now apply Hkept.
  - intros [= <- <-].
    destruct (freeze_stage_rewrite _ _ _ _ _ _ _ Hx Ef x2 y Hy eq_refl eq_refl)
      as (y2 & -> & Hn2 & Hc2 & Hb2 & Ho2).
    assert (y2 = x2) as ->; [|reflexivity].
    apply vector_ext.
    + rewrite Hn2, Hnames, Hlay. exact Hnd.
    + congruence.
    + intros n.
      destruct (String.eqb_spec n "cell") as [->|Hcell]; [exact Hc2|].
      destruct (String.eqb_spec n "boundary_face") as [->|Hbf]; [exact Hb2|].
      rewrite Ho2, Hy by assumption. now apply Hkept.
Qed.

(** *** The tables and the State of a second call *)

Lemma tables_ext t t' n :
  sized t n -> sized t' n -> adv_values t = adv_values t' ->
  (forall g, (g < n)%nat -> at_face t g = at_face t' g) -> t = t'.
Proof.
  intros (H1 & H2 & H3 & _) (H1' & H2' & H3' & _) Hadv Hat.
  assert (markers t = markers t' /\ values t = values t' /\
          adv_markers t = adv_markers t') as (Hm & Hv & Ha).
  { repeat split; apply list_eq; intros g;
      (destruct (decide (g < n)%nat) as [Hg|Hg];
       [specialize (Hat g Hg); unfold at_face in Hat; congruence
       |rewrite !lookup_ge_None_2 by lia; reflexivity]). }
  destruct t, t'. simpl in *. congruence.
Qed.

Lemma reset_sized t t' n : sized t n -> sized t' n -> reset t = reset t'.
Proof.
  intros Hs Hs'.
  destruct (reset_spec t n Hs) as (Hr & Hadv & Hat).
  destruct (reset_spec t' n Hs') as (Hr' & Hadv' & Hat').
  apply (tables_ext _ _ n); [assumption|assumption|congruence|].
  intros g Hg. now rewrite Hat, Hat'.
Qed.

Lemma assignments_other_field k (S : State) v :
  key_ k <> "surface_temperature"%string -> key_ k <> ss_flux_key_ k ->
  assignments k (<[key_ k := v]> S) = assignments k S.
Proof.
  intros H1 H2. unfold assignments, cell_view.
  now rewrite !lookup_insert_ne by assumption.
Qed.

(** The call, with the State of [UpdateBoundaryConditions_] read off. *)
Lemma ModifyPredictor_spec e h u0 u :
  ModifyPredictor e h u0 u =
  let k := with_boundary_functions (kernel e)
             (temperature_at e (S_next_time e)) (flux_at e (S_next_time e)) in
  stores ← assignments k (<[key_ k := u]> (S_next_ e));
  let t := remaining_faces k (foldl assign (reset (bc_ e)) stores) in
  '(modified, u2) ←
    predictor_modification (with_tables (pk e) t (consistent_faces e)) h u0
      (applyDirichletBCs k (markers t) (values t) u);
  Some (modified, u2,
        {| pk := pk e; kernel := k; bc_ := t;
           temperature_at := temperature_at e; flux_at := flux_at e;
           consistent_faces := consistent_faces e;
           S_next_ := <[key_ k := u2]> (S_next_ e);
           S_next_time := S_next_time e |}).
Proof.
  unfold ModifyPredictor, UpdateBoundaryConditions_. cbv zeta.
  destruct (assignments _ _) as [stores|]; [|reflexivity]. simpl.
  rewrite lookup_insert_eq. simpl. rewrite lookup_insert_eq. simpl.
  destruct (predictor_modification _ _ _ _) as [[m u2]|]; [|reflexivity].
  simpl. now rewrite !insert_insert_eq.
Qed.

(** *** A second call *)

(** C3, as amended: a second call of [ModifyPredictor] on the output of
    the first (same [h], same [u0], the kernel and its State as the
    first call left them) leaves [u] and the kernel as they are and
    returns the same flag as the first call: [true] again whenever the
    first call moved a value to the freezing threshold or consistent
    faces are on.  The tables hold one entry per face, the components of
    [u] have distinct names, the temperature is not one of the fields of
    the coupled surface, and [applyDirichletBCs] stores values that the
    tables determine. *)
Theorem ModifyPredictor_twice e h u0 u modified u' e' n :
  sized (bc_ e) n ->
  NoDup u.*1 ->
  overwrites (applyDirichletBCs (kernel e)) ->
  key_ (kernel e) <> "surface_temperature"%string ->
  key_ (kernel e) <> ss_flux_key_ (kernel e) ->
  ModifyPredictor e h u0 u = Some (modified, u', e') ->
  ModifyPredictor e' h u0 u' = Some (modified, u', e').
Proof.
  intros Hs Hnd [W HW] Hk1 Hk2. rewrite !ModifyPredictor_spec. cbv zeta.
  set (k := with_boundary_functions (kernel e)
              (temperature_at e (S_next_time e)) (flux_at e (S_next_time e))).
  rewrite (assignments_other_field k) by assumption.
  destruct (assignments k (S_next_ e)) as [stores|] eqn:Ea; [|discriminate].
  simpl. set (t := remaining_faces k (foldl assign (reset (bc_ e)) stores)).
  destruct (predictor_modification _ h u0 _) as [[m u2]|] eqn:Ep;
    [|discriminate].
  simpl. intros [= <- <- <-]. simpl. fold k.
  rewrite (assignments_other_field k) by assumption.
  rewrite (assignments_other_field k) by assumption.
  rewrite Ea. simpl.
  destruct (reset_spec _ n Hs) as (Hr & _).
  destruct (stores_spec stores _ n Hr) as (Ha & _).
  destruct (remaining_spec k _ n Ha) as (Hz & _). fold t in Hz.
  rewrite (reset_sized t (bc_ e) n Hz Hs).
  change (with_boundary_functions k (temperature_at e (S_next_time e))
            (flux_at e (S_next_time e))) with k.
  fold t. rewrite HW in Ep |- *.
  pose proof (predictor_modification_layout _ _ _ _ _ _ Ep) as [Hlay _].
  unfold same_layout in Hlay. fold (layout u2) in Hlay.
  rewrite (layout_componentwise (fun n => write (W (markers t) (values t) (layout u) n)))
    in Hlay by (intros; apply length_write).
  fold (layout u) in Hlay. rewrite Hlay.
  set (w := W (markers t) (values t) (layout u)) in *.
  assert (forall x : CompositeVector,
            (map (fun c => (c.1, write (w c.1) c.2)) x).*1 = x.*1) as Hnames.
  { intros x. apply layout_names.
    apply (layout_componentwise (fun n0 => write (w n0))).
    intros. apply length_write. }
  rewrite (predictor_modification_rewrite _ h u0 w u _ m u2 _
             ltac:(rewrite Hnames; exact Hnd)
             (ViewComponent_componentwise (fun n0 => write (w n0)) u)
             Ep (Hnames u2)
             (ViewComponent_componentwise (fun n0 => write (w n0)) u2)).
  simpl. now rewrite !insert_insert_eq.
Qed.

(** C3 as stated fails: the second call returns [modified = true], in
    the freezing branch (first two equations) and in the
    consistent-faces branch (last two), although it changes nothing. *)
Lemma ModifyPredictor_second_call_modified :
  fst <$> ModifyPredictor (energy_line true false) 1 u_old u_pred
  = Some (true, u_frozen) /\
  fst <$> ModifyPredictor (after_call (energy_line true false) 1 u_old u_pred).2
            1 u_old u_frozen
  = Some (true, u_frozen) /\
  fst <$> ModifyPredictor (energy_line false true) 1 u_old u_pred
  = Some (true, u_consistent) /\
  fst <$> ModifyPredictor (after_call (energy_line false true) 1 u_old u_pred).2
            1 u_old u_consistent
  = Some (true, u_consistent).
Proof. repeat split; reflexivity. Qed.

Lemma write_nothing l : forall w, (forall i, w i = None) -> write w l = l.
Proof.
  induction l as [|x l IH]; intros w Hw; [reflexivity|].
  rewrite write_cons, Hw. simpl. f_equal. apply IH. intros i. apply Hw.
Qed.

Lemma dirichlet_faces_overwrites : overwrites dirichlet_faces.
Proof.
  exists (fun m v _ name f =>
            if String.eqb name "face" || String.eqb name "boundary_face" then
              match m !! f with
              | Some OPERATOR_BC_DIRICHLET => v !! f
              | _ => None
              end
            else None).
  intros m v u. unfold dirichlet_faces. apply map_ext. intros [name l]. simpl.
  destruct (String.eqb name "face" || String.eqb name "boundary_face");
    [reflexivity|].
  now rewrite write_nothing.
Qed.

Lemma ModifyPredictor_twice_witness :
  ModifyPredictor (after_call (energy_line true true) 1 u_old u_pred).2
    1 u_old (after_call (energy_line true true) 1 u_old u_pred).1.2
  = Some (after_call (energy_line true true) 1 u_old u_pred).
Proof.
  apply (ModifyPredictor_twice (energy_line true true) 1 u_old u_pred
           true _ _ 2).
  - repeat split.
  - repeat constructor; set_solver.
  - exact dirichlet_faces_overwrites.
  - discriminate.
  - discriminate.
  - reflexivity.
Defined.

(** With both options on, the cells are moved to the freezing point, face
    0 gets the value the operator derives from their average, and face 1
    keeps the 265 K of its boundary condition. *)
Example ModifyPredictor_both_options :
  (after_call (energy_line true true) 1 u_old u_pred).1
  = (true,
     [("cell"%string, [273.15 - 0.00001; 273.15 + 0.00001]);
      ("face"%string,
       [(0 + (273.15 - 0.00001) + (273.15 + 0.00001)) / 2; 265])]).
Proof. reflexivity. Qed.

(** *** The flag and the frame *)

(** X6: without the consistent-faces option, a returning
    [ModifyPredictor] gives [true] exactly when the freezing option is on
    and some cell entry, or some boundary-face entry when [u0] has that
    component, lies on the other side of 273.15 K than in [u0], in [u] as
    [applyDirichletBCs] leaves it with the tables of this call: a
    Dirichlet value can raise the flag where the entries of the [u]
    handed in would not. *)
Theorem ModifyPredictor_flags_crossing e h u0 u modified u' e' :
  modify_predictor_with_consistent_faces_ (pk e) = false ->
  ModifyPredictor e h u0 u = Some (modified, u', e') ->
  let x := applyDirichletBCs (kernel e) (markers (bc_ e')) (values (bc_ e')) u in
  modified =
  modify_predictor_for_freezing_ (pk e)
  && (crosses u0 x "cell"
      || HasComponent u0 "boundary_face" && crosses u0 x "boundary_face").
Proof.
  intros Hfaces. rewrite ModifyPredictor_spec. cbv zeta.
  destruct (assignments _ _) as [stores|]; [|discriminate]. simpl.
  destruct (predictor_modification _ h u0 _) as [[m u2]|] eqn:Ep;
    [|discriminate].
  simpl. intros [= <- <- <-]. simpl.
  exact (predictor_modification_flag (with_tables _ _ _) _ _ _ _ _ Hfaces Ep).
Qed.

Lemma ModifyPredictor_flags_crossing_witness :
  (after_call (energy_line true false) 1 u_old_bf u_pred_bf).1.1 = true /\
  crosses u_old_bf u_pred_bf "cell"
  || HasComponent u_old_bf "boundary_face"
     && crosses u_old_bf u_pred_bf "boundary_face" = false /\
  (after_call (energy_line true false) 1 u_old_bf u_pred_bf).1.1 =
  modify_predictor_for_freezing_ (pk (energy_line true false))
  && (crosses u_old_bf
        (dirichlet_faces
           [OPERATOR_BC_NONE; OPERATOR_BC_DIRICHLET] [0; 265] u_pred_bf)
        "cell"
      || HasComponent u_old_bf "boundary_face"
         && crosses u_old_bf
              (dirichlet_faces
                 [OPERATOR_BC_NONE; OPERATOR_BC_DIRICHLET] [0; 265]
                 u_pred_bf)
              "boundary_face").
Proof.
  split; [reflexivity|]. split; [reflexivity|].
  apply (ModifyPredictor_flags_crossing (energy_line true false) 1
           u_old_bf u_pred_bf
           (after_call (energy_line true false) 1 u_old_bf u_pred_bf).1.1
           (after_call (energy_line true false) 1 u_old_bf u_pred_bf).1.2
           (after_call (energy_line true false) 1 u_old_bf u_pred_bf).2).
  - reflexivity.
  - reflexivity.
Defined.

(** X7: when [applyDirichletBCs] only stores values into entries of the
    vector, a returning [ModifyPredictor] keeps the layout of [u]: the
    result has the same components in the same order and of the same
    lengths.  Of the State the call changes the temperature field, which
    is the result, and no other field; the options, the mesh and the
    boundary functions of the kernel stay. *)
Theorem ModifyPredictor_keeps_layout e h u0 u modified u' e' :
  overwrites (applyDirichletBCs (kernel e)) ->
  ModifyPredictor e h u0 u = Some (modified, u', e') ->
  same_layout u u' /\
  S_next_ e' = <[key_ (kernel e) := u']> (S_next_ e) /\
  pk e' = pk e /\ temperature_at e' = temperature_at e /\
  flux_at e' = flux_at e /\ S_next_time e' = S_next_time e.
Proof.
  intros [W HW]. rewrite ModifyPredictor_spec. cbv zeta.
  destruct (assignments _ _) as [stores|]; [|discriminate]. simpl.
  destruct (predictor_modification _ h u0 _) as [[m u2]|] eqn:Ep;
    [|discriminate].
  simpl. intros [= <- <- <-]. simpl. split; [|easy].
  destruct (predictor_modification_layout _ _ _ _ _ _ Ep) as [Hlay _].
  change (applyDirichletBCs (with_boundary_functions (kernel e) _ _))
    with (applyDirichletBCs (kernel e)) in Hlay.
  rewrite HW in Hlay. unfold same_layout in *. rewrite Hlay.
  apply (layout_componentwise (fun n => write (W _ _ _ n))).
  intros. apply length_write.
Qed.

Lemma ModifyPredictor_keeps_layout_witness :
  same_layout u_pred_bf
    (after_call (energy_line true false) 1 u_old_bf u_pred_bf).1.2 /\
  S_next_ (after_call (energy_line true false) 1 u_old_bf u_pred_bf).2
  = <[key_ (kernel (energy_line true false)) :=
        (after_call (energy_line true false) 1 u_old_bf u_pred_bf).1.2]>
      (S_next_ (energy_line true false)) /\
  pk (after_call (energy_line true false) 1 u_old_bf u_pred_bf).2
  = pk (energy_line true false) /\
  temperature_at (after_call (energy_line true false) 1 u_old_bf u_pred_bf).2
  = temperature_at (energy_line true false) /\
  flux_at (after_call (energy_line true false) 1 u_old_bf u_pred_bf).2
  = flux_at (energy_line true false) /\
  S_next_time (after_call (energy_line true false) 1 u_old_bf u_pred_bf).2
  = S_next_time (energy_line true false).
Proof.
  apply (ModifyPredictor_keeps_layout (energy_line true false) 1
           u_old_bf u_pred_bf
           (after_call (energy_line true false) 1 u_old_bf u_pred_bf).1.1).
  - exact dirichlet_faces_overwrites.
  - reflexivity.
Defined.

(** The boundary face with the Dirichlet value of 265 K is moved to the
    freezing point, against the 280 K it had in [u0]. *)
Example ModifyPredictor_freezes_dirichlet_face :
  (after_call (energy_line true false) 1 u_old_bf u_pred_bf).1
  = (true,
     [("cell"%string, [281; 259]);
      ("boundary_face"%string, [281; 273.15 - 0.00001])]).
Proof. reflexivity. Qed.

End EnergyBasePredictor.

(** ** Partial derivatives of the energy evaluators *)

Module EnergyDerivatives.
Import Vec Exc Evaluator EnergyEvaluators.

(** *** [RichardsEnergyEvaluator::EvaluateFieldPartialDerivative_] *)

Module Richards.
Import RichardsEnergy.

(** The cascade over [wrt_key]; its last branch is [AMANZI_ASSERT(0)]. *)
Definition EvaluateFieldPartialDerivative_ (ev : RichardsEnergyEvaluator)
  (S : State) (wrt_key : Key) (result : CompositeVector)
  : Outcome CompositeVector :=
  match GetFields ev S with
  | None => Raise InvalidAccess
  | Some d =>
      let m := model_ ev in
      let loop f := access (components_loop (component_body f d) result) in
      if String.eqb wrt_key (phi_key_ ev) then loop (DEnergyDPorosity m)
      else if String.eqb wrt_key (phi0_key_ ev) then loop (DEnergyDBasePorosity m)
      else if String.eqb wrt_key (sl_key_ ev) then loop (DEnergyDSaturationLiquid m)
      else if String.eqb wrt_key (nl_key_ ev) then loop (DEnergyDMolarDensityLiquid m)
      else if String.eqb wrt_key (ul_key_ ev) then loop (DEnergyDInternalEnergyLiquid m)
      else if String.eqb wrt_key (rho_r_key_ ev) then loop (DEnergyDDensityRock m)
      else if String.eqb wrt_key (ur_key_ ev) then loop (DEnergyDInternalEnergyRock m)
      else if String.eqb wrt_key (cv_key_ ev) then loop (DEnergyDCellVolume m)
      else Raise AssertionFailed
  end.

(** The eight direct dependencies in the order of the cascade, the key
    and the model's partial derivative that belong to each. *)
Inductive Dependency :=
  | porosity | base_porosity | saturation_liquid | molar_density_liquid
  | internal_energy_liquid | density_rock | internal_energy_rock | cell_volume.

Definition cascade : list Dependency :=
  [porosity; base_porosity; saturation_liquid; molar_density_liquid;
   internal_energy_liquid; density_rock; internal_energy_rock; cell_volume].

Definition key_of (ev : RichardsEnergyEvaluator) (d : Dependency) : Key :=
  match d with
  | porosity => phi_key_ ev
  | base_porosity => phi0_key_ ev
  | saturation_liquid => sl_key_ ev
  | molar_density_liquid => nl_key_ ev
  | internal_energy_liquid => ul_key_ ev
  | density_rock => rho_r_key_ ev
  | internal_energy_rock => ur_key_ ev
  | cell_volume => cv_key_ ev
  end.

Definition partial_of (m : RichardsEnergyModel) (d : Dependency) : F8 :=
  match d with
  | porosity => DEnergyDPorosity m
  | base_porosity => DEnergyDBasePorosity m
  | saturation_liquid => DEnergyDSaturationLiquid m
  | molar_density_liquid => DEnergyDMolarDensityLiquid m
  | internal_energy_liquid => DEnergyDInternalEnergyLiquid m
  | density_rock => DEnergyDDensityRock m
  | internal_energy_rock => DEnergyDInternalEnergyRock m
  | cell_volume => DEnergyDCellVolume m
  end.

(** The first dependency of the cascade whose key is [wrt_key]. *)
Definition first_with_key (ev : RichardsEnergyEvaluator) (wrt_key : Key)
  : option Dependency :=
  List.find (fun d => String.eqb wrt_key (key_of ev d)) cascade.

End Richards.

(** *** [LiquidIceEnergyEvaluator::EvaluateFieldPartialDerivative_] *)

Module LiquidIce.
Import LiquidIceEnergy.

(** The eleven dependencies in the order of the cascade. *)
Definition cascade : list Dependency :=
  [porosity; base_porosity; saturation_liquid; molar_density_liquid;
   internal_energy_liquid; saturation_ice; molar_density_ice;
   internal_energy_ice; density_rock; internal_energy_rock; cell_volume].

Definition first_with_key (ev : LiquidIceEnergyEvaluator) (wrt_key : Key)
  : option Dependency :=
  List.find (fun d => String.eqb wrt_key (key_of ev d)) cascade.

(** The liquid-ice evaluator of the sample data with the key of the base
    porosity set to that of the porosity. *)
Definition liquid_ice_shared : LiquidIceEnergyEvaluator :=
  {| my_key_ := my_key_ liquid_ice_ev;
     phi_key_ := phi_key_ liquid_ice_ev;
     phi0_key_ := phi_key_ liquid_ice_ev;
     sl_key_ := sl_key_ liquid_ice_ev;
     nl_key_ := nl_key_ liquid_ice_ev;
     ul_key_ := ul_key_ liquid_ice_ev;
     si_key_ := si_key_ liquid_ice_ev;
     ni_key_ := ni_key_ liquid_ice_ev;
     ui_key_ := ui_key_ liquid_ice_ev;
     rho_r_key_ := rho_r_key_ liquid_ice_ev;
     ur_key_ := ur_key_ liquid_ice_ev;
     cv_key_ := cv_key_ liquid_ice_ev;
     model_ := model_ liquid_ice_ev |}.

End LiquidIce.

(** *** Properties *)

Lemma Richards_cascade ev S wrt_key result d :
  RichardsEnergy.GetFields ev S = Some d ->
  Richards.EvaluateFieldPartialDerivative_ ev S wrt_key result =
  match Richards.first_with_key ev wrt_key with
  | Some dep =>
      access (components_loop
                (RichardsEnergy.component_body
                   (Richards.partial_of (RichardsEnergy.model_ ev) dep) d)
                result)
  | None => Raise AssertionFailed
  end.
Proof.
  intros Hd. unfold Richards.EvaluateFieldPartialDerivative_,
    Richards.first_with_key, Richards.cascade. rewrite Hd. cbv zeta. simpl.
  repeat match goal with
         | |- context [String.eqb wrt_key ?k] =>
             destruct (String.eqb wrt_key k); [reflexivity|]
         end.
  reflexivity.
Qed.

Lemma LiquidIce_cascade ev S wrt_key result d :
  LiquidIceEnergy.GetFields ev S = Some d ->
  LiquidIceEnergy.EvaluateFieldPartialDerivative_ ev S wrt_key result =
  match LiquidIce.first_with_key ev wrt_key with
  | Some dep =>
      access (components_loop
                (LiquidIceEnergy.component_body
                   (LiquidIceEnergy.partial_of (LiquidIceEnergy.model_ ev) dep) d)
                result)
  | None => Raise AssertionFailed
  end.
Proof.
  intros Hd. unfold LiquidIceEnergy.EvaluateFieldPartialDerivative_,
    LiquidIce.first_with_key, LiquidIce.cascade. rewrite Hd. cbv zeta. simpl.
  repeat match goal with
         | |- context [String.eqb wrt_key ?k] =>
             destruct (String.eqb wrt_key k); [reflexivity|]
         end.
  reflexivity.
Qed.

(** X8: on well-shaped fields the partial derivative of the Richards
    energy with respect to [wrt_key] is the elementwise image of the
    model's partial derivative for the first of the eight dependencies,
    in the order porosity, base porosity, liquid saturation, liquid molar
    density, liquid internal energy, rock density, rock internal energy,
    cell volume, whose key is [wrt_key]; when no dependency has that key
    the call fails in [AMANZI_ASSERT(0)]. *)
Theorem Richards_partial_derivative ev S wrt_key result :
  RichardsEnergy.fields_shaped ev S result ->
  match Richards.first_with_key ev wrt_key with
  | Some dep =>
      Richards.key_of ev dep = wrt_key /\
      exists result',
        Richards.EvaluateFieldPartialDerivative_ ev S wrt_key result
        = Return result' /\
        RichardsEnergy.computed_pointwise
          (Richards.partial_of (RichardsEnergy.model_ ev) dep) ev S result result'
  | None =>
      (wrt_key ∉ RichardsEnergy.dependencies_ ev) /\
      Richards.EvaluateFieldPartialDerivative_ ev S wrt_key result
      = Raise AssertionFailed
  end.
Proof.
  intros (d & Hd & Hs). rewrite (Richards_cascade ev S wrt_key result d Hd).
  destruct (Richards.first_with_key ev wrt_key) as [dep|] eqn:Ef.
  - unfold Richards.first_with_key in Ef. apply List.find_some in Ef as [_ Hk].
    apply String.eqb_eq in Hk. split; [now symmetry|].
    destruct (Richards_loop_total
                (Richards.partial_of (RichardsEnergy.model_ ev) dep) d result Hs)
      as [result' Hr].
    exists result'. rewrite Hr. split; [reflexivity|].
    exact (Richards_loop_pointwise _ ev S d _ _ Hd Hr).
  - split; [|reflexivity].
    unfold Richards.first_with_key in Ef.
    pose proof (List.find_none _ _ Ef) as Hnone.
    unfold RichardsEnergy.dependencies_. intros Hin.
    assert (exists dep, wrt_key = Richards.key_of ev dep) as [dep Hdep].
    { repeat (apply elem_of_union in Hin as [Hin|Hin]);
        apply elem_of_singleton in Hin;
        [exists Richards.porosity|exists Richards.base_porosity
        |exists Richards.saturation_liquid|exists Richards.molar_density_liquid
        |exists Richards.internal_energy_liquid|exists Richards.density_rock
        |exists Richards.internal_energy_rock|exists Richards.cell_volume];
        exact Hin. }
    specialize (Hnone dep). rewrite Hdep, String.eqb_refl in Hnone.
    assert (In dep Richards.cascade) as Hc
      by (destruct dep; simpl; tauto).
    specialize (Hnone Hc). discriminate.
Qed.

Lemma Richards_partial_derivative_witness :
  Richards.key_of richards_ev Richards.saturation_liquid
  = "saturation_liquid"%string /\
  exists result',
    Richards.EvaluateFieldPartialDerivative_ richards_ev S_energy
      "saturation_liquid" (cells 0.0 0.0) = Return result' /\
    RichardsEnergy.computed_pointwise
      (Richards.partial_of (RichardsEnergy.model_ richards_ev)
         Richards.saturation_liquid)
      richards_ev S_energy (cells 0.0 0.0) result'.
Proof.
  apply (Richards_partial_derivative richards_ev S_energy "saturation_liquid"
           (cells 0.0 0.0)).
  exact S_energy_shaped_richards.
Defined.

Example Richards_partial_derivative_indirect :
  Richards.EvaluateFieldPartialDerivative_ richards_ev S_energy "temperature"
    (cells 0.0 0.0)
  = Raise AssertionFailed.
Proof. reflexivity. Qed.

(** X9: when several dependencies of the liquid-ice evaluator are
    configured with one key, the partial derivative with respect to that
    key is the model's partial derivative for the first of them in the
    order of the cascade (porosity, base porosity, liquid saturation,
    liquid molar density, liquid internal energy, ice saturation, ice
    molar density, ice internal energy, rock density, rock internal
    energy, cell volume) and for that one alone; the later ones are
    never reached. *)
Theorem LiquidIce_partial_derivative_first_match ev S wrt_key result :
  LiquidIceEnergy.fields_shaped ev S result ->
  match LiquidIce.first_with_key ev wrt_key with
  | Some dep =>
      LiquidIceEnergy.key_of ev dep = wrt_key /\
      exists result',
        LiquidIceEnergy.EvaluateFieldPartialDerivative_ ev S wrt_key result
        = Return result' /\
        LiquidIceEnergy.computed_pointwise
          (LiquidIceEnergy.partial_of (LiquidIceEnergy.model_ ev) dep)
          ev S result result'
  | None =>
      LiquidIceEnergy.EvaluateFieldPartialDerivative_ ev S wrt_key result
      = Raise AssertionFailed
  end.
Proof.
  intros (d & Hd & Hs). rewrite (LiquidIce_cascade ev S wrt_key result d Hd).
  destruct (LiquidIce.first_with_key ev wrt_key) as [dep|] eqn:Ef;
    [|reflexivity].
  unfold LiquidIce.first_with_key in Ef. apply List.find_some in Ef as [_ Hk].
  apply String.eqb_eq in Hk. split; [now symmetry|].
  destruct (LiquidIce_loop_total
              (LiquidIceEnergy.partial_of (LiquidIceEnergy.model_ ev) dep)
              d result Hs) as [result' Hr].
  exists result'. rewrite Hr. split; [reflexivity|].
  exact (LiquidIce_loop_pointwise _ ev S d _ _ Hd Hr).
Qed.

Lemma S_energy_shaped_shared :
  LiquidIceEnergy.fields_shaped LiquidIce.liquid_ice_shared S_energy
    (cells 0.0 0.0).
Proof.
  eexists. split; [reflexivity|].
  intros v comp result_v Hv Hin.
  apply list_elem_of_In in Hin. destruct Hin as [[= <- <-]|[]].
  apply list_elem_of_In in Hv. simpl in Hv.
  repeat (destruct Hv as [<-|Hv]; [eexists; split; [reflexivity|simpl; lia]|]).
  destruct Hv.
Qed.

(** With the base porosity under the key of the porosity, the derivative
    with respect to that key is [DEnergyDPorosity] alone. *)
Lemma LiquidIce_partial_derivative_first_match_witness :
  LiquidIceEnergy.key_of LiquidIce.liquid_ice_shared LiquidIceEnergy.porosity
  = "porosity"%string /\
  exists result',
    LiquidIceEnergy.EvaluateFieldPartialDerivative_ LiquidIce.liquid_ice_shared
      S_energy "porosity" (cells 0.0 0.0) = Return result' /\
    LiquidIceEnergy.computed_pointwise
      (LiquidIceEnergy.partial_of
         (LiquidIceEnergy.model_ LiquidIce.liquid_ice_shared)
         LiquidIceEnergy.porosity)
      LiquidIce.liquid_ice_shared S_energy (cells 0.0 0.0) result'.
Proof.
  apply (LiquidIce_partial_derivative_first_match LiquidIce.liquid_ice_shared
           S_energy "porosity" (cells 0.0 0.0)).
  exact S_energy_shaped_shared.
Defined.

End EnergyDerivatives.

(** ** OverlandConductivitySubgridEvaluator: the field and its derivatives *)

Module OverlandConductivityField.
Import Vec Exc Evaluator EnergyEvaluators OverlandConductivitySubgrid.
Local Open Scope float_scope.

(** The six dependencies are in the State, each with a "cell" component
    at least as long as that of [result]. *)
Definition cells_shaped (ev : OverlandConductivitySubgrid.Evaluator)
  (S : State) (result : CompositeVector) : Prop :=
  exists result_v,
    ViewComponent result "cell" = Some result_v /\
    forall key,
      key ∈ [mobile_depth_key_ ev; slope_key_ ev; coef_key_ ev;
             frac_cond_key_ ev; drag_exp_key_ ev; dens_key_ ev] ->
      exists v, S !! key = Some v /\ has_view v "cell" (length result_v).

(** Entry [i] of the "cell" component of [result'] is [f] of the entries
    [i] of the dependencies; the other components are those of
    [result]. *)
Definition cells_computed
  (f : float -> float -> float -> float -> float -> float -> float)
  (ev : OverlandConductivitySubgrid.Evaluator) (S : State)
  (result result' : CompositeVector) : Prop :=
  (exists result_v new_v,
     ViewComponent result "cell" = Some result_v /\
     ViewComponent result' "cell" = Some new_v /\
     length new_v = length result_v /\
     forall i, (i < length result_v)%nat ->
       exists h s c n fc dr,
         value_at S (mobile_depth_key_ ev) "cell" i = Some h /\
         value_at S (slope_key_ ev) "cell" i = Some s /\
         value_at S (coef_key_ ev) "cell" i = Some c /\
         value_at S (dens_key_ ev) "cell" i = Some n /\
         value_at S (frac_cond_key_ ev) "cell" i = Some fc /\
         value_at S (drag_exp_key_ ev) "cell" i = Some dr /\
         new_v !! i = Some (f h s c n fc dr)) /\
  forall name, name <> "cell"%string ->
    ViewComponent result' name = ViewComponent result name.

(** A State with the six fields on two cells; the result has a
    "boundary_face" component besides its cells. *)
Definition S_overland : State :=
  <[ "surface-mobile_depth"%string := [("cell"%string, [0.5; 2])] ]>
  (<[ "surface-slope_magnitude"%string := [("cell"%string, [0.25; 0.5])] ]>
  (<[ "surface-manning_coefficient"%string := [("cell"%string, [2; 4])] ]>
  (<[ "surface-molar_density_liquid"%string := [("cell"%string, [8; 8])] ]>
  (<[ "surface-fractional_conductance"%string := [("cell"%string, [1; 0.5])] ]>
  (<[ "surface-drag_exponent"%string := [("cell"%string, [1; 1])] ]> ∅))))).

Definition ev_surface : OverlandConductivitySubgrid.Evaluator :=
  {| my_key_ := "surface-overland_conductivity";
     mobile_depth_key_ := "surface-mobile_depth";
     slope_key_ := "surface-slope_magnitude";
     coef_key_ := "surface-manning_coefficient";
     dens_key_ := "surface-molar_density_liquid";
     frac_cond_key_ := "surface-fractional_conductance";
     drag_exp_key_ := "surface-drag_exponent";
     visualize := None;
     checkpoint := None;
     model_ := manning |}.

Definition result_surface : CompositeVector :=
  [("cell"%string, [7; 7]); ("boundary_face"%string, [9])].

(** *** Properties *)

Lemma cell_loop_computed f ev S d result :
  GetFields ev S = Some d ->
  cells_shaped ev S result ->
  exists result',
    cell_loop f d result = Some result' /\ cells_computed f ev S result result'.
Proof.
  intros Hd (result_v & Hres & Hs).
  unfold GetFields in Hd. peel Hd. injection Hd as <-.
  assert (forall key v, S !! key = Some v ->
            key ∈ [mobile_depth_key_ ev; slope_key_ ev; coef_key_ ev;
                   frac_cond_key_ ev; drag_exp_key_ ev; dens_key_ ev] ->
            has_view v "cell" (length result_v)) as Hv.
  { intros key v Hk Hin. destruct (Hs key Hin) as (v' & Hk' & Hview).
    rewrite Hk in Hk'. now injection Hk' as ->. }
  destruct (Hv _ _ E ltac:(set_solver)) as (mobile_depth_v & V1 & L1).
  destruct (Hv _ _ E0 ltac:(set_solver)) as (slope_v & V2 & L2).
  destruct (Hv _ _ E1 ltac:(set_solver)) as (coef_v & V3 & L3).
  destruct (Hv _ _ E2 ltac:(set_solver)) as (frac_cond_v & V4 & L4).
  destruct (Hv _ _ E3 ltac:(set_solver)) as (drag_v & V5 & L5).
  destruct (Hv _ _ E4 ltac:(set_solver)) as (dens_v & V6 & L6).
  unfold cell_loop. simpl. rewrite V1, V2, V3, V4, V5, V6, Hres. simpl.
  destruct (mapM_seq_total
              (fun i => h ← mobile_depth_v !! i; s ← slope_v !! i;
                        c ← coef_v !! i; n ← dens_v !! i;
                        fc ← frac_cond_v !! i; dr ← drag_v !! i;
                        Some (f h s c n fc dr)) (length result_v))
    as [new_v Hnew].
  { intros i Hi.
    destruct (lookup_lt_is_Some_2 mobile_depth_v i) as [? ->]; [lia|].
    destruct (lookup_lt_is_Some_2 slope_v i) as [? ->]; [lia|].
    destruct (lookup_lt_is_Some_2 coef_v i) as [? ->]; [lia|].
    destruct (lookup_lt_is_Some_2 dens_v i) as [? ->]; [lia|].
    destruct (lookup_lt_is_Some_2 frac_cond_v i) as [? ->]; [lia|].
    destruct (lookup_lt_is_Some_2 drag_v i) as [? ->]; [lia|].
    simpl. eauto. }
  rewrite Hnew. simpl. eexists. split; [reflexivity|].
  destruct (mapM_seq_lookup _ _ _ Hnew) as [Hlen Hat].
  split.
  - exists result_v, new_v. split; [exact Hres|].
    split; [apply ViewComponent_SetComponent_eq; eauto|].
    split; [exact Hlen|].
    intros i Hi. destruct (Hat i Hi) as (x & Hx & Hr). peel Hx.
    injection Hx as <-. do 6 eexists. unfold value_at.
    rewrite E, E0, E1, E2, E3, E4. simpl. rewrite V1, V2, V3, V4, V5, V6. simpl.
    repeat split; eassumption.
  - intros name Hne. apply ViewComponent_SetComponent_ne. congruence.
Qed.

(** X11: on well-shaped fields [EvaluateField_] returns, and it writes
    the "cell" component only: entry [i] becomes the Manning
    conductivity of (mobile depth, slope, coefficient) times the density
    times the fractional conductance to the power drag exponent plus
    one, all taken at entry [i]; every other component of the result, a
    "boundary_face" one among them, keeps the entries it had. *)
Theorem EvaluateField_writes_cells_only ev S result :
  cells_shaped ev S result ->
  exists result',
    EvaluateField_ ev S result = Some result' /\
    cells_computed
      (fun h s c n fc dr =>
         Conductivity (model_ ev) h s c * (n * pow (model_ ev) fc (dr + 1)))
      ev S result result'.
Proof.
  intros Hs. pose proof Hs as (result_v & _ & Hkeys).
  assert (exists d, GetFields ev S = Some d) as [d Hd].
  { unfold GetFields.
    destruct (Hkeys (mobile_depth_key_ ev) ltac:(set_solver)) as (? & -> & _).
    destruct (Hkeys (slope_key_ ev) ltac:(set_solver)) as (? & -> & _).
    destruct (Hkeys (coef_key_ ev) ltac:(set_solver)) as (? & -> & _).
    destruct (Hkeys (frac_cond_key_ ev) ltac:(set_solver)) as (? & -> & _).
    destruct (Hkeys (drag_exp_key_ ev) ltac:(set_solver)) as (? & -> & _).
    destruct (Hkeys (dens_key_ ev) ltac:(set_solver)) as (? & -> & _).
    simpl. eauto. }
  unfold EvaluateField_. rewrite Hd. simpl.
  now apply cell_loop_computed.
Qed.

Lemma S_overland_shaped : cells_shaped ev_surface S_overland result_surface.
Proof.
  exists [7; 7]. split; [reflexivity|].
  intros key Hin. apply list_elem_of_In in Hin. simpl in Hin.
  repeat (destruct Hin as [<-|Hin];
          [eexists; split; [reflexivity|eexists; split; [reflexivity|simpl; lia]]|]).
  destruct Hin.
Qed.

Lemma EvaluateField_writes_cells_only_witness :
  exists result',
    EvaluateField_ ev_surface S_overland result_surface = Some result' /\
    cells_computed
      (fun h s c n fc dr =>
         Conductivity (model_ ev_surface) h s c
         * (n * pow (model_ ev_surface) fc (dr + 1)))
      ev_surface S_overland result_surface result'.
Proof.
  apply (EvaluateField_writes_cells_only ev_surface S_overland result_surface).
  exact S_overland_shaped.
Defined.

(** The boundary faces keep the 9 they held. *)
Example EvaluateField_leaves_boundary_face :
  (fun r => ViewComponent r "boundary_face")
    <$> EvaluateField_ ev_surface S_overland result_surface
  = Some (Some [9]).
Proof. reflexivity. Qed.

(** Every entry of every component is [x]. *)
Definition constant (x : float) (v : CompositeVector) : Prop :=
  forall name v_c y, ViewComponent v name = Some v_c -> y ∈ v_c -> y = x.

Lemma PutScalar_constant x result : constant x (PutScalar x result).
Proof.
  unfold constant, PutScalar.
  induction result as [|[n d] rest IH]; simpl; intros name v_c y Hv Hy;
    [discriminate|].
  destruct (String.eqb n name).
  - injection Hv as <-. apply list_elem_of_fmap in Hy as (? & -> & _).
    reflexivity.
  - eauto.
Qed.

(** X12: on well-shaped fields the partial derivative of the
    conductivity is computed on the cells for three keys only, tested in
    this order: the mobile depth (the model's [DConductivityDDepth] times
    the density times the fractional conductance to the power drag
    exponent plus one), the density (the conductivity times that power)
    and the fractional conductance (the conductivity times the density
    times drag exponent plus one times the fractional conductance to the
    power drag exponent).  For any other key, the slope, the Manning
    coefficient and the drag exponent among them although they are
    dependencies, the result is set to zero in every component. *)
Theorem EvaluateFieldPartialDerivative_cases ev S wrt_key result :
  cells_shaped ev S result ->
  exists result',
    EvaluateFieldPartialDerivative_ ev S wrt_key result = Some result' /\
    if String.eqb wrt_key (mobile_depth_key_ ev) then
      cells_computed
        (fun h s c n fc dr =>
           DConductivityDDepth (model_ ev) h s c
           * (n * pow (model_ ev) fc (dr + 1)))
        ev S result result'
    else if String.eqb wrt_key (dens_key_ ev) then
      cells_computed
        (fun h s c n fc dr =>
           Conductivity (model_ ev) h s c * pow (model_ ev) fc (dr + 1))
        ev S result result'
    else if String.eqb wrt_key (frac_cond_key_ ev) then
      cells_computed
        (fun h s c n fc dr =>
           Conductivity (model_ ev) h s c
           * (n * (dr + 1) * pow (model_ ev) fc dr))
        ev S result result'
    else result' = PutScalar 0 result /\ constant 0 result'.
Proof.
  intros Hs. pose proof Hs as (result_v & _ & Hkeys).
  assert (exists d, GetFields ev S = Some d) as [d Hd].
  { unfold GetFields.
    destruct (Hkeys (mobile_depth_key_ ev) ltac:(set_solver)) as (? & -> & _).
    destruct (Hkeys (slope_key_ ev) ltac:(set_solver)) as (? & -> & _).
    destruct (Hkeys (coef_key_ ev) ltac:(set_solver)) as (? & -> & _).
    destruct (Hkeys (frac_cond_key_ ev) ltac:(set_solver)) as (? & -> & _).
    destruct (Hkeys (drag_exp_key_ ev) ltac:(set_solver)) as (? & -> & _).
    destruct (Hkeys (dens_key_ ev) ltac:(set_solver)) as (? & -> & _).
    simpl. eauto. }
  unfold EvaluateFieldPartialDerivative_. rewrite Hd. simpl.
  destruct (String.eqb wrt_key (mobile_depth_key_ ev));
    [now apply cell_loop_computed|].
  destruct (String.eqb wrt_key (dens_key_ ev));
    [now apply cell_loop_computed|].
  destruct (String.eqb wrt_key (frac_cond_key_ ev));
    [now apply cell_loop_computed|].
  eexists. split; [reflexivity|]. split; [reflexivity|].
  apply PutScalar_constant.
Qed.

(** The derivative with respect to the slope is zero. *)
Lemma EvaluateFieldPartialDerivative_cases_witness :
  exists result',
    EvaluateFieldPartialDerivative_ ev_surface S_overland
      "surface-slope_magnitude" result_surface = Some result' /\
    result' = PutScalar 0 result_surface /\ constant 0 result'.
Proof.
  apply (EvaluateFieldPartialDerivative_cases ev_surface S_overland
           "surface-slope_magnitude" result_surface).
  exact S_overland_shaped.
Defined.

End OverlandConductivityField.

(** ** WaterTableColumnsEvaluator: the field *)

Module WaterTableColumnsField.
Import Double Vec Exc Evaluator.
Local Open Scope float_scope.

(** An [AmanziGeometry::Point] of the column mesh. *)
Abbreviation Point := (float * float * float)%type.

Definition z (p : Point) : float := p.2.

(** What [EvaluateField_] reads of the evaluator. *)
Record Evaluator := {
  temp_key_ : Key;
  sat_key_ : Key;
  trans_width_ : float
}.

(** [for (i = 0; i != col_cells; ++i) if (sat_c[0][i] == 1.0) ... break]:
    the index the loop stops at, [Some None] when it runs to its end,
    [None] when it reads past the end of [sat_c]. *)
Fixpoint first_saturated (sat_c : list float) (i remaining : nat)
  : option (option nat) :=
  match remaining with
  | O => Some None
  | S remaining' =>
      x ← sat_c !! i;
      if x =? 1.0 then Some (Some i)
      else first_saturated sat_c (S i) remaining'
  end.

(** [WaterTableColumnsEvaluator::EvaluateField_]; [face_centroid] is
    that of the column mesh [S->GetMesh(domain_ss)]. *)
Definition EvaluateField_ (ev : Evaluator) (face_centroid : nat -> Point)
  (S : State) (result : CompositeVector) : option CompositeVector :=
  res_c ← ViewComponent result "cell";
  let trans_temp := 273.15 + 0.5 * trans_width_ ev in
  let top_z_centroid := face_centroid 0%nat in
  temp ← S !! temp_key_ ev;
  temp_c ← ViewComponent temp "cell";
  sat ← S !! sat_key_ ev;
  sat_c ← ViewComponent sat "cell";
  let col_cells := length temp_c in
  found ← first_saturated sat_c 0 col_cells;
  _ ← res_c !! 0%nat;
  let value :=
    match found with
    | Some i => z top_z_centroid - z (face_centroid i)
    | None => -100
    end in
  Some (SetComponent result "cell" (<[0%nat := value]> res_c)).

(** The copy constructor copies the two keys; [trans_width_] is left
    as the new object happens to hold it. *)
Definition Clone (ev : Evaluator) (indeterminate : float) : Evaluator :=
  {| temp_key_ := temp_key_ ev; sat_key_ := sat_key_ ev;
     trans_width_ := indeterminate |}.

(** [i] is the first of the [n] topmost cells whose saturation compares
    equal to 1. *)
Definition topmost_saturated (sat_c : list float) (n i : nat) : Prop :=
  (i < n)%nat /\
  (exists x, sat_c !! i = Some x /\ (x =? 1.0) = true) /\
  forall j, (j < i)%nat -> exists y, sat_c !! j = Some y /\ (y =? 1.0) = false.

(** None of the [n] topmost cells is. *)
Definition none_saturated (sat_c : list float) (n : nat) : Prop :=
  forall j, (j < n)%nat -> exists y, sat_c !! j = Some y /\ (y =? 1.0) = false.

(** The "cell" views of the two dependencies. *)
Definition views (ev : Evaluator) (S : State) (temp_c sat_c : list float)
  : Prop :=
  (exists temp, S !! temp_key_ ev = Some temp /\
                ViewComponent temp "cell" = Some temp_c) /\
  (exists sat, S !! sat_key_ ev = Some sat /\
               ViewComponent sat "cell" = Some sat_c).

(** *** Sample data *)

(** A column of three cells, thawed and saturated from the second cell
    down; the faces lie at 0 m, -1 m, -2 m. *)
Definition ev_column : Evaluator :=
  {| temp_key_ := "column_3-temperature";
     sat_key_ := "column_3-saturation_liquid";
     trans_width_ := 0.2 |}.

Definition faces_column (f : nat) : Point :=
  (0, 0, - double_of_int (Z.of_nat f))%float.

Definition T_column : list float := [270; 274; 275].
Definition sat_column : list float := [0.5; 1; 1].

Definition S_column : State :=
  {[ "column_3-temperature"%string := [("cell"%string, T_column)];
     "column_3-saturation_liquid"%string := [("cell"%string, sat_column)] ]}.

(** *** Properties *)

Lemma first_saturated_spec sat_c : forall remaining i found,
  first_saturated sat_c i remaining = Some found ->
  match found with
  | Some k =>
      (i <= k)%nat /\ (k < i + remaining)%nat /\
      (exists x, sat_c !! k = Some x /\ (x =? 1.0) = true) /\
      forall j, (i <= j)%nat -> (j < k)%nat ->
        exists y, sat_c !! j = Some y /\ (y =? 1.0) = false
  | None =>
      forall j, (i <= j)%nat -> (j < i + remaining)%nat ->
        exists y, sat_c !! j = Some y /\ (y =? 1.0) = false
  end.
Proof.
  induction remaining as [|r IH]; intros i found H; simpl in H.
  - injection H as <-. intros j H1 H2. lia.
  - destruct (sat_c !! i) as [x|] eqn:Ex; [|discriminate]. simpl in H.
    destruct (x =? 1.0) eqn:E1.
    + injection H as <-. split; [lia|]. split; [lia|]. split; [eauto|].
      intros j H1 H2. lia.
    + specialize (IH _ _ H). destruct found as [k|].
      * destruct IH as (H1 & H2 & H3 & H4).
        split; [lia|]. split; [lia|]. split; [exact H3|].
        intros j Hj1 Hj2. destruct (decide (j = i)) as [->|Hne]; [eauto|].
        apply H4; lia.
      * intros j Hj1 Hj2. destruct (decide (j = i)) as [->|Hne]; [eauto|].
        apply IH; lia.
Qed.

Lemma first_saturated_total sat_c : forall remaining i,
  (i + remaining <= length sat_c)%nat ->
  is_Some (first_saturated sat_c i remaining).
Proof.
  induction remaining as [|r IH]; intros i Hlen; simpl; [eauto|].
  destruct (lookup_lt_is_Some_2 sat_c i) as [x ->]; [lia|]. simpl.
  destruct (x =? 1.0); [eauto|]. apply IH. lia.
Qed.

Lemma topmost_saturated_unique sat_c n i k :
  topmost_saturated sat_c n i -> topmost_saturated sat_c n k -> i = k.
Proof.
  intros (Hi & (x & Hx & Ex) & Hbi) (Hk & (y & Hy & Ey) & Hbk).
  destruct (Nat.lt_trichotomy i k) as [Hlt|[->|Hlt]]; [|reflexivity|].
  - destruct (Hbk i Hlt) as (x' & Hx' & Ex'). congruence.
  - destruct (Hbi k Hlt) as (y' & Hy' & Ey'). congruence.
Qed.

(** X13: when [EvaluateField_] returns, entry 0 of the "cell" component
    of the result is the height of the top face above face [i], where
    [i] is the topmost cell whose liquid saturation is exactly 1 among
    as many cells as the temperature has, and -100 when there is none;
    nothing else of the result changes.  The call does return when the
    saturation has at least as many cells as the temperature and the
    result has a cell. *)
Theorem EvaluateField_topmost_saturated ev face_centroid S result temp_c sat_c :
  views ev S temp_c sat_c ->
  (forall result',
     EvaluateField_ ev face_centroid S result = Some result' ->
     (exists res_c value,
        ViewComponent result "cell" = Some res_c /\
        result' = SetComponent result "cell" (<[0%nat := value]> res_c) /\
        (forall i, topmost_saturated sat_c (length temp_c) i ->
           value = z (face_centroid 0%nat) - z (face_centroid i)) /\
        (none_saturated sat_c (length temp_c) -> value = -100))) /\
  (forall res_c,
     ViewComponent result "cell" = Some res_c -> (0 < length res_c)%nat ->
     (length temp_c <= length sat_c)%nat ->
     is_Some (EvaluateField_ ev face_centroid S result)).
Proof.
  intros [(temp & Ht & Vt) (sat & Hs & Vs)]. unfold EvaluateField_. split.
  - intros result'.
    destruct (ViewComponent result "cell") as [res_c|]; [|discriminate].
    simpl. rewrite Ht. simpl. rewrite Vt. simpl. rewrite Hs. simpl.
    rewrite Vs. simpl.
    destruct (first_saturated sat_c 0 (length temp_c)) as [found|] eqn:Ef;
      [|discriminate].
    simpl. destruct (res_c !! 0%nat); [|discriminate]. simpl.
    intros [= <-]. eexists _, _. split; [reflexivity|]. split; [reflexivity|].
    pose proof (first_saturated_spec _ _ _ _ Ef) as Hspec.
    destruct found as [k|].
    + destruct Hspec as (_ & Hk & Hx & Hbefore). split.
      * intros i Hi.
        assert (topmost_saturated sat_c (length temp_c) k) as Hk'.
        { split; [lia|]. split; [exact Hx|]. intros j Hj. apply Hbefore; lia. }
        now rewrite (topmost_saturated_unique _ _ _ _ Hi Hk').
      * intros Hnone. destruct Hx as (x & Hx & Ex).
        destruct (Hnone k ltac:(lia)) as (y & Hy & Ey). congruence.
    + split; [|reflexivity].
      intros i (Hi & (x & Hx & Ex) & _).
      destruct (Hspec i ltac:(lia) ltac:(lia)) as (y & Hy & Ey). congruence.
  - intros res_c Hres Hlen Hsat. rewrite Hres. simpl.
    rewrite Ht. simpl. rewrite Vt. simpl. rewrite Hs. simpl. rewrite Vs. simpl.
    destruct (first_saturated_total sat_c (length temp_c) 0) as [found ->];
      [lia|].
    simpl. destruct (lookup_lt_is_Some_2 res_c 0 Hlen) as [? ->]. simpl. eauto.
Qed.

Lemma S_column_views : views ev_column S_column T_column sat_column.
Proof. split; eexists; split; reflexivity. Qed.

Lemma EvaluateField_topmost_saturated_witness :
  (forall result',
     EvaluateField_ ev_column faces_column S_column [("cell"%string, [0])]
     = Some result' ->
     (exists res_c value,
        ViewComponent [("cell"%string, [0])] "cell" = Some res_c /\
        result' = SetComponent [("cell"%string, [0])] "cell"
                    (<[0%nat := value]> res_c) /\
        (forall i, topmost_saturated sat_column (length T_column) i ->
           value = z (faces_column 0%nat) - z (faces_column i)) /\
        (none_saturated sat_column (length T_column) -> value = -100))) /\
  (forall res_c,
     ViewComponent [("cell"%string, [0])] "cell" = Some res_c ->
     (0 < length res_c)%nat ->
     (length T_column <= length sat_column)%nat ->
     is_Some (EvaluateField_ ev_column faces_column S_column
                [("cell"%string, [0])])).
Proof.
  apply (EvaluateField_topmost_saturated ev_column faces_column S_column
           [("cell"%string, [0])] T_column sat_column).
  exact S_column_views.
Defined.

(** The water table of the sample column is one metre below the top. *)
Example EvaluateField_column :
  EvaluateField_ ev_column faces_column S_column [("cell"%string, [0])]
  = Some [("cell"%string, [1])].
Proof. reflexivity. Qed.

(** X14: the temperatures and the transition width have no part in the
    result: a State that differs in the entries of the temperature only,
    not in their number, and an evaluator, a clone for one, that differs
    in [trans_width_] only, give the same water table. *)
Theorem EvaluateField_ignores_temperature ev face_centroid S result
    temp temp_c temp_c' width :
  temp_key_ ev <> sat_key_ ev ->
  S !! temp_key_ ev = Some temp ->
  ViewComponent temp "cell" = Some temp_c ->
  length temp_c' = length temp_c ->
  EvaluateField_ (Clone ev width) face_centroid
    (<[temp_key_ ev := SetComponent temp "cell" temp_c']> S) result
  = EvaluateField_ ev face_centroid S result.
Proof.
  intros Hne Ht Vt Hlen. unfold EvaluateField_. simpl.
  rewrite lookup_insert_eq, (lookup_insert_ne S) by exact Hne.
  rewrite Ht. simpl.
  rewrite ViewComponent_SetComponent_eq by eauto. rewrite Vt. simpl.
  now rewrite Hlen.
Qed.

Lemma EvaluateField_ignores_temperature_witness :
  EvaluateField_ (Clone ev_column 5) faces_column
    (<[temp_key_ ev_column :=
         SetComponent [("cell"%string, T_column)] "cell" [300; 200; 100]]>
       S_column) [("cell"%string, [0])]
  = EvaluateField_ ev_column faces_column S_column [("cell"%string, [0])].
Proof.
  apply (EvaluateField_ignores_temperature ev_column faces_column S_column
           [("cell"%string, [0])] [("cell"%string, T_column)]
           T_column [300; 200; 100] 5).
  - discriminate.
  - reflexivity.
  - reflexivity.
  - reflexivity.
Defined.

End WaterTableColumnsField.

(** ** MPCSubsurface: configurations that [setup] refuses or lets through *)

Module MPCSubsurfaceSetup.
Import Vec Exc MPCSubsurface.

(** What [plist_->get<std::string>("preconditioner type", "picard")]
    yields on a list: the entry, "picard" when there is none, [None]
    when the entry is not a string. *)
Definition configured_type (plist : ParameterList) : option string :=
  match plist !! "preconditioner type"%string with
  | None => Some "picard"%string
  | Some (PString s) => Some s
  | Some _ => None
  end.

Definition old_style_message : string :=
  "Old-style subsurface ParameterList, please use sublist for EWC delegate.".

(** A coupler asked for the EWC preconditioner, with no delegate sublist. *)
Definition mpc_bare_ewc : MPC nat nat :=
  {| name_ := "subsurface";
     plist_ := {[ "preconditioner type"%string := PString "smart ewc" ]};
     dumped_ := true; precon_type_ := PRECON_NONE; ewc_ := None;
     base := 0%nat |}.

(** A coupler with the old-style entry; it even sets one of the five
    entries [setup] fixes. *)
Definition mpc_old_style : MPC nat nat :=
  {| name_ := "subsurface";
     plist_ := {[ "predictor type"%string := PString "ewc";
                  "mesh key"%string := PString "surface" ]};
     dumped_ := true; precon_type_ := PRECON_NONE; ewc_ := None;
     base := 0%nat |}.

(** A coupler whose list sets the mesh key, and what [setup] makes of
    it with the counting collaborators. *)
Definition mpc_surface_key : MPC nat nat :=
  {| name_ := "subsurface";
     plist_ := {[ "mesh key"%string := PString "surface" ]};
     dumped_ := true; precon_type_ := PRECON_NONE; ewc_ := None;
     base := 0%nat |}.

Definition mpc_surface_key_setup : MPC nat nat :=
  match setup mpc_surface_key tt with
  | Return (mpc', _) => mpc'
  | Raise _ => mpc_surface_key
  end.

Section Properties.
Context {B E St : Type} `{Collaborators B E St}.

Lemma get_string_configured_type (plist : ParameterList) s :
  configured_type plist = Some s ->
  exists plist1,
    get_string (configure plist) "preconditioner type" "picard"
    = Return (s, plist1) /\
    (forall key, key <> "preconditioner type"%string ->
       plist1 !! key = configure plist !! key) /\
    plist1 !! "preconditioner type"%string = Some (PString s).
Proof.
  unfold configured_type, get_string.
  assert (configure plist !! "preconditioner type"%string
          = plist !! "preconditioner type"%string) as ->
    by (unfold configure; now rewrite !lookup_insert_ne by discriminate).
  destruct (plist !! "preconditioner type"%string) as [[s'| | |]|] eqn:Ep;
    try discriminate; intros [= <-]; eexists; (split; [reflexivity|]).
  - split; [reflexivity|].
    unfold configure. now rewrite !lookup_insert_ne by discriminate.
  - split.
    + intros key Hne. now rewrite (lookup_insert_ne _ _ key) by congruence.
    + now rewrite lookup_insert_eq.
Qed.

Lemma configure_other_keys (plist : ParameterList) key :
  key ∉ ["mesh key"; "primary variable B"; "primary variable A";
         "conserved quantity B"; "conserved quantity A"]%string ->
  configure plist !! key = plist !! key.
Proof.
  intros Hnot. unfold configure.
  rewrite !lookup_insert_ne; [reflexivity|..]; intros <-; apply Hnot; set_solver.
Qed.

(** X15: a parameter list with the old-style entry "predictor type" and
    no "ewc delegate" sublist is refused: once the base class is set up
    and the preconditioner type is a valid one, [setup] throws the
    old-style message. *)
Theorem setup_refuses_old_style (mpc : MPC B E) (S : St) base1 S1 s :
  MPCCoupledCells_setup (configure (plist_ mpc)) (base mpc) S
  = Return (base1, S1) ->
  configured_type (plist_ mpc) = Some s ->
  s ∈ valid_types ->
  isSublist (plist_ mpc) "ewc delegate" = false ->
  isParameter (plist_ mpc) "predictor type" = true ->
  setup mpc S = Raise (Message old_style_message).
Proof.
  intros Hbase Htype Hvalid Hsub Hpar.
  destruct (get_string_configured_type _ _ Htype) as (plist1 & Hget & Hkeys & _).
  unfold setup. rewrite Hbase. simpl. rewrite Hget. simpl.
  destruct (select_preconditioner_cases s)
    as [[_ ->]|[[_ ->]|[[_ ->]|[[_ ->]|[Hbad _]]]]]; try contradiction;
    simpl; unfold create_delegate, isSublist, isParameter in *;
    rewrite !Hkeys by discriminate;
    rewrite !configure_other_keys by (vm_compute; set_solver);
    destruct (plist_ mpc !! "ewc delegate"%string) as [[]|];
    destruct (plist_ mpc !! "predictor type"%string); try discriminate;
    reflexivity.
Qed.

(** X16: asking for "ewc" or "smart ewc" without an "ewc delegate"
    sublist passes [setup]: it returns with [PRECON_EWC] selected and no
    delegate; after that no call of [update_precon] or [precon] returns,
    as both go through the null delegate. *)
Theorem setup_accepts_ewc_without_delegate (mpc : MPC B E) (S : St) base1 S1 s :
  MPCCoupledCells_setup (configure (plist_ mpc)) (base mpc) S
  = Return (base1, S1) ->
  configured_type (plist_ mpc) = Some s ->
  s = "ewc"%string \/ s = "smart ewc"%string ->
  isSublist (plist_ mpc) "ewc delegate" = false ->
  isParameter (plist_ mpc) "predictor type" = false ->
  ewc_ mpc = None ->
  exists mpc',
    setup mpc S = Return (mpc', S1) /\
    precon_type_ mpc' = PRECON_EWC /\ ewc_ mpc' = None /\
    (forall t up h r, update_precon mpc' t up h <> Return r) /\
    (forall u Pu r, precon mpc' u Pu <> Return r).
Proof.
  intros Hbase Htype Hs Hsub Hpar Hewc.
  destruct (get_string_configured_type _ _ Htype) as (plist1 & Hget & Hkeys & _).
  assert (select_preconditioner s = Return PRECON_EWC) as Hsel
    by (destruct Hs as [-> | ->]; reflexivity).
  assert (create_delegate (name_ mpc) plist1 (ewc_ mpc) S1
          = Return (None, S1)) as Hdel.
  { unfold create_delegate, isSublist, isParameter in *.
    rewrite !Hkeys by discriminate.
    rewrite !configure_other_keys by (vm_compute; set_solver).
    rewrite Hewc.
    destruct (plist_ mpc !! "ewc delegate"%string) as [[]|];
      destruct (plist_ mpc !! "predictor type"%string); try discriminate;
      reflexivity. }
  eexists. unfold setup. rewrite Hbase. simpl. rewrite Hget. simpl.
  rewrite Hsel. simpl. rewrite Hdel. simpl.
  split; [reflexivity|]. split; [reflexivity|]. split; [reflexivity|].
  split.
  - intros t up h r. unfold update_precon. simpl.
    destruct (MPCCoupledCells_update_precon base1 t up h); discriminate.
  - intros u Pu r. unfold precon. simpl.
    destruct (MPCCoupledCells_precon base1 u Pu); discriminate.
Qed.

(** X17: whatever the parameter list held for them, after [setup] the
    list names "water_content" and "energy" as conserved quantities A
    and B, "pressure" and "temperature" as primary variables A and B and
    "domain" as mesh key, and it has a "preconditioner type" entry, the
    default entered when there was none; [dumped_] is reset. *)
Theorem setup_fixes_entries (mpc mpc' : MPC B E) (S S' : St) :
  setup mpc S = Return (mpc', S') ->
  plist_ mpc' !! "conserved quantity A"%string = Some (PString "water_content") /\
  plist_ mpc' !! "conserved quantity B"%string = Some (PString "energy") /\
  plist_ mpc' !! "primary variable A"%string = Some (PString "pressure") /\
  plist_ mpc' !! "primary variable B"%string = Some (PString "temperature") /\
  plist_ mpc' !! "mesh key"%string = Some (PString "domain") /\
  (exists s, plist_ mpc' !! "preconditioner type"%string = Some (PString s) /\
             configured_type (plist_ mpc) = Some s) /\
  dumped_ mpc' = false.
Proof.
  unfold setup.
  destruct (MPCCoupledCells_setup _ _ _) as [[base1 S1]|]; [|discriminate].
  simpl.
  destruct (get_string (configure (plist_ mpc)) "preconditioner type" "picard")
    as [[s plist1]|] eqn:Hget; [|discriminate].
  simpl.
  destruct (select_preconditioner s); [|discriminate]. simpl.
  destruct (create_delegate _ _ _ _) as [[ewc S2]|]; [|discriminate]. simpl.
  intros [= <- <-]. simpl.
  assert (configured_type (plist_ mpc) = Some s) as Htype.
  { revert Hget. unfold get_string, configured_type, configure.
    rewrite !lookup_insert_ne by discriminate.
    destruct (plist_ mpc !! "preconditioner type"%string) as [[]|];
      try discriminate; now intros [= <- _]. }
  destruct (get_string_configured_type _ _ Htype) as (plist1' & Hget' & Hkeys & Hp).
  rewrite Hget in Hget'. injection Hget' as <-.
  rewrite !Hkeys by discriminate. unfold configure.
  repeat split;
    try (repeat (rewrite lookup_insert_eq
                 || rewrite lookup_insert_ne by discriminate); reflexivity).
  eauto.
Qed.

End Properties.

Lemma setup_refuses_old_style_witness :
  setup mpc_old_style tt = Raise (Message old_style_message).
Proof.
  apply (setup_refuses_old_style mpc_old_style tt 1%nat tt "picard").
  - reflexivity.
  - reflexivity.
  - unfold valid_types. set_solver.
  - reflexivity.
  - reflexivity.
Defined.

Lemma setup_accepts_ewc_without_delegate_witness :
  exists mpc',
    setup mpc_bare_ewc tt = Return (mpc', tt) /\
    precon_type_ mpc' = PRECON_EWC /\ ewc_ mpc' = None /\
    (forall t up h r, update_precon mpc' t up h <> Return r) /\
    (forall u Pu r, precon mpc' u Pu <> Return r).
Proof.
  apply (setup_accepts_ewc_without_delegate mpc_bare_ewc tt 1%nat tt "smart ewc").
  - reflexivity.
  - reflexivity.
  - now right.
  - reflexivity.
  - reflexivity.
  - reflexivity.
Defined.

Lemma setup_fixes_entries_witness :
  plist_ mpc_surface_key_setup !! "conserved quantity A"%string
  = Some (PString "water_content") /\
  plist_ mpc_surface_key_setup !! "conserved quantity B"%string
  = Some (PString "energy") /\
  plist_ mpc_surface_key_setup !! "primary variable A"%string
  = Some (PString "pressure") /\
  plist_ mpc_surface_key_setup !! "primary variable B"%string
  = Some (PString "temperature") /\
  plist_ mpc_surface_key_setup !! "mesh key"%string = Some (PString "domain") /\
  (exists s,
     plist_ mpc_surface_key_setup !! "preconditioner type"%string
     = Some (PString s) /\
     configured_type (plist_ mpc_surface_key) = Some s) /\
  dumped_ mpc_surface_key_setup = false.
Proof.
  apply (setup_fixes_entries mpc_surface_key mpc_surface_key_setup tt tt).
  reflexivity.
Defined.

End MPCSubsurfaceSetup.

(** ** MPCSubsurface: the EWC preconditioner *)

Module MPCSubsurfacePrecon.
Import Vec Exc ExcFacts MPCSubsurface.
Local Open Scope float_scope.

(** The "face" component of sub-vector [i]. *)
Definition faces (v : TreeVector) (i : nat) : option (list float) :=
  v_i ← v !! i; ViewComponent v_i "face".

(** Sub-vector [i] with its "face" component left out of the comparison:
    every other component of [a] and [b] agrees. *)
Definition same_but_faces (a b : TreeVector) (i : nat) : Prop :=
  exists a_i b_i, a !! i = Some a_i /\ b !! i = Some b_i /\
    forall name, name <> "face"%string ->
      ViewComponent a_i name = ViewComponent b_i name.

(** Two sub-vectors with cells and faces, as the counting collaborators
    see them. *)
Definition u_pT : TreeVector :=
  [ [("cell"%string, [1]); ("face"%string, [2])];
    [("cell"%string, [3]); ("face"%string, [4])] ].

Definition mpc_ewc : MPC nat nat :=
  {| name_ := "subsurface"; plist_ := ∅; dumped_ := false;
     precon_type_ := PRECON_EWC; ewc_ := Some 0%nat; base := 0%nat |}.

(** *** Properties *)

Lemma update_faces_spec i Pu_std Pu R :
  update_faces i Pu_std Pu = Return R ->
  length R = length Pu /\
  (forall j, j <> i -> R !! j = Pu !! j) /\
  same_but_faces R Pu i /\
  exists face face_std,
    faces Pu i = Some face /\ faces Pu_std i = Some face_std /\
    faces R i = Some (MV_Update 1 face_std 1 face).
Proof.
  unfold update_faces, faces. intros E.
  apply bind_Return in E as (Pu_i & H1 & E).
  apply bind_Return in E as (Pu_std_i & H2 & E).
  apply bind_Return in E as (face & H3 & E).
  apply bind_Return in E as (face_std & H4 & E).
  injection E as <-.
  destruct (Pu !! i) as [x|] eqn:Ei; [injection H1 as ->|discriminate].
  destruct (Pu_std !! i) as [y|] eqn:Es; [injection H2 as ->|discriminate].
  destruct (ViewComponent Pu_i "face") as [f|] eqn:Ef;
    [injection H3 as ->|discriminate].
  destruct (ViewComponent Pu_std_i "face") as [g|] eqn:Eg;
    [injection H4 as ->|discriminate].
  assert (i < length Pu)%nat as Hi by (eapply lookup_lt_Some; eauto).
  rewrite length_insert. split; [reflexivity|]. split.
  - intros j Hj. apply list_lookup_insert_ne. congruence.
  - split.
    + exists (SetComponent Pu_i "face" (MV_Update 1 face_std 1 face)), Pu_i.
      rewrite list_lookup_insert_eq by exact Hi. split; [reflexivity|].
      split; [exact Ei|]. intros name Hne.
      apply ViewComponent_SetComponent_ne. congruence.
    + exists face, face_std. simpl.
      rewrite list_lookup_insert_eq by exact Hi.
      simpl. rewrite ViewComponent_SetComponent_eq by eauto. easy.
Qed.

Section Properties.
Context {B E St : Type} `{Collaborators B E St}.

(** X18: with [PRECON_EWC] a returning [precon] gives the result of the
    EWC delegate, itself applied to the result of the coupled-cells
    preconditioner, in everything but the faces of the sub-vectors 0 and
    1: their "face" entries are those of the delegate plus the face
    correction that [UpdateConsistentFaceCorrection] derives from the
    difference between the delegate's result and the standard one.  No
    cell entry of the delegate is altered. *)
Theorem precon_ewc_corrects_faces_only (mpc : MPC B E) (u Pu R : TreeVector) :
  precon_type_ mpc = PRECON_EWC ->
  precon mpc u Pu = Return R ->
  exists e Pu_std Pu_ewc dPu,
    ewc_ mpc = Some e /\
    MPCCoupledCells_precon (base mpc) u Pu = Return Pu_std /\
    ewc_precon e u Pu_std = Return Pu_ewc /\
    UpdateConsistentFaceCorrection (base mpc) (TV_PutScalar 0 u)
      (TV_Update 1 Pu_ewc (-1) Pu_std) = Return dPu /\
    length R = length Pu_ewc /\
    (forall j, (2 <= j)%nat -> R !! j = Pu_ewc !! j) /\
    same_but_faces R Pu_ewc 0 /\ same_but_faces R Pu_ewc 1 /\
    (forall i, (i < 2)%nat ->
       exists face dface,
         faces Pu_ewc i = Some face /\ faces dPu i = Some dface /\
         faces R i = Some (MV_Update 1 dface 1 face)).
Proof.
  intros Htype. unfold precon. rewrite Htype. intros E0.
  apply bind_Return in E0 as (Pu_std & H1 & E0).
  apply bind_Return in E0 as (e & H2 & E0).
  apply bind_Return in E0 as (Pu_ewc & H3 & E0).
  apply bind_Return in E0 as (dPu & H4 & E0).
  apply bind_Return in E0 as (Pu3 & H5 & E0).
  destruct (ewc_ mpc) as [e'|]; [injection H2 as ->|discriminate].
  exists e, Pu_std, Pu_ewc, dPu. repeat (split; [easy|]).
  apply update_faces_spec in H5 as (L0 & O0 & (a0 & b0 & A0 & B0 & S0) & (f0 & g0 & F0 & G0 & R0)).
  apply update_faces_spec in E0 as (L1 & O1 & (a1 & b1 & A1 & B1 & S1) & (f1 & g1 & F1 & G1 & R1)).
  split; [congruence|]. split.
  { intros j Hj. rewrite O1 by lia. apply O0. lia. }
  split.
  { exists a0, b0. rewrite O1 by lia. easy. }
  split.
  { exists a1, b1. split; [exact A1|]. split; [|exact S1].
    rewrite <- O0 by lia. exact B1. }
  intros i Hi. destruct i as [|[|i]]; [| |lia].
  - exists f0, g0. split; [exact F0|]. split; [exact G0|].
    unfold faces in *. rewrite O1 by lia. exact R0.
  - exists f1, g1. split; [|split; [exact G1|exact R1]].
    unfold faces in *. rewrite <- O0 by lia. exact F1.
Qed.

End Properties.

(** What [precon] gives on the sample with the counting collaborators. *)
Definition Pu_pT : TreeVector :=
  match precon mpc_ewc u_pT [] with Return R => R | Raise _ => [] end.

Lemma precon_ewc_corrects_faces_only_witness :
  exists e Pu_std Pu_ewc dPu,
    ewc_ mpc_ewc = Some e /\
    MPCCoupledCells_precon (base mpc_ewc) u_pT [] = Return Pu_std /\
    ewc_precon e u_pT Pu_std = Return Pu_ewc /\
    UpdateConsistentFaceCorrection (base mpc_ewc) (TV_PutScalar 0 u_pT)
      (TV_Update 1 Pu_ewc (-1) Pu_std) = Return dPu /\
    length Pu_pT = length Pu_ewc /\
    (forall j, (2 <= j)%nat -> Pu_pT !! j = Pu_ewc !! j) /\
    same_but_faces Pu_pT Pu_ewc 0 /\ same_but_faces Pu_pT Pu_ewc 1 /\
    (forall i, (i < 2)%nat ->
       exists face dface,
         faces Pu_ewc i = Some face /\ faces dPu i = Some dface /\
         faces Pu_pT i = Some (MV_Update 1 dface 1 face)).
Proof.
  apply (precon_ewc_corrects_faces_only mpc_ewc u_pT [] Pu_pT).
  - reflexivity.
  - vm_compute. reflexivity.
Defined.

End MPCSubsurfacePrecon.

(** ** FATES_PK: time stepping and the soil columns *)

Module FATESSteps.
Import Double Exc ExcFacts FATES.
Local Open Scope float_scope.

(** [FATES_PK::get_dt]: the value stored in [dt_] and returned. *)
Definition get_dt (pk : FATES_PK) (S_inter_time : float) : float :=
  let dt_ :=
    fmin (t_photosynthesis_ pk + dt_photosynthesis_ pk - S_inter_time)
         (dt_photosynthesis_ pk) in
  fmin (t_site_dym_ pk + dt_site_dym_ pk - S_inter_time)
       (fmin dt_ (dt_site_dym_ pk)).

(** The test that opens a branch of [AdvanceStep]:
    [fabs(t_new - (t_last + dt)) < 1e-12*t_new]. *)
Definition due (t_last dt t_new : float) : bool :=
  abs (t_new - (t_last + dt)) <? 1e-12 * t_new.

(** The days of the months of the year the kernel counts in, and the
    days before month [mi]. *)
Definition month_lengths : list Z :=
  [31; 28; 31; 30; 31; 30; 31; 31; 30; 31; 30; 31]%Z.

Definition days_before (mi : Z) : Z :=
  fold_left Z.add (take (Z.to_nat (mi - 1)) month_lengths) 0%Z.

Definition month_length (mi : Z) : Z :=
  nth (Z.to_nat (mi - 1)) month_lengths 0%Z.

(** *** Properties *)

Lemma SFleb_refl a : a <> S754_nan -> SFleb a a = true.
Proof. unfold SFleb. destruct a; simpl; try congruence; intros _; sf_cases. Qed.

Lemma SFltb_SFleb_weak a b : SFltb a b = true -> SFleb a b = true.
Proof. unfold SFltb, SFleb. destruct a, b; simpl; try congruence; sf_cases. Qed.

Lemma SFltb_false_SFleb a b :
  a <> S754_nan -> b <> S754_nan -> SFltb b a = false -> SFleb a b = true.
Proof.
  unfold SFltb, SFleb. destruct a, b; simpl; try congruence; intros _ _; sf_cases.
Qed.

Lemma SFleb_trans a b c : SFleb a b = true -> SFleb b c = true -> SFleb a c = true.
Proof.
  unfold SFleb. destruct a, b, c; simpl; try congruence; sf_cases.
Qed.

Lemma leb_trans a b c : (a <=? b) = true -> (b <=? c) = true -> (a <=? c) = true.
Proof. rewrite !FloatAxioms.leb_spec. apply SFleb_trans. Qed.

Lemma fmin_leb_l a b : not_nan a -> (fmin a b <=? a) = true.
Proof.
  intros Ha. unfold fmin. destruct (b <? a) eqn:E.
  - revert E. rewrite FloatAxioms.ltb_spec, FloatAxioms.leb_spec.
    apply SFltb_SFleb_weak.
  - rewrite FloatAxioms.leb_spec. now apply SFleb_refl.
Qed.

Lemma fmin_leb_r a b : not_nan a -> not_nan b -> (fmin a b <=? b) = true.
Proof.
  intros Ha Hb. unfold fmin. destruct (b <? a) eqn:E.
  - rewrite FloatAxioms.leb_spec. now apply SFleb_refl.
  - revert E. rewrite FloatAxioms.ltb_spec, FloatAxioms.leb_spec.
    now apply SFltb_false_SFleb.
Qed.

Lemma fmin_cases a b : fmin a b = a \/ fmin a b = b.
Proof. unfold fmin. destruct (b <? a); auto. Qed.

Lemma fmin_not_nan_both a b : not_nan a -> not_nan b -> not_nan (fmin a b).
Proof. intros Ha Hb. destruct (fmin_cases a b) as [-> | ->]; assumption. Qed.

(** X19: [get_dt] never asks for a step past the next photosynthesis or
    vegetation-dynamics event, nor for one longer than either interval:
    when these four numbers are not NaN the time step is one of them and
    is less than or equal to each.  The step size kept in [dt_] by the
    constructor, [Setup] or [set_dt] has no part in it. *)
Theorem get_dt_bounded (pk : FATES_PK) (S_inter_time : float) :
  let to_photosynthesis :=
    t_photosynthesis_ pk + dt_photosynthesis_ pk - S_inter_time in
  let to_dynamics := t_site_dym_ pk + dt_site_dym_ pk - S_inter_time in
  not_nan to_photosynthesis -> not_nan (dt_photosynthesis_ pk) ->
  not_nan to_dynamics -> not_nan (dt_site_dym_ pk) ->
  (get_dt pk S_inter_time <=? to_photosynthesis) = true /\
  (get_dt pk S_inter_time <=? dt_photosynthesis_ pk) = true /\
  (get_dt pk S_inter_time <=? to_dynamics) = true /\
  (get_dt pk S_inter_time <=? dt_site_dym_ pk) = true /\
  get_dt pk S_inter_time
    ∈ [to_photosynthesis; dt_photosynthesis_ pk; to_dynamics; dt_site_dym_ pk].
Proof.
  intros P A HP Hdp HA Hda. unfold get_dt. fold P. fold A.
  set (d1 := fmin P (dt_photosynthesis_ pk)).
  set (d2 := fmin d1 (dt_site_dym_ pk)).
  assert (not_nan d1) as N1 by now apply fmin_not_nan_both.
  assert (not_nan d2) as N2 by now apply fmin_not_nan_both.
  assert ((d2 <=? d1) = true) as L21 by now apply fmin_leb_l.
  assert ((fmin A d2 <=? d2) = true) as L by now apply fmin_leb_r.
  repeat split.
  - eapply leb_trans; [exact L|]. eapply leb_trans; [exact L21|].
    now apply fmin_leb_l.
  - eapply leb_trans; [exact L|]. eapply leb_trans; [exact L21|].
    now apply fmin_leb_r.
  - now apply fmin_leb_l.
  - eapply leb_trans; [exact L|]. now apply fmin_leb_r.
  - destruct (fmin_cases A d2) as [-> | ->]; [set_solver|].
    unfold d2. destruct (fmin_cases d1 (dt_site_dym_ pk)) as [-> | ->];
      [|set_solver].
    unfold d1. destruct (fmin_cases P (dt_photosynthesis_ pk)) as [-> | ->];
      set_solver.
Qed.

Lemma get_dt_bounded_witness :
  (get_dt (pk_columns true) 86000 <=? 84600 + 1800 - 86000) = true /\
  (get_dt (pk_columns true) 86000 <=? 1800) = true /\
  (get_dt (pk_columns true) 86000 <=? 0 + 86400 - 86000) = true /\
  (get_dt (pk_columns true) 86000 <=? 86400) = true /\
  get_dt (pk_columns true) 86000
    ∈ [84600 + 1800 - 86000; 1800; 0 + 86400 - 86000; 86400].
Proof.
  apply (get_dt_bounded (pk_columns true) 86000);
    now apply not_nan_literal.
Defined.

(** The check of [month_and_day] on one day of the year. *)
Definition calendar_ok (doy : Z) : bool :=
  let '(mi, dom) := month_and_day doy in
  (1 <=? mi)%Z && (mi <=? 12)%Z && (1 <=? dom)%Z && (dom <=? month_length mi)%Z
  && (days_before mi + dom =? doy)%Z.

Lemma calendar_all :
  forallb calendar_ok (map Z.of_nat (seq 1 365)) = true.
Proof. vm_compute. reflexivity. Qed.

Lemma calendar_ok_day (doy : Z) :
  (1 <= doy <= 365)%Z -> calendar_ok doy = true.
Proof.
  intros Hdoy. pose proof calendar_all as Hall.
  rewrite forallb_forall in Hall. apply Hall.
  apply in_map_iff. exists (Z.to_nat doy). split; [lia|].
  apply in_seq. lia.
Qed.

(** X20: for a day of the year from 1 to 365 the loop over the months in
    [AdvanceStep] finds the calendar date in a year of 365 days: the
    month is between 1 and 12, the day is between 1 and the length of
    that month, and the days of the months before plus the day give the
    day of the year back. *)
Theorem month_and_day_is_calendar_date (doy : Z) :
  (1 <= doy <= 365)%Z ->
  let '(mi, dom) := month_and_day doy in
  (1 <= mi <= 12)%Z /\ (1 <= dom <= month_length mi)%Z /\
  (days_before mi + dom = doy)%Z.
Proof.
  intros Hdoy. pose proof (calendar_ok_day doy Hdoy) as Hok.
  unfold calendar_ok in Hok.
  destruct (month_and_day doy) as [mi dom].
  rewrite !andb_true_iff in Hok. lia.
Qed.

Lemma month_and_day_is_calendar_date_witness :
  let '(mi, dom) := month_and_day 60 in
  (1 <= mi <= 12)%Z /\ (1 <= dom <= month_length mi)%Z /\
  (days_before mi + dom = 60)%Z.
Proof. apply (month_and_day_is_calendar_date 60). lia. Defined.

(** Day 60 is the first of March. *)
Example month_and_day_march : month_and_day 60 = (3, 1)%Z.
Proof. reflexivity. Qed.

(** The soil vectors, the sites and the timers of a kernel. *)
Definition soil_of (pk : FATES_PK) : Soil :=
  {| s_t_soil := t_soil_ pk; s_vsm := vsm_ pk; s_poro := poro_ pk;
     s_eff_poro := eff_poro_ pk; s_suc := suc_ pk;
     s_salinity := salinity_ pk |}.

(** *** The soil columns *)

Lemma write_column_spec vec cells : forall at_ col_vec r,
  write_column vec cells at_ col_vec = Return r ->
  length r = length col_vec /\
  (forall i cell, cells !! i = Some cell -> (at_ + i < length col_vec)%nat ->
     r !! (at_ + i)%nat = vec !! cell) /\
  (forall j, (j < at_)%nat \/ (at_ + length cells <= j)%nat ->
     r !! j = col_vec !! j).
Proof.
  induction cells as [|cell rest IH]; intros at_ col_vec r H; simpl in H.
  - injection H as <-. split; [reflexivity|]. split; [|reflexivity].
    intros i c Hc. discriminate.
  - apply bind_Return in H as (x & Hx & H).
    destruct (vec !! cell) as [x'|] eqn:Ev; [|discriminate].
    injection Hx as ->.
    destruct (IH _ _ _ H) as (Hlen & Hin & Hout).
    rewrite length_insert in Hlen, Hin. split; [exact Hlen|]. split.
    + intros i c Hc Hi. destruct i as [|i]; simpl in Hc.
      * injection Hc as <-. rewrite Nat.add_0_r in *.
        rewrite Hout by lia. rewrite list_lookup_insert_eq by lia.
        now rewrite Ev.
      * replace (at_ + S i)%nat with (S at_ + i)%nat by lia.
        apply Hin; [exact Hc|lia].
    + intros j Hj. simpl in Hj. rewrite Hout by lia.
      apply list_lookup_insert_ne. lia.
Qed.

(** X21: when [vec] has every cell the column iterator yields for
    column [col], [FieldToColumn_] returns; it has copied the entries of
    [vec] at these cells into [col_vec], starting at
    [col * ncells_per_col_] and in the order of the iterator, and has
    left every other entry of [col_vec] as it was. *)
Theorem FieldToColumn_copies_column (pk : FATES_PK) (col : nat)
  (vec col_vec : list float) :
  (forall cell, cell ∈ col_iter pk col -> (cell < length vec)%nat) ->
  exists r,
    FieldToColumn_ pk col vec col_vec = Return r /\
    length r = length col_vec /\
    (forall i cell, col_iter pk col !! i = Some cell ->
       (col * ncells_per_col_ pk + i < length col_vec)%nat ->
       r !! (col * ncells_per_col_ pk + i)%nat = vec !! cell) /\
    (forall j,
       (j < col * ncells_per_col_ pk)%nat \/
       (col * ncells_per_col_ pk + length (col_iter pk col) <= j)%nat ->
       r !! j = col_vec !! j).
Proof.
  intros Hcells. unfold FieldToColumn_.
  destruct (write_column_returns vec (col_iter pk col)
              (col * ncells_per_col_ pk) col_vec Hcells) as [r Hr].
  exists r. split; [exact Hr|]. exact (write_column_spec _ _ _ _ _ Hr).
Qed.

(** What the surface-only branch stores for a cell. *)
Definition surface_soil_at (soil : Soil) (air_temp : list float) (c : nat)
  : Prop :=
  s_t_soil soil !! c = air_temp !! c /\
  s_poro soil !! c = Some 0.5 /\
  s_eff_poro soil !! c = Some 0.5 /\
  s_vsm soil !! c = Some 0.5 /\
  s_suc soil !! c = Some 0 /\
  s_salinity soil !! c = Some 0.

(** The six vectors hold [n] entries each. *)
Definition soil_sized (soil : Soil) (n : nat) : Prop :=
  length (s_t_soil soil) = n /\ length (s_poro soil) = n /\
  length (s_eff_poro soil) = n /\ length (s_vsm soil) = n /\
  length (s_suc soil) = n /\ length (s_salinity soil) = n.

(** The entries of the six vectors for cell [c]. *)
Definition soil_at (soil : Soil) (c : nat) :=
  (s_t_soil soil !! c, s_poro soil !! c, s_eff_poro soil !! c,
   s_vsm soil !! c, s_suc soil !! c, s_salinity soil !! c).

Lemma surface_soil_at_ext soil1 soil2 air_temp c :
  soil_at soil2 c = soil_at soil1 c ->
  surface_soil_at soil1 air_temp c -> surface_soil_at soil2 air_temp c.
Proof.
  unfold soil_at, surface_soil_at. intros [= -> -> -> -> -> ->]. tauto.
Qed.

Lemma gather_soil_surface pk S air_temp c soil soil' n :
  surface_only_ pk = true -> soil_sized soil n -> (c < n)%nat ->
  gather_soil pk S air_temp c soil = Return soil' ->
  soil_sized soil' n /\ surface_soil_at soil' air_temp c /\
  forall c', c' <> c -> soil_at soil' c' = soil_at soil c'.
Proof.
  intros Hsurf (L1 & L2 & L3 & L4 & L5 & L6) Hc. unfold gather_soil.
  rewrite Hsurf. intros E. apply bind_Return in E as (T & HT & E).
  destruct (air_temp !! c) as [T'|] eqn:Ea; [|discriminate].
  injection HT as ->. injection E as <-.
  unfold soil_sized, surface_soil_at, soil_at. simpl. rewrite !length_insert.
  rewrite !list_lookup_insert_eq by lia. simpl.
  split; [easy|]. split; [easy|].
  intros c' Hne. now rewrite !list_lookup_insert_ne by congruence.
Qed.

Lemma gather_soil_loop_surface pk S air_temp n cells : forall soil soil',
  surface_only_ pk = true -> soil_sized soil n ->
  (forall c, c ∈ cells -> (c < n)%nat) ->
  gather_soil_loop pk S air_temp cells soil = Return soil' ->
  soil_sized soil' n /\
  (forall c, c ∈ cells -> surface_soil_at soil' air_temp c) /\
  (forall c, c ∉ cells -> soil_at soil' c = soil_at soil c).
Proof.
  induction cells as [|c rest IH]; intros soil soil' Hsurf Hs Hin E; simpl in E.
  - injection E as <-. split; [exact Hs|]. split; [|reflexivity].
    intros c Hc. inversion Hc.
  - apply bind_Return in E as (soil1 & E1 & E).
    destruct (gather_soil_surface pk S air_temp c soil soil1 n Hsurf Hs)
      as (Hs1 & Hat & Hother); [apply Hin; left|exact E1|].
    destruct (IH soil1 soil' Hsurf Hs1) as (Hs' & Hrest & Hkeep);
      [intros c' Hc'; apply Hin; now right|exact E|].
    split; [exact Hs'|]. split.
    + intros c' Hc'.
      destruct (decide (c' ∈ rest)) as [Hr|Hr]; [now apply Hrest|].
      apply elem_of_cons in Hc' as [->|Hc']; [|contradiction].
      apply (surface_soil_at_ext soil1); [now apply Hkeep|exact Hat].
    + intros c' Hc'. apply not_elem_of_cons in Hc' as [Hne Hr].
      rewrite (Hkeep c' Hr). now apply Hother.
Qed.

Lemma gather_soil_loop_app pk S air_temp l1 : forall l2 soil,
  gather_soil_loop pk S air_temp (l1 ++ l2) soil =
  gather_soil_loop pk S air_temp l1 soil
    ≫= gather_soil_loop pk S air_temp l2.
Proof.
  induction l1 as [|c l1 IH]; intros l2 soil; simpl; [reflexivity|].
  destruct (gather_soil pk S air_temp c soil) as [soil1|e]; simpl;
    [apply IH|reflexivity].
Qed.

(** The porosity and the saturation of the State, by cell. *)
Definition subsurface_fields (pk : FATES_PK) (S : Fields)
  (poro_vec sat_vec : list float) : Prop :=
  surface_only_ pk = false /\
  HasField S (poro_key_ pk) = true /\
  cell_vector S (poro_key_ pk) 0 = Return poro_vec /\
  HasField S (sat_key_ pk) = true /\
  cell_vector S (sat_key_ pk) 0 = Return sat_vec.

(** Cell [cell] is layer [i] of column [c], with porosity [p] and
    saturation [s]. *)
Definition layer (pk : FATES_PK) (poro_vec sat_vec : list float)
  (c i : nat) (p s : float) : Prop :=
  exists cell, col_iter pk c !! i = Some cell /\
    poro_vec !! cell = Some p /\ sat_vec !! cell = Some s.

Lemma gather_soil_column pk S air_temp poro_vec sat_vec k soil soil' N :
  subsurface_fields pk S poro_vec sat_vec ->
  length (s_poro soil) = N -> length (s_vsm soil) = N ->
  (k * ncells_per_col_ pk + length (col_iter pk k) <= N)%nat ->
  gather_soil pk S air_temp k soil = Return soil' ->
  length (s_poro soil') = N /\ length (s_vsm soil') = N /\
  (forall j p v,
     (j < k * ncells_per_col_ pk)%nat \/
     (k * ncells_per_col_ pk + length (col_iter pk k) <= j)%nat ->
     s_poro soil !! j = Some p -> s_vsm soil !! j = Some v ->
     s_poro soil' !! j = Some p /\ s_vsm soil' !! j = Some (v * p)) /\
  (forall i cell, col_iter pk k !! i = Some cell ->
     exists p s, poro_vec !! cell = Some p /\ sat_vec !! cell = Some s /\
       s_poro soil' !! (k * ncells_per_col_ pk + i)%nat = Some p /\
       s_vsm soil' !! (k * ncells_per_col_ pk + i)%nat = Some (s * p)).
Proof.
  intros (Hsurf & Hp & Vp & Hs & Vs) Lp Lv Hfit. unfold gather_soil.
  rewrite Hsurf, Hp, Vp, Hs, Vs. intros E.
  apply bind_Return in E as (t_soil & _ & E).
  apply bind_Return in E as (poro & Eporo & E).
  apply bind_Return in E as (vsm & Evsm & E).
  apply bind_Return in E as (suc & _ & E).
  apply bind_Return in E as (salinity & _ & E).
  injection E as <-. simpl.
  simpl in Eporo. apply write_column_spec in Eporo as (Lp' & Pin & Pout).
  simpl in Evsm. apply bind_Return in Evsm as (vsm1 & Evsm1 & Evsm).
  injection Evsm as <-.
  apply write_column_spec in Evsm1 as (Lv' & Vin & Vout).
  split; [congruence|]. split; [rewrite length_zip_with; lia|]. split.
  - intros j p v Hj Hpj Hvj. rewrite (Pout j Hj), Hpj. split; [reflexivity|].
    rewrite lookup_zip_with, (Vout j Hj), Hvj, (Pout j Hj), Hpj. reflexivity.
  - intros i cell Hcell.
    assert (i < length (col_iter pk k))%nat as Hi by (eapply lookup_lt_Some; eauto).
    pose proof (Pin i cell Hcell ltac:(lia)) as Hpi.
    pose proof (Vin i cell Hcell ltac:(lia)) as Hvi.
    destruct (lookup_lt_is_Some_2 poro (k * ncells_per_col_ pk + i)) as [p Hp'];
      [lia|].
    destruct (lookup_lt_is_Some_2 vsm1 (k * ncells_per_col_ pk + i)) as [s Hs'];
      [lia|].
    exists p, s. rewrite <- Hpi, <- Hvi, lookup_zip_with, Hp', Hs'. easy.
Qed.

Lemma gather_soil_columns pk Sn air_temp poro_vec sat_vec n soil0 :
  subsurface_fields pk Sn poro_vec sat_vec ->
  length (s_poro soil0) = (n * ncells_per_col_ pk)%nat ->
  length (s_vsm soil0) = (n * ncells_per_col_ pk)%nat ->
  (forall c, (c < n)%nat -> length (col_iter pk c) = ncells_per_col_ pk) ->
  forall k soil,
    (k <= n)%nat ->
    gather_soil_loop pk Sn air_temp (seq 0 k) soil0 = Return soil ->
    length (s_poro soil) = (n * ncells_per_col_ pk)%nat /\
    length (s_vsm soil) = (n * ncells_per_col_ pk)%nat /\
    forall c i p s, (c < k)%nat -> layer pk poro_vec sat_vec c i p s ->
      s_poro soil !! (c * ncells_per_col_ pk + i)%nat = Some p /\
      s_vsm soil !! (c * ncells_per_col_ pk + i)%nat
      = Some (Nat.iter (k - c) (fun v => v * p) s).
Proof.
  intros Hf Lp Lv Hcols. set (ncol := ncells_per_col_ pk) in *.
  induction k as [|k IH]; intros soil Hk E.
  - simpl in E. injection E as <-. split; [exact Lp|]. split; [exact Lv|]. lia.
  - rewrite seq_S, gather_soil_loop_app in E. simpl in E.
    apply bind_Return in E as (soil1 & E1 & E).
    apply bind_Return in E as (soil2 & E2 & E). injection E as <-.
    destruct (IH soil1 ltac:(lia) E1) as (Lp1 & Lv1 & Hdone).
    destruct (gather_soil_column pk Sn air_temp poro_vec sat_vec k soil1 soil2
                (n * ncol) Hf Lp1 Lv1) as (Lp2 & Lv2 & Hold & Hnew);
      [fold ncol; rewrite Hcols by lia; nia|exact E2|].
    split; [exact Lp2|]. split; [exact Lv2|].
    intros c i p s Hc (cell & Hcell & Hpc & Hsc).
    assert (i < ncol)%nat as Hi.
    { rewrite <- (Hcols c) by lia. eapply lookup_lt_Some; eauto. }
    destruct (decide (c = k)) as [->|Hne].
    + destruct (Hnew i cell Hcell) as (p' & s' & Hp' & Hs' & Hpo & Hvs).
      rewrite Hpc in Hp'. rewrite Hsc in Hs'.
      injection Hp' as <-. injection Hs' as <-.
      fold ncol in Hpo, Hvs. rewrite Hpo, Hvs.
      replace (S k - k)%nat with 1%nat by lia. easy.
    + destruct (Hdone c i p s ltac:(lia)) as (Hpo & Hvs);
        [exists cell; easy|].
      destruct (Hold (c * ncol + i)%nat p _ ltac:(fold ncol; left; nia) Hpo Hvs)
        as (Hpo' & Hvs').
      rewrite Hpo', Hvs'. replace (S k - c)%nat with (S (k - c)) by lia.
      easy.
Qed.

Section Steps.
Context {F : Type} `{Library F}.

(** What a returning [AdvanceStep] is made of: the soil the
    photosynthesis branch gathered, when it ran, and the sites the
    vegetation-dynamics branch left, when it ran. *)
Lemma AdvanceStep_inv (pk : FATES_PK) (lib : F) (S_next : Fields)
  (pressure : option float) (S_inter_time t_old t_new : float)
  (reinit : bool) (pk' : FATES_PK) (lib' : F) (failed : bool) :
  AdvanceStep pk lib S_next pressure S_inter_time t_old t_new reinit
    = Return (pk', lib', failed) ->
  exists air_temp precip_rain wind humidity lib1,
    cell_vector S_next (air_temp_key_ pk) 0 = Return air_temp /\
    (if due (t_photosynthesis_ pk) (dt_photosynthesis_ pk) t_new then
       gather_soil_loop pk S_next air_temp (seq 0 (ncells_owned_ pk))
         (soil_of pk) = Return (soil_of pk') /\
       t_photosynthesis_ pk' = t_new
     else
       soil_of pk' = soil_of pk /\ lib1 = lib /\
       t_photosynthesis_ pk' = t_photosynthesis_ pk) /\
    (if due (t_site_dym_ pk) (dt_site_dym_ pk) t_new then
       dynamics_loop pk (time_input_ pk') (t_new - t_old) (vsm_ pk') air_temp
         precip_rain wind humidity (seq 0 (ncells_owned_ pk)) lib1 (site_ pk)
       = Return (lib', site_ pk') /\
       t_site_dym_ pk' = t_new
     else
       lib' = lib1 /\ site_ pk' = site_ pk /\
       t_site_dym_ pk' = t_site_dym_ pk) /\
    dt_photosynthesis_ pk' = dt_photosynthesis_ pk /\
    dt_site_dym_ pk' = dt_site_dym_ pk /\
    ncells_owned_ pk' = ncells_owned_ pk /\
    ncells_per_col_ pk' = ncells_per_col_ pk /\
    surface_only_ pk' = surface_only_ pk.
Proof.
  unfold AdvanceStep, due. intros E.
  apply bind_Return in E as (precip_rain & _ & E).
  apply bind_Return in E as (wind & _ & E).
  apply bind_Return in E as (humidity & _ & E).
  apply bind_Return in E as (air_temp & Hair & E).
  apply bind_Return in E as (co2a & _ & E).
  apply bind_Return in E as (longwave_rad & _ & E).
  apply bind_Return in E as (incident_rad & _ & E).
  apply bind_Return in E as ([[soil lib1] t_photo] & Hphoto & E).
  destruct (month_and_day _) as [mi dom].
  apply bind_Return in E as ([[lib2 site] t_dym] & Hdym & E).
  injection E as <- <- _. simpl.
  exists air_temp, precip_rain, wind, humidity, lib1.
  split; [exact Hair|]. split; [|split; [|easy]].
  - destruct (abs (t_new - (t_photosynthesis_ pk + dt_photosynthesis_ pk))
              <? 1e-12 * t_new).
    + apply bind_Return in Hphoto as (soil' & Hsoil & Hphoto).
      apply bind_Return in Hphoto as (lib1' & _ & Hphoto).
      injection Hphoto as <- <- <-. split; [|reflexivity].
      unfold soil_of. simpl. now destruct soil'.
    + injection Hphoto as <- <- <-. easy.
  - destruct (abs (t_new - (t_site_dym_ pk + dt_site_dym_ pk)) <? 1e-12 * t_new).
    + apply bind_Return in Hdym as ([lib2' site'] & Hloop & Hdym).
      injection Hdym as <- <- <-. split; [exact Hloop|reflexivity].
    + injection Hdym as <- <- <-. easy.
Qed.

(** X22: a returning [AdvanceStep] moves [t_photosynthesis_] to [t_new]
    exactly when the photosynthesis branch was due and [t_site_dym_]
    exactly when the vegetation-dynamics branch was; the intervals stay
    as they are.  A step in which neither is due calls nothing of the
    library and leaves the soil vectors and the sites untouched. *)
Theorem AdvanceStep_timers (pk : FATES_PK) (lib : F) (S_next : Fields)
  (pressure : option float) (S_inter_time t_old t_new : float)
  (reinit : bool) (pk' : FATES_PK) (lib' : F) (failed : bool) :
  AdvanceStep pk lib S_next pressure S_inter_time t_old t_new reinit
    = Return (pk', lib', failed) ->
  t_photosynthesis_ pk' =
    (if due (t_photosynthesis_ pk) (dt_photosynthesis_ pk) t_new
     then t_new else t_photosynthesis_ pk) /\
  t_site_dym_ pk' =
    (if due (t_site_dym_ pk) (dt_site_dym_ pk) t_new
     then t_new else t_site_dym_ pk) /\
  dt_photosynthesis_ pk' = dt_photosynthesis_ pk /\
  dt_site_dym_ pk' = dt_site_dym_ pk /\
  (due (t_photosynthesis_ pk) (dt_photosynthesis_ pk) t_new = false ->
   due (t_site_dym_ pk) (dt_site_dym_ pk) t_new = false ->
   lib' = lib /\ soil_of pk' = soil_of pk /\ site_ pk' = site_ pk).
Proof.
  intros E.
  destruct (AdvanceStep_inv _ _ _ _ _ _ _ _ _ _ _ E)
    as (air & prec & wind & hum & lib1 & _ & Hp & Hd & H1 & H2 & _).
  split; [destruct (due (t_photosynthesis_ pk) _ t_new); tauto|].
  split; [destruct (due (t_site_dym_ pk) _ t_new); tauto|].
  split; [exact H1|]. split; [exact H2|].
  intros Ep Ed. rewrite Ep in Hp. rewrite Ed in Hd.
  destruct Hp as (-> & -> & _), Hd as (-> & -> & _). easy.
Qed.

Lemma SFabs_not_below_zero a : SFltb (SFabs a) (S754_zero false) = false.
Proof. unfold SFltb. destruct a; reflexivity. Qed.

Lemma never_due_at_zero t_last dt : due t_last dt 0 = false.
Proof.
  unfold due. change (1e-12 * 0) with 0.
  rewrite FloatAxioms.ltb_spec, FloatAxioms.abs_spec.
  apply SFabs_not_below_zero.
Qed.

(** X23: a step that ends at time 0 runs neither branch, whatever the
    timers and the intervals are, since the tolerance of the two tests
    is proportional to [t_new]: the call, when it returns, has called
    nothing of the library and has left the soil vectors, the sites and
    both timers as they were. *)
Theorem AdvanceStep_idle_at_time_zero (pk : FATES_PK) (lib : F)
  (S_next : Fields) (pressure : option float) (S_inter_time t_old : float)
  (reinit : bool) (pk' : FATES_PK) (lib' : F) (failed : bool) :
  AdvanceStep pk lib S_next pressure S_inter_time t_old 0 reinit
    = Return (pk', lib', failed) ->
  lib' = lib /\ soil_of pk' = soil_of pk /\ site_ pk' = site_ pk /\
  t_photosynthesis_ pk' = t_photosynthesis_ pk /\
  t_site_dym_ pk' = t_site_dym_ pk.
Proof.
  intros E.
  destruct (AdvanceStep_inv _ _ _ _ _ _ _ _ _ _ _ E)
    as (air & prec & wind & hum & lib1 & _ & Hp & Hd & _).
  rewrite never_due_at_zero in Hp, Hd.
  destruct Hp as (-> & -> & ->), Hd as (-> & -> & ->). easy.
Qed.

(** X24: in surface-only mode a photosynthesis step hands the library a
    soil that does not come from the State: for every owned cell the
    soil temperature is the air temperature of the cell, the porosity
    and the effective porosity are 0.5, the volumetric soil moisture is
    0.5 (full saturation), and the suction and the salinity are 0. *)
Theorem AdvanceStep_surface_only_soil (pk : FATES_PK) (lib : F)
  (S_next : Fields) (pressure : option float)
  (S_inter_time t_old t_new : float) (reinit : bool)
  (pk' : FATES_PK) (lib' : F) (failed : bool) (air_temp : list float)
  (array_size : nat) :
  surface_only_ pk = true ->
  due (t_photosynthesis_ pk) (dt_photosynthesis_ pk) t_new = true ->
  soil_sized (soil_of pk) array_size ->
  (ncells_owned_ pk <= array_size)%nat ->
  cell_vector S_next (air_temp_key_ pk) 0 = Return air_temp ->
  AdvanceStep pk lib S_next pressure S_inter_time t_old t_new reinit
    = Return (pk', lib', failed) ->
  forall c, (c < ncells_owned_ pk)%nat ->
    surface_soil_at (soil_of pk') air_temp c.
Proof.
  intros Hsurf Hdue Hs Hn Hair E c Hc.
  destruct (AdvanceStep_inv _ _ _ _ _ _ _ _ _ _ _ E)
    as (air & prec & wind & hum & lib1 & Hair' & Hp & _).
  rewrite Hair in Hair'. injection Hair' as <-.
  rewrite Hdue in Hp. destruct Hp as [Hloop _].
  destruct (gather_soil_loop_surface pk S_next air_temp array_size
              (seq 0 (ncells_owned_ pk)) (soil_of pk) (soil_of pk') Hsurf Hs)
    as (_ & Hcells & _).
  - intros c' Hc'. apply elem_of_seq in Hc'. lia.
  - exact Hloop.
  - apply Hcells. apply elem_of_seq. lia.
Qed.

(** X25: with the porosity and the saturation in the State, a
    photosynthesis step over [n] columns leaves the porosity of every
    layer in [poro_], but multiplies the saturation of a layer of column
    [c] by its porosity [n - c] times to get the volumetric soil
    moisture in [vsm_]: the multiplication runs over the whole vector
    once for each column gathered.  Only the last column gets
    saturation times porosity. *)
Theorem AdvanceStep_moisture_multiplied (pk : FATES_PK) (lib : F)
  (S_next : Fields) (pressure : option float)
  (S_inter_time t_old t_new : float) (reinit : bool)
  (pk' : FATES_PK) (lib' : F) (failed : bool) (poro_vec sat_vec : list float) :
  subsurface_fields pk S_next poro_vec sat_vec ->
  due (t_photosynthesis_ pk) (dt_photosynthesis_ pk) t_new = true ->
  length (poro_ pk) = (ncells_owned_ pk * ncells_per_col_ pk)%nat ->
  length (vsm_ pk) = (ncells_owned_ pk * ncells_per_col_ pk)%nat ->
  (forall c, (c < ncells_owned_ pk)%nat ->
     length (col_iter pk c) = ncells_per_col_ pk) ->
  AdvanceStep pk lib S_next pressure S_inter_time t_old t_new reinit
    = Return (pk', lib', failed) ->
  forall c i p s,
    (c < ncells_owned_ pk)%nat -> layer pk poro_vec sat_vec c i p s ->
    poro_ pk' !! (c * ncells_per_col_ pk + i)%nat = Some p /\
    vsm_ pk' !! (c * ncells_per_col_ pk + i)%nat
    = Some (Nat.iter (ncells_owned_ pk - c) (fun v => v * p) s).
Proof.
  intros Hf Hdue Lp Lv Hcols E c i p s Hc Hlayer.
  destruct (AdvanceStep_inv _ _ _ _ _ _ _ _ _ _ _ E)
    as (air & prec & wind & hum & lib1 & _ & Hp & _).
  rewrite Hdue in Hp. destruct Hp as [Hloop _].
  destruct (gather_soil_columns pk S_next air poro_vec sat_vec
              (ncells_owned_ pk) (soil_of pk) Hf Lp Lv Hcols
              (ncells_owned_ pk) (soil_of pk') (Nat.le_refl _) Hloop)
    as (_ & _ & Hall).
  exact (Hall c i p s Hc Hlayer).
Qed.

End Steps.

(** A kernel whose photosynthesis is due at time 0. *)
Definition pk_at_start : FATES_PK :=
  {| precip_key_ := precip_key_ (pk_columns true);
     air_temp_key_ := air_temp_key_ (pk_columns true);
     humidity_key_ := humidity_key_ (pk_columns true);
     wind_key_ := wind_key_ (pk_columns true);
     co2a_key_ := co2a_key_ (pk_columns true);
     longwave_key_ := longwave_key_ (pk_columns true);
     incident_rad_key_ := incident_rad_key_ (pk_columns true);
     poro_key_ := poro_key_ (pk_columns true);
     sat_key_ := sat_key_ (pk_columns true);
     suc_key_ := suc_key_ (pk_columns true);
     soil_temp_key_ := soil_temp_key_ (pk_columns true);
     salinity_key_ := salinity_key_ (pk_columns true);
     dt_photosynthesis_ := 1800;
     dt_site_dym_ := 86400;
     t_photosynthesis_ := -1800;
     t_site_dym_ := -86400;
     surface_only_ := true;
     ncomp_salt_ := 0;
     t_soil_ := [0; 0]; vsm_ := [0; 0]; poro_ := [0; 0];
     eff_poro_ := [0; 0]; suc_ := [0; 0]; salinity_ := [0; 0];
     ncells_owned_ := 2;
     ncells_per_col_ := 1;
     clump_ := 1;
     site_ := [site0; site0];
     time_input_ := time0;
     col_iter := fun col => [col] |}.

Definition after_step (pk : FATES_PK) (S_next : Fields) (t_old t_new : float)
  : FATES_PK :=
  match @AdvanceStep (list string) logging pk [] S_next (Some 101325)
          t_new t_old t_new false with
  | Return (pk', _, _) => pk'
  | Raise _ => pk
  end.

Lemma AdvanceStep_timers_witness :
  t_photosynthesis_ (after_step (pk_columns true) S_weather 84600 86400) =
    (if due 84600 1800 86400 then 86400 else 84600) /\
  t_site_dym_ (after_step (pk_columns true) S_weather 84600 86400) =
    (if due 0 86400 86400 then 86400 else 0) /\
  dt_photosynthesis_ (after_step (pk_columns true) S_weather 84600 86400) = 1800 /\
  dt_site_dym_ (after_step (pk_columns true) S_weather 84600 86400) = 86400 /\
  (due 84600 1800 86400 = false -> due 0 86400 86400 = false ->
   ["wrap_btran"; "prep_canopyfluxes"; "wrap_sunfrac";
    "wrap_canopy_radiation"; "wrap_photosynthesis";
    "wrap_accumulatefluxes"; "dynamics_driv_per_site";
    "dynamics_driv_per_site"]%string = [] /\
   soil_of (after_step (pk_columns true) S_weather 84600 86400)
   = soil_of (pk_columns true) /\
   site_ (after_step (pk_columns true) S_weather 84600 86400) = site_ (pk_columns true)).
Proof.
  apply (@AdvanceStep_timers (list string) logging (pk_columns true) []
           S_weather (Some 101325)
           86400 84600 86400 false
           (after_step (pk_columns true) S_weather 84600 86400) _ false).
  vm_compute. reflexivity.
Defined.

Lemma AdvanceStep_idle_at_time_zero_witness :
  ([] : list string) = [] /\
  soil_of (after_step pk_at_start S_weather (-1800) 0) = soil_of pk_at_start /\
  site_ (after_step pk_at_start S_weather (-1800) 0) = site_ pk_at_start /\
  t_photosynthesis_ (after_step pk_at_start S_weather (-1800) 0) = -1800 /\
  t_site_dym_ (after_step pk_at_start S_weather (-1800) 0) = -86400.
Proof.
  apply (@AdvanceStep_idle_at_time_zero (list string) logging pk_at_start []
           S_weather (Some 101325)
           0 (-1800) false (after_step pk_at_start S_weather (-1800) 0) [] false).
  vm_compute. reflexivity.
Defined.

Definition poro_sample : list float := [0.4; 0.5; 0.3; 0.25].
Definition zeros4 : list float := [0; 0; 0; 0].

Lemma FieldToColumn_copies_column_witness :
  exists r,
    FieldToColumn_ (pk_columns false) 1 poro_sample zeros4 = Return r /\
    length r = length zeros4 /\
    (forall i cell, col_iter (pk_columns false) 1 !! i = Some cell ->
       (1 * ncells_per_col_ (pk_columns false) + i < length zeros4)%nat ->
       r !! (1 * ncells_per_col_ (pk_columns false) + i)%nat
       = poro_sample !! cell) /\
    (forall j,
       (j < 1 * ncells_per_col_ (pk_columns false))%nat \/
       (1 * ncells_per_col_ (pk_columns false)
        + length (col_iter (pk_columns false) 1) <= j)%nat ->
       r !! j = zeros4 !! j).
Proof.
  apply (FieldToColumn_copies_column (pk_columns false) 1 poro_sample zeros4).
  intros cell Hin. simpl in Hin.
  repeat (apply elem_of_cons in Hin as [->|Hin]; [simpl; lia|]).
  inversion Hin.
Defined.

Example FieldToColumn_second_column :
  FieldToColumn_ (pk_columns false) 1 [0.4; 0.5; 0.3; 0.25] [0; 0; 0; 0]
  = Return [0; 0; 0.5; 0.25].
Proof. reflexivity. Qed.

Lemma AdvanceStep_surface_only_soil_witness :
  surface_soil_at (soil_of (after_step (pk_columns true) S_weather 84600 86400))
    [280; 285] 1.
Proof.
  eapply (@AdvanceStep_surface_only_soil (list string) logging
           (pk_columns true) [] S_weather (Some 101325) 86400 84600 86400
           false (after_step (pk_columns true) S_weather 84600 86400) _ false
           [280; 285] 2).
  - reflexivity.
  - reflexivity.
  - repeat split.
  - simpl. lia.
  - reflexivity.
  - vm_compute. reflexivity.
  - simpl. lia.
Defined.

(** In the first of two columns the saturation 0.5 of the top cell is
    multiplied by its porosity 0.4 twice. *)
Lemma AdvanceStep_moisture_multiplied_witness :
  poro_ (after_step (pk_columns false) S_soil 84600 86400)
    !! (0 * ncells_per_col_ (pk_columns false) + 0)%nat = Some 0.4 /\
  vsm_ (after_step (pk_columns false) S_soil 84600 86400)
    !! (0 * ncells_per_col_ (pk_columns false) + 0)%nat
  = Some (Nat.iter (ncells_owned_ (pk_columns false) - 0)
            (fun v => v * 0.4) 0.5).
Proof.
  eapply (@AdvanceStep_moisture_multiplied (list string) logging
           (pk_columns false) [] S_soil (Some 101325) 86400 84600 86400
           false (after_step (pk_columns false) S_soil 84600 86400) _ false
           [0.4; 0.5; 0.3; 0.25] [0.5; 1; 1; 1]).
  - repeat split.
  - reflexivity.
  - reflexivity.
  - reflexivity.
  - intros c Hc. simpl in Hc.
    destruct c as [|[|c]]; [reflexivity|reflexivity|lia].
  - vm_compute. reflexivity.
  - simpl. lia.
  - exists 0%nat. repeat split.
Defined.

Example AdvanceStep_moisture_two_columns :
  vsm_ (after_step (pk_columns false) S_soil 84600 86400)
  = [0.5 * 0.4 * 0.4; 1 * 0.3 * 0.3; 1 * 0.5; 1 * 0.25].
Proof. vm_compute. reflexivity. Qed.

End FATESSteps.

(** ** FATES_PK: the date and the inputs of a step *)

Module FATESInputs.
Import Double Exc ExcFacts FATES FATESSteps.
Local Open Scope float_scope.

Section Inputs.
Context {F : Type} `{Library F}.

(** X27: the atmospheric pressure is read by the photosynthesis branch
    only: a step in which photosynthesis is due does not return without
    it, and a step in which it is not due gives the same result with
    and without it. *)
Theorem AdvanceStep_needs_pressure (pk : FATES_PK) (lib : F)
  (S_next : Fields) (pressure : option float)
  (S_inter_time t_old t_new : float) (reinit : bool) :
  (due (t_photosynthesis_ pk) (dt_photosynthesis_ pk) t_new = true ->
   forall r,
     AdvanceStep pk lib S_next None S_inter_time t_old t_new reinit
     <> Return r) /\
  (due (t_photosynthesis_ pk) (dt_photosynthesis_ pk) t_new = false ->
   AdvanceStep pk lib S_next pressure S_inter_time t_old t_new reinit
   = AdvanceStep pk lib S_next None S_inter_time t_old t_new reinit).
Proof.
  unfold due, AdvanceStep. split; intros Hdue.
  - intros r E.
    do 7 (apply bind_Return in E as (? & _ & E)).
    apply bind_Return in E as ([[soil lib1] t_photo] & Hphoto & _).
    rewrite Hdue in Hphoto.
    apply bind_Return in Hphoto as (soil' & _ & Hphoto).
    apply bind_Return in Hphoto as (lib1' & Hphoto & _).
    unfold photosynthesis in Hphoto. simpl in Hphoto. discriminate.
  - now rewrite Hdue.
Qed.

End Inputs.

Lemma AdvanceStep_needs_pressure_witness :
  (forall r,
     @AdvanceStep (list string) logging (pk_columns true) [] S_weather None
       86400 84600 86400 false <> Return r) /\
  @AdvanceStep (list string) logging pk_at_start [] S_weather (Some 101325)
    0 (-1800) 0 false
  = @AdvanceStep (list string) logging pk_at_start [] S_weather None
      0 (-1800) 0 false.
Proof.
  split.
  - apply (@AdvanceStep_needs_pressure (list string) logging
             (pk_columns true) [] S_weather None 86400 84600 86400 false).
    reflexivity.
  - apply (@AdvanceStep_needs_pressure (list string) logging
             pk_at_start [] S_weather (Some 101325) 0 (-1800) 0 false).
    reflexivity.
Defined.

End FATESInputs.
